(** * Festival Pulse: the RA synchronisation core

    A shallow embedding of the scraper of festival-pulse:
    - [slugify] as written in [scraper/src/sync.ts], [scraper/src/scrape-extra.ts]
      and [scraper/src/manual-enrich.ts];
    - the paginating client [fetchRAEvents] of [scraper/src/ra-client.ts];
    - the reconciliation code of [scraper/src/sync.ts] ([upsertVenue],
      [upsertArtist], [upsertFestival], [syncArea], [main]) over a model of the
      tables declared in [web/src/db/schema.ts]. *)

From Stdlib Require Import String Ascii List NArith ZArith Bool Lia PeanoNat.
Import ListNotations.

Set Implicit Arguments.

(** ** JavaScript strings

    A JavaScript string is a sequence of UTF-16 code units. *)

Module JsString.

Definition jsstring := list N.

(** An ASCII literal of the source as a sequence of code units. *)
Definition lit (s : string) : jsstring :=
  map N_of_ascii (list_ascii_of_string s).

Fixpoint jseqb (a b : jsstring) : bool :=
  match a, b with
  | [], [] => true
  | x :: a', y :: b' => N.eqb x y && jseqb a' b'
  | _, _ => false
  end.

(** [x || null] on a string: the empty string is falsy. *)
Definition or_null (x : jsstring) : option jsstring :=
  match x with [] => None | _ => Some x end.

(** [s.split("T")[0]]: the text before the first [T] (the whole string when
    there is none). *)
Fixpoint before_T (s : jsstring) : jsstring :=
  match s with
  | [] => []
  | c :: r => if N.eqb c 84 then [] else c :: before_T r
  end.

(** The text after the first [T], when there is one. *)
Fixpoint after_T (s : jsstring) : option jsstring :=
  match s with
  | [] => None
  | c :: r => if N.eqb c 84 then Some r else after_T r
  end.

(** [s.split("T")[1]]: the second piece, [undefined] when [s] has no [T]. *)
Definition second_piece_T (s : jsstring) : option jsstring :=
  option_map before_T (after_T s).

(** [x.slice(0, 5)]. *)
Definition slice_0_5 (s : jsstring) : jsstring := firstn 5 s.

(** Decimal rendering of a number inside a template literal. *)
Fixpoint digits_fuel (fuel : nat) (n : N) (acc : jsstring) : jsstring :=
  match fuel with
  | O => acc
  | S f =>
      let acc' := (48 + N.modulo n 10)%N :: acc in
      if N.ltb n 10 then acc' else digits_fuel f (N.div n 10) acc'
  end.

Definition of_N (n : N) : jsstring :=
  digits_fuel (S (N.to_nat (N.log2 n))) n [].

End JsString.
Export JsString.

(** ** The slug normalisation, three times over *)

Module Slug.

Definition hyphen : N := 45.

(** The class [[a-z0-9]] of the regular expressions below. *)
Definition is_az09 (c : N) : bool :=
  ((97 <=? c) && (c <=? 122) || (48 <=? c) && (c <=? 57))%N.

(** The class of U+0300..U+036F (combining diacritical marks). *)
Definition is_combining_mark (c : N) : bool :=
  ((768 <=? c) && (c <=? 879))%N.

(** [.replace(/[^a-z0-9]+/g, "-")]: every maximal run of code units outside
    [[a-z0-9]] is replaced by one hyphen.  [inrun] tells that the previous
    code unit already belonged to the run being replaced. *)
Fixpoint collapse_runs (inrun : bool) (s : jsstring) : jsstring :=
  match s with
  | [] => []
  | c :: r =>
      if is_az09 c then c :: collapse_runs false r
      else if inrun then collapse_runs true r
      else hyphen :: collapse_runs true r
  end.

(** [.replace(/^-|-$/g, "")]: the alternative [^-] removes a hyphen at index 0,
    the alternative [-$] removes a hyphen at the last index. *)
Definition drop_leading_hyphen (s : jsstring) : jsstring :=
  match s with
  | c :: r => if N.eqb c hyphen then r else s
  | [] => []
  end.

Fixpoint drop_trailing_hyphen (s : jsstring) : jsstring :=
  match s with
  | [] => []
  | [c] => if N.eqb c hyphen then [] else [c]
  | c :: r => c :: drop_trailing_hyphen r
  end.

Definition trim_hyphens (s : jsstring) : jsstring :=
  drop_trailing_hyphen (drop_leading_hyphen s).

(** [.replace] of every code unit in U+0300..U+036F by the empty string. *)
Definition strip_marks (s : jsstring) : jsstring :=
  filter (fun c => negb (is_combining_mark c)) s.

Section UnicodeTables.

(** The case mapping and the canonical decomposition of the code units
    outside ASCII come from the Unicode tables of the JavaScript runtime,
    which are not part of the repository: they are parameters here, one
    code unit at a time.  (The runtime also looks at the context of a Greek
    capital sigma and reorders combining marks; neither is modelled: both
    concern code units outside [[a-z0-9]] only.) *)
Variable unicodeLower : N -> jsstring.
Variable unicodeDecomp : N -> jsstring.

Definition lower_unit (c : N) : jsstring :=
  if ((65 <=? c) && (c <=? 90))%N then [(c + 32)%N]
  else if (c <? 128)%N then [c]
  else unicodeLower c.

(** [String.prototype.toLowerCase]. *)
Definition toLowerCase (s : jsstring) : jsstring := flat_map lower_unit s.

Definition decomp_unit (c : N) : jsstring :=
  if (c <? 128)%N then [c] else unicodeDecomp c.

(** [String.prototype.normalize("NFD")]. *)
Definition normalizeNFD (s : jsstring) : jsstring := flat_map decomp_unit s.

(** [slugify] of [scraper/src/sync.ts]. *)
Definition slugify (text : jsstring) : jsstring :=
  trim_hyphens (collapse_runs false (toLowerCase text)).

(** [slugify] of [scraper/src/scrape-extra.ts]. *)
Definition slugify_scrape_extra (text : jsstring) : jsstring :=
  trim_hyphens (collapse_runs false (toLowerCase text)).

(** [slugify] of [scraper/src/manual-enrich.ts]. *)
Definition slugify_manual_enrich (name : jsstring) : jsstring :=
  trim_hyphens
    (collapse_runs false (strip_marks (normalizeNFD (toLowerCase name)))).

(** Two names that differ by casing only: unit by unit they have the same
    lower case. *)
Definition same_modulo_case (a b : jsstring) : Prop :=
  Forall2 (fun x y => lower_unit x = lower_unit y) a b.

End UnicodeTables.

(** An excerpt of the Unicode tables, enough to run the functions on Latin-1
    text: the lower case of the Latin-1 capital letters, of U+0130 and of the
    Kelvin sign; every other code unit is left as it is. *)
Definition latin1Lower (c : N) : jsstring :=
  if ((192 <=? c) && (c <=? 222) && negb (c =? 215))%N then [(c + 32)%N]
  else if (c =? 304)%N then [105; 775]%N
  else if (c =? 8490)%N then [107]%N
  else [c].

(** Canonical decompositions of the Latin-1 small letters: base letter and
    combining mark. *)
Definition latin1DecompTable : list (N * (N * N)) :=
  [ (224, (97, 768)); (225, (97, 769)); (226, (97, 770)); (227, (97, 771));
    (228, (97, 776)); (229, (97, 778)); (231, (99, 807)); (232, (101, 768));
    (233, (101, 769)); (234, (101, 770)); (235, (101, 776)); (236, (105, 768));
    (237, (105, 769)); (238, (105, 770)); (239, (105, 776)); (241, (110, 771));
    (242, (111, 768)); (243, (111, 769)); (244, (111, 770)); (245, (111, 771));
    (246, (111, 776)); (249, (117, 768)); (250, (117, 769)); (251, (117, 770));
    (252, (117, 776)); (253, (121, 769)); (255, (121, 776)) ]%N.

Definition latin1Decomp (c : N) : jsstring :=
  match find (fun e => N.eqb (fst e) c) latin1DecompTable with
  | Some (_, (base, mark)) => [base; mark]
  | None => [c]
  end.

(** The maximal runs of [[a-z0-9]] in a text, in order. *)
Fixpoint slug_words (s : jsstring) : list jsstring :=
  match s with
  | [] => []
  | c :: r =>
      if is_az09 c then
        match r with
        | d :: _ =>
            if is_az09 d then
              match slug_words r with
              | w :: ws => (c :: w) :: ws
              | [] => [[c]]
              end
            else [c] :: slug_words r
        | [] => [[c]]
        end
      else slug_words r
  end.

Fixpoint join_hyphen (ws : list jsstring) : jsstring :=
  match ws with
  | [] => []
  | [w] => w
  | w :: rest => w ++ hyphen :: join_hyphen rest
  end.

(** The slug as the specification words it, diacritics apart: lower case,
    every run of other characters collapsed to one hyphen, no hyphen at
    either end; that is, the words of the lower-cased text joined by
    hyphens. *)
Definition slug_of_words (unicodeLower : N -> jsstring) (text : jsstring)
  : jsstring :=
  join_hyphen (slug_words (toLowerCase unicodeLower text)).

(** Text made of ASCII code units only. *)
Definition ascii (s : jsstring) : Prop := Forall (fun c => (c < 128)%N) s.

(** What a slug is made of: small letters, digits and hyphens. *)
Definition slug_unit (c : N) : bool := is_az09 c || N.eqb c hyphen.

Definition starts_with_hyphen (s : jsstring) : bool :=
  match s with c :: _ => N.eqb c hyphen | [] => false end.

Fixpoint ends_with_hyphen (s : jsstring) : bool :=
  match s with
  | [] => false
  | [c] => N.eqb c hyphen
  | _ :: r => ends_with_hyphen r
  end.

(** No two hyphens in a row. *)
Fixpoint no_hyphen_pair (s : jsstring) : bool :=
  match s with
  | [] => true
  | c :: r => negb (N.eqb c hyphen && starts_with_hyphen r) && no_hyphen_pair r
  end.

(** U+00E9, the small letter e with an acute accent. *)
Definition e_acute : N := 233.

Definition cafe_accented : jsstring := lit "Caf" ++ [e_acute].

End Slug.
Export Slug.


(** ** Outcomes of asynchronous calls

    An awaited promise either resolves to a value or rejects with an error, of
    which the code only ever reads [err.message]. *)

Inductive result (A : Type) : Type :=
| Ok (a : A)
| Throw (message : jsstring).

Arguments Ok {A} a.
Arguments Throw {A} message.

(** ** The listings of the events API ([scraper/src/ra-client.ts]) *)

Module RaClient.

Record RAArtist := { artist_id : jsstring; artist_name : jsstring }.

Record RACountry := { country_id : jsstring; country_name : jsstring }.

Record RAArea := {
  area_id : jsstring;
  area_name : jsstring;
  area_country : option RACountry
}.

Record RAVenue := {
  venue_id : jsstring;
  venue_name : jsstring;
  venue_address : jsstring;
  venue_area : option RAArea
}.

(** Fields that the code reads through [?.] are optional. *)
Record RAEvent := {
  event_id : jsstring;
  event_title : jsstring;
  event_date : option jsstring;
  event_startTime : option jsstring;
  event_endTime : option jsstring;
  event_contentUrl : jsstring;
  event_attending : Z;
  event_images : option (list jsstring);
  event_venue : option RAVenue;
  event_artists : option (list RAArtist)
}.

Record RAEventListing := {
  listing_id : jsstring;
  listing_date : jsstring;
  listing_event : option RAEvent
}.

(** What one page request can come back with. *)
Inductive Reply :=
| FetchRejects (message : jsstring)
| HttpFailure (status : N) (statusText : jsstring)
| JsonRejects (message : jsstring)
| Body (data : option (list RAEventListing)) (totalResults : Z).

(** What a call of [fetchRAEvents] does to the outside world, in order. *)
Inductive Effect :=
| Request (page : nat)
| ConsoleError (line : jsstring)
| ConsoleLog (line : jsstring)
| Sleep (ms : N).

Definition api_error_line (status : N) (statusText : jsstring) : jsstring :=
  lit "RA API error: " ++ of_N status ++ lit " " ++ statusText.

Definition page_line (page n total : nat) : jsstring :=
  lit "  Page " ++ of_N (N.of_nat page) ++ lit ": " ++ of_N (N.of_nat n)
    ++ lit " events (total: " ++ of_N (N.of_nat total) ++ lit ")".

Section Client.

(** The remote service, for the area, the date window and the page size of
    one call: what it replies to the request for each page number. *)
Variable server : nat -> Reply.

(** The [while (true)] loop; [fuel] bounds the number of iterations. *)
Fixpoint fetch_loop (fuel : nat) (page : nat) (allEvents : list RAEventListing)
    (trace : list Effect) : option (result (list RAEventListing) * list Effect) :=
  match fuel with
  | O => None
  | S fuel' =>
      let trace1 := trace ++ [Request page] in
      match server page with
      | FetchRejects message => Some (Throw message, trace1)
      | HttpFailure status statusText =>
          Some (Ok allEvents,
                trace1 ++ [ConsoleError (api_error_line status statusText)])
      | JsonRejects message => Some (Throw message, trace1)
      | Body None _ => Some (Ok allEvents, trace1)
      | Body (Some []) _ => Some (Ok allEvents, trace1)
      | Body (Some listings) totalResults =>
          let allEvents' := allEvents ++ listings in
          let trace2 :=
            trace1 ++ [ConsoleLog (page_line page (length listings)
                                     (length allEvents'))] in
          if (Z.of_nat (length allEvents') >=? totalResults)%Z
          then Some (Ok allEvents', trace2)
          else fetch_loop fuel' (S page) allEvents' (trace2 ++ [Sleep 1500])
      end
  end.

Definition fetchRAEvents (fuel : nat)
  : option (result (list RAEventListing) * list Effect) :=
  fetch_loop fuel 1 [] [].

End Client.

(** The page numbers requested, in order. *)
Definition requests (trace : list Effect) : list nat :=
  flat_map (fun e => match e with Request p => [p] | _ => [] end) trace.


(** The listings that a reply carries. *)
Definition page_items (r : Reply) : list RAEventListing :=
  match r with
  | Body (Some listings) _ => listings
  | _ => []
  end.

(** The listings that the service has for a page. *)
Definition served (server : nat -> Reply) (p : nat) : list RAEventListing :=
  page_items (server p).

(** The reply is a page with no listing. *)
Definition zero_items (r : Reply) : Prop :=
  match r with
  | Body None _ => True
  | Body (Some []) _ => True
  | _ => False
  end.

(** The reply is an HTTP response whose body, if any, parses. *)
Definition responds (r : Reply) : Prop :=
  match r with
  | HttpFailure _ _ => True
  | Body _ _ => True
  | _ => False
  end.

(** Starting at [page] with [count] listings accumulated, each page of
    [pages] (its listings and its declared total) is served in turn, is not
    empty and leaves the running count below the total it declares. *)
Fixpoint advances (server : nat -> Reply) (page count : nat)
    (pages : list (list RAEventListing * Z)) : Prop :=
  match pages with
  | [] => True
  | (listings, totalResults) :: rest =>
      server page = Body (Some listings) totalResults
      /\ listings <> []
      /\ (Z.of_nat (count + length listings) < totalResults)%Z
      /\ advances server (S page) (count + length listings) rest
  end.

(** The effects of the pages of [advances]. *)
Fixpoint pages_trace (page count : nat) (pages : list (list RAEventListing * Z))
  : list Effect :=
  match pages with
  | [] => []
  | (listings, _) :: rest =>
      [Request page;
       ConsoleLog (page_line page (length listings) (count + length listings));
       Sleep 1500]
      ++ pages_trace (S page) (count + length listings) rest
  end.

End RaClient.
Export RaClient.

(** ** The relational store ([web/src/db/schema.ts]) *)

Module Db.

(** Primary keys are generated by the store ([uuid().defaultRandom()]): a
    generated key is one that was never handed out before. *)
Definition uuid := nat.

Record Row (V : Type) := { id : uuid; values : V }.

Record VenueValues := {
  venues_name : jsstring;
  venues_city : option jsstring;
  venues_country : option jsstring;
  venues_address : option jsstring
}.

Record ArtistValues := {
  artists_name : jsstring;
  artists_slug : jsstring;
  artists_raUrl : jsstring
}.

Record FestivalValues := {
  festivals_name : jsstring;
  festivals_slug : jsstring;
  festivals_startDate : option jsstring;
  festivals_endDate : option jsstring;
  festivals_venueId : option uuid;
  festivals_websiteUrl : option jsstring;
  festivals_imageUrl : option jsstring;
  festivals_status : jsstring;
  festivals_metadata : jsstring * Z
}.

Record LineupValues := {
  lineups_festivalId : uuid;
  lineups_artistId : uuid;
  lineups_performanceDate : option jsstring;
  lineups_startTime : option jsstring;
  lineups_endTime : option jsstring
}.

Record LogValues := {
  logs_status : jsstring;
  logs_festivalsFound : nat;
  logs_artistsFound : nat;
  logs_errors : list jsstring;
  logs_duration : Z
}.

Record Store := {
  venues : list (Row VenueValues);
  artists : list (Row ArtistValues);
  festivals : list (Row FestivalValues);
  festivalLineups : list (Row LineupValues);
  scrapeLogs : list (Row LogValues);
  next_uuid : uuid;
  clock : nat
}.

Definition empty_store : Store :=
  {| venues := []; artists := []; festivals := []; festivalLineups := [];
     scrapeLogs := []; next_uuid := 0; clock := 0 |}.

(** The statements that [sync.ts] sends to the store. *)
Inductive Statement :=
| SelectVenueByName (name : jsstring)
| InsertVenue (v : VenueValues)
| SelectArtistBySlug (slug : jsstring)
| InsertArtist (v : ArtistValues)
| SelectFestivalBySlug (slug : jsstring)
| InsertFestival (v : FestivalValues)
| InsertLineup (v : LineupValues)
| InsertScrapeLog (v : LogValues).

(** Which statements the store refuses, and with which message: the [n]-th
    statement of the store's life may fail for reasons of its own (a value
    that does not fit its column, a lost connection). *)
Definition Faults := nat -> Statement -> option jsstring.

Definition tick (s : Store) : Store :=
  {| venues := venues s; artists := artists s; festivals := festivals s;
     festivalLineups := festivalLineups s; scrapeLogs := scrapeLogs s;
     next_uuid := next_uuid s; clock := S (clock s) |}.

Definition add_venue (v : VenueValues) (s : Store) : Store :=
  {| venues := venues s ++ [{| id := next_uuid s; values := v |}];
     artists := artists s; festivals := festivals s;
     festivalLineups := festivalLineups s; scrapeLogs := scrapeLogs s;
     next_uuid := S (next_uuid s); clock := clock s |}.

Definition add_artist (v : ArtistValues) (s : Store) : Store :=
  {| venues := venues s;
     artists := artists s ++ [{| id := next_uuid s; values := v |}];
     festivals := festivals s;
     festivalLineups := festivalLineups s; scrapeLogs := scrapeLogs s;
     next_uuid := S (next_uuid s); clock := clock s |}.

Definition add_festival (v : FestivalValues) (s : Store) : Store :=
  {| venues := venues s; artists := artists s;
     festivals := festivals s ++ [{| id := next_uuid s; values := v |}];
     festivalLineups := festivalLineups s; scrapeLogs := scrapeLogs s;
     next_uuid := S (next_uuid s); clock := clock s |}.

Definition add_lineup (v : LineupValues) (s : Store) : Store :=
  {| venues := venues s; artists := artists s; festivals := festivals s;
     festivalLineups :=
       festivalLineups s ++ [{| id := next_uuid s; values := v |}];
     scrapeLogs := scrapeLogs s;
     next_uuid := S (next_uuid s); clock := clock s |}.

Definition add_log (v : LogValues) (s : Store) : Store :=
  {| venues := venues s; artists := artists s; festivals := festivals s;
     festivalLineups := festivalLineups s;
     scrapeLogs := scrapeLogs s ++ [{| id := next_uuid s; values := v |}];
     next_uuid := S (next_uuid s); clock := clock s |}.

(** [.where(eq(venues.name, name)).limit(1)] and its two siblings. *)
Definition venue_named (name : jsstring) (r : Row VenueValues) : bool :=
  jseqb (venues_name (values r)) name.

Definition artist_slugged (slug : jsstring) (r : Row ArtistValues) : bool :=
  jseqb (artists_slug (values r)) slug.

Definition festival_slugged (slug : jsstring) (r : Row FestivalValues) : bool :=
  jseqb (festivals_slug (values r)) slug.

(** The unique index [unique_lineup] on [(festival_id, artist_id)]. *)
Definition lineup_pair (r : Row LineupValues) : uuid * uuid :=
  (lineups_festivalId (values r), lineups_artistId (values r)).

Definition same_pair (v : LineupValues) (r : Row LineupValues) : bool :=
  Nat.eqb (lineups_festivalId (values r)) (lineups_festivalId v)
  && Nat.eqb (lineups_artistId (values r)) (lineups_artistId v).

Definition unique_violation (constraint : string) : jsstring :=
  lit "duplicate key value violates unique constraint " ++ lit constraint.

(** A computation against the store: it leaves the store as it was when it
    threw, not as it was when it started. *)
Definition DB (A : Type) : Type := Store -> result A * Store.

Definition ret {A} (a : A) : DB A := fun s => (Ok a, s).

Definition bind {A B} (m : DB A) (k : A -> DB B) : DB B :=
  fun s =>
    match m s with
    | (Ok a, s1) => k a s1
    | (Throw message, s1) => (Throw message, s1)
    end.

Notation "x <- m ;; k" := (bind m (fun x => k))
  (at level 61, m at next level, right associativity).

Section Statements.

Variable faults : Faults.

(** One awaited statement: the store counts it, then refuses or runs it. *)
Definition statement {A} (q : Statement) (run : DB A) : DB A :=
  fun s =>
    match faults (clock s) q with
    | Some message => (Throw message, tick s)
    | None => run (tick s)
    end.

Definition selectVenueByName (name : jsstring) : DB (option (Row VenueValues)) :=
  statement (SelectVenueByName name)
    (fun s => (Ok (find (venue_named name) (venues s)), s)).

Definition insertVenue (v : VenueValues) : DB uuid :=
  statement (InsertVenue v) (fun s => (Ok (next_uuid s), add_venue v s)).

Definition selectArtistBySlug (slug : jsstring) : DB (option (Row ArtistValues)) :=
  statement (SelectArtistBySlug slug)
    (fun s => (Ok (find (artist_slugged slug) (artists s)), s)).

(** [artists.slug] is declared [.unique()]. *)
Definition insertArtist (v : ArtistValues) : DB uuid :=
  statement (InsertArtist v)
    (fun s =>
       if existsb (artist_slugged (artists_slug v)) (artists s)
       then (Throw (unique_violation "artists_slug_unique"), s)
       else (Ok (next_uuid s), add_artist v s)).

Definition selectFestivalBySlug (slug : jsstring)
  : DB (option (Row FestivalValues)) :=
  statement (SelectFestivalBySlug slug)
    (fun s => (Ok (find (festival_slugged slug) (festivals s)), s)).

(** [festivals.slug] is declared [.unique()]. *)
Definition insertFestival (v : FestivalValues) : DB uuid :=
  statement (InsertFestival v)
    (fun s =>
       if existsb (festival_slugged (festivals_slug v)) (festivals s)
       then (Throw (unique_violation "festivals_slug_unique"), s)
       else (Ok (next_uuid s), add_festival v s)).

(** [db.insert(festivalLineups).values(v).onConflictDoNothing()]: a row
    that would break the unique index is not inserted, and nothing is
    raised. *)
Definition insertLineupOnConflictDoNothing (v : LineupValues) : DB unit :=
  statement (InsertLineup v)
    (fun s =>
       if existsb (same_pair v) (festivalLineups s)
       then (Ok tt, s)
       else (Ok tt, add_lineup v s)).

Definition insertScrapeLog (v : LogValues) : DB unit :=
  statement (InsertScrapeLog v) (fun s => (Ok tt, add_log v s)).

End Statements.

End Db.
Export Db.

(** ** The reconciliation ([scraper/src/sync.ts]) *)

Module Sync.

(** The local variables [festivalsFound], [artistsFound] and [errors] of
    [syncArea]; [errors] is kept in the order of the [push]es. *)
Record Counters := {
  festivalsFound : nat;
  artistsFound : nat;
  errors : list jsstring
}.

Definition no_counters : Counters :=
  {| festivalsFound := 0; artistsFound := 0; errors := [] |}.

Definition count_festival (c : Counters) : Counters :=
  {| festivalsFound := S (festivalsFound c); artistsFound := artistsFound c;
     errors := errors c |}.

Definition count_artist (c : Counters) : Counters :=
  {| festivalsFound := festivalsFound c; artistsFound := S (artistsFound c);
     errors := errors c |}.

Definition push_error (e : jsstring) (c : Counters) : Counters :=
  {| festivalsFound := festivalsFound c; artistsFound := artistsFound c;
     errors := errors c ++ [e] |}.

Definition artist_error (artist : RAArtist) (message : jsstring) : jsstring :=
  lit "Artist " ++ artist_name artist ++ lit ": " ++ message.

Definition event_error (title message : jsstring) : jsstring :=
  lit "Event " ++ title ++ lit ": " ++ message.

Definition area_error (areaName message : jsstring) : jsstring :=
  lit "Area " ++ areaName ++ lit ": " ++ message.

(** What reading [event.venue] raises when [listing.event] is missing. *)
Definition no_event_message : jsstring :=
  lit "Cannot read properties of undefined (reading 'venue')".

(** [x?.split("T")[0] || null]. *)
Definition date_part (x : option jsstring) : option jsstring :=
  match x with
  | None => None
  | Some s => or_null (before_T s)
  end.

(** [x?.split("T")[1]?.slice(0, 5) || null]. *)
Definition time_part (x : option jsstring) : option jsstring :=
  match x with
  | None => None
  | Some s =>
      match second_piece_T s with
      | None => None
      | Some t => or_null (slice_0_5 t)
      end
  end.

Definition venue_values (v : RAVenue) : VenueValues :=
  {| venues_name := venue_name v;
     venues_city :=
       match venue_area v with
       | Some a => or_null (area_name a)
       | None => None
       end;
     venues_country :=
       match venue_area v with
       | Some a =>
           match area_country a with
           | Some c => or_null (country_name c)
           | None => None
           end
       | None => None
       end;
     venues_address := or_null (venue_address v) |}.

(** [event.images?.[0]?.filename ? `https://ra.co/images/events/flyer/...` : null]. *)
Definition image_url (event : RAEvent) : option jsstring :=
  match event_images event with
  | Some (filename :: _) =>
      match filename with
      | [] => None
      | _ => Some (lit "https://ra.co/images/events/flyer/" ++ filename)
      end
  | _ => None
  end.

Definition website_url (event : RAEvent) : option jsstring :=
  match event_contentUrl event with
  | [] => None
  | url => Some (lit "https://ra.co" ++ url)
  end.

Definition festival_values (event : RAEvent) (slug : jsstring)
    (venueId : option uuid) : FestivalValues :=
  {| festivals_name := event_title event;
     festivals_slug := slug;
     festivals_startDate := date_part (event_date event);
     festivals_endDate := date_part (event_date event);
     festivals_venueId := venueId;
     festivals_websiteUrl := website_url event;
     festivals_imageUrl := image_url event;
     festivals_status := lit "upcoming";
     festivals_metadata := (event_id event, event_attending event) |}.

Definition lineup_values (festivalId artistId : uuid) (event : RAEvent)
  : LineupValues :=
  {| lineups_festivalId := festivalId;
     lineups_artistId := artistId;
     lineups_performanceDate := date_part (event_date event);
     lineups_startTime := time_part (event_startTime event);
     lineups_endTime := time_part (event_endTime event) |}.

(** [errors.length > 0 ? "partial" : "success"] and [errors.slice(0, 20)]. *)
Definition log_values (c : Counters) (duration : Z) : LogValues :=
  {| logs_status :=
       match errors c with [] => lit "success" | _ => lit "partial" end;
     logs_festivalsFound := festivalsFound c;
     logs_artistsFound := artistsFound c;
     logs_errors := firstn 20 (errors c);
     logs_duration := duration |}.

(** [event.artists || []]. *)
Definition artists_of (event : RAEvent) : list RAArtist :=
  match event_artists event with
  | Some l => l
  | None => []
  end.

(** The regions of [main]: "MVP: Costa Rica only". *)
Definition targetAreas : list (jsstring * N) := [(lit "Costa Rica", 26%N)].

Section Reconcile.

Variable unicodeLower : N -> jsstring.
Variable faults : Faults.

Definition artist_slug (artist : RAArtist) : jsstring :=
  slugify unicodeLower (artist_name artist).

Definition festival_slug (event : RAEvent) : jsstring :=
  slugify unicodeLower (event_title event) ++ lit "-" ++ event_id event.

Definition artist_values (artist : RAArtist) : ArtistValues :=
  {| artists_name := artist_name artist;
     artists_slug := artist_slug artist;
     artists_raUrl := lit "https://ra.co/dj/" ++ artist_slug artist |}.

(** The local [slug] of the source ([`ra-venue-${v.id}`]) is never read. *)
Definition upsertVenue (event : RAEvent) : DB (option uuid) :=
  match event_venue event with
  | None => ret None
  | Some v =>
      match venue_name v with
      | [] => ret None
      | _ =>
          existing <- selectVenueByName faults (venue_name v) ;;
          match existing with
          | Some r => ret (Some (id r))
          | None =>
              inserted <- insertVenue faults (venue_values v) ;;
              ret (Some inserted)
          end
      end
  end.

Definition upsertArtist (artist : RAArtist) : DB uuid :=
  existing <- selectArtistBySlug faults (artist_slug artist) ;;
  match existing with
  | Some r => ret (id r)
  | None => insertArtist faults (artist_values artist)
  end.

Definition upsertFestival (event : RAEvent) (venueId : option uuid) : DB uuid :=
  existing <- selectFestivalBySlug faults (festival_slug event) ;;
  match existing with
  | Some r => ret (id r)
  | None =>
      insertFestival faults (festival_values event (festival_slug event) venueId)
  end.

(** The state of the loops of [syncArea]: its local variables and the store. *)
Definition Run : Type := Counters * Store.

(** One turn of the loop over [event.artists], with its [try]/[catch]. *)
Definition artistStep (festivalId : uuid) (event : RAEvent) (st : Run)
    (artist : RAArtist) : Run :=
  let (c, s) := st in
  match upsertArtist artist s with
  | (Throw message, s1) => (push_error (artist_error artist message) c, s1)
  | (Ok artistId, s1) =>
      let c1 := count_artist c in
      match insertLineupOnConflictDoNothing faults
              (lineup_values festivalId artistId event) s1 with
      | (Throw message, s2) =>
          (push_error (artist_error artist message) c1, s2)
      | (Ok _, s2) => (c1, s2)
      end
  end.

(** One turn of the loop over the listings, with its [try]/[catch]. *)
Definition listingStep (st : Run) (listing : RAEventListing) : Run :=
  let (c, s) := st in
  match listing_event listing with
  | None => (push_error (event_error (lit "undefined") no_event_message) c, s)
  | Some event =>
      match upsertVenue event s with
      | (Throw message, s1) =>
          (push_error (event_error (event_title event) message) c, s1)
      | (Ok venueId, s1) =>
          match upsertFestival event venueId s1 with
          | (Throw message, s2) =>
              (push_error (event_error (event_title event) message) c, s2)
          | (Ok festivalId, s2) =>
              fold_left (artistStep festivalId event) (artists_of event)
                (count_festival c, s2)
          end
      end
  end.

(** The outer [try] of [syncArea], from the outcome of [fetchRAEvents]. *)
Definition processFetched (areaName : jsstring)
    (fetched : result (list RAEventListing)) (s : Store) : Run :=
  match fetched with
  | Throw message => (push_error (area_error areaName message) no_counters, s)
  | Ok listings => fold_left listingStep listings (no_counters, s)
  end.

Section Environment.

(** The remote service: its reply to the request for a page of an area
    and a date window.  [elapsed] is what [Date.now() - startTime] reads
    for an area.  [fuel] bounds the page requests of one call. *)
Variable network : N -> jsstring -> jsstring -> nat -> Reply.
Variable elapsed : N -> Z.
Variable fuel : nat.

(** [syncArea]; [None] when the pagination does not come to an end.
    The progress lines it prints are not modelled. *)
Definition syncArea (areaName : jsstring) (areaId : N)
    (dateGte dateLte : jsstring) (s : Store)
  : option (result Counters * Store) :=
  match fetchRAEvents (network areaId dateGte dateLte) fuel with
  | None => None
  | Some (fetched, _) =>
      let (c, s1) := processFetched areaName fetched s in
      match insertScrapeLog faults (log_values c (elapsed areaId)) s1 with
      | (Throw message, s2) => Some (Throw message, s2)
      | (Ok _, s2) => Some (Ok c, s2)
      end
  end.

(** The loop of [main] over the regions, summing the counts. *)
Fixpoint syncAreas (areas : list (jsstring * N)) (dateGte dateLte : jsstring)
    (totals : nat * nat) (s : Store)
  : option (result (nat * nat) * Store) :=
  match areas with
  | [] => Some (Ok totals, s)
  | (name, areaId) :: rest =>
      match syncArea name areaId dateGte dateLte s with
      | None => None
      | Some (Throw message, s1) => Some (Throw message, s1)
      | Some (Ok r, s1) =>
          syncAreas rest dateGte dateLte
            (fst totals + festivalsFound r, snd totals + artistsFound r) s1
      end
  end.

(** [main]; the date window is read from the system clock. *)
Definition main (dateGte dateLte : jsstring) (s : Store)
  : option (result (nat * nat) * Store) :=
  syncAreas targetAreas dateGte dateLte (0, 0) s.

End Environment.

End Reconcile.

(** The call returned rather than threw. *)
Definition completed {A : Type} (r : result A * Store) : bool :=
  match r with
  | (Ok _, _) => true
  | (Throw _, _) => false
  end.

(** The venue and festival upserts of the listing both return, from [s]. *)
Definition festival_upserted (unicodeLower : N -> jsstring) (faults : Faults)
    (listing : RAEventListing) (s : Store) : bool :=
  match listing_event listing with
  | None => false
  | Some event =>
      match upsertVenue faults event s with
      | (Ok venueId, s1) =>
          completed (upsertFestival unicodeLower faults event venueId s1)
      | (Throw _, _) => false
      end
  end.

(** The column constraints of [schema.ts] that a value can break by its
    length: [varchar(255)] for names and slugs, [varchar(100)] for the country
    of a venue.  A store that refuses exactly these. *)
Definition too_long (limit : nat) (x : jsstring) : bool :=
  Nat.ltb limit (length x).

Definition too_long_opt (limit : nat) (x : option jsstring) : bool :=
  match x with Some v => too_long limit v | None => false end.

Definition value_too_long (limit : string) : jsstring :=
  lit "value too long for type character varying(" ++ lit limit ++ lit ")".

Definition schema_faults : Faults :=
  fun _ q =>
    match q with
    | InsertVenue v =>
        if too_long 255 (venues_name v) || too_long_opt 255 (venues_city v)
        then Some (value_too_long "255")
        else if too_long_opt 100 (venues_country v)
        then Some (value_too_long "100")
        else None
    | InsertArtist v =>
        if too_long 255 (artists_name v) || too_long 255 (artists_slug v)
        then Some (value_too_long "255")
        else None
    | InsertFestival v =>
        if too_long 255 (festivals_name v) || too_long 255 (festivals_slug v)
        then Some (value_too_long "255")
        else None
    | _ => None
    end.

End Sync.
Export Sync.

(** ** What the proofs speak about *)

Module Invariants.

(** [l'] is [l] with rows appended: nothing removed, nothing rewritten. *)
Definition extends {A : Type} (l l' : list A) : Prop :=
  exists more, l' = l ++ more.

(** The atomic changes that the statements of the reconciliation make to the
    store; a slug or a lineup pair is only added when it is not there yet. *)
Inductive entity_step (s : Store) : Store -> Prop :=
| step_tick : entity_step s (tick s)
| step_venue (v : VenueValues) : entity_step s (add_venue v s)
| step_artist (v : ArtistValues) :
    existsb (artist_slugged (artists_slug v)) (artists s) = false ->
    entity_step s (add_artist v s)
| step_festival (v : FestivalValues) :
    existsb (festival_slugged (festivals_slug v)) (festivals s) = false ->
    entity_step s (add_festival v s)
| step_lineup (v : LineupValues) :
    existsb (same_pair v) (festivalLineups s) = false ->
    entity_step s (add_lineup v s).

Inductive entity_steps : Store -> Store -> Prop :=
| steps_done (s : Store) : entity_steps s s
| steps_next (s t u : Store) :
    entity_step s t -> entity_steps t u -> entity_steps s u.

(** The four entity tables hold the same rows. *)
Definition same_entities (s t : Store) : Prop :=
  venues s = venues t /\ artists s = artists t
  /\ festivals s = festivals t /\ festivalLineups s = festivalLineups t.

(** Every table of [t] is the table of [s] with rows appended. *)
Definition grows (s t : Store) : Prop :=
  extends (venues s) (venues t) /\ extends (artists s) (artists t)
  /\ extends (festivals s) (festivals t)
  /\ extends (festivalLineups s) (festivalLineups t)
  /\ extends (scrapeLogs s) (scrapeLogs t).

(** The four entity tables of [t] are those of [s] with rows appended. *)
Definition entities_grow (s t : Store) : Prop :=
  extends (venues s) (venues t) /\ extends (artists s) (artists t)
  /\ extends (festivals s) (festivals t)
  /\ extends (festivalLineups s) (festivalLineups t).

(** The artist occurrences of a listing, and of a list of listings. *)
Definition listing_slots (listing : RAEventListing) : nat :=
  match listing_event listing with
  | Some event => length (artists_of event)
  | None => 0
  end.

Definition artist_slots (listings : list RAEventListing) : nat :=
  list_sum (map listing_slots listings).

(** No two lineup rows for the same festival and artist. *)
Definition unique_lineups (s : Store) : Prop :=
  NoDup (map lineup_pair (festivalLineups s)).

Section Settled.

Variable unicodeLower : N -> jsstring.

(** The venue of the event can be found by its name (or the event has
    none). *)
Definition venue_settled (event : RAEvent) (s : Store) : Prop :=
  match event_venue event with
  | None => True
  | Some v =>
      venue_name v = []
      \/ exists r, find (venue_named (venue_name v)) (venues s) = Some r
  end.

(** The artist can be found by slug and is linked to the festival. *)
Definition artist_settled (festivalId : uuid) (event : RAEvent) (s : Store)
    (artist : RAArtist) : Prop :=
  exists r,
    find (artist_slugged (artist_slug unicodeLower artist)) (artists s) = Some r
    /\ existsb (same_pair (lineup_values festivalId (id r) event))
         (festivalLineups s) = true.

(** Everything that [syncArea] would create for the listing is there. *)
Definition listing_settled (s : Store) (listing : RAEventListing) : Prop :=
  match listing_event listing with
  | None => True
  | Some event =>
      venue_settled event s
      /\ exists f,
          find (festival_slugged (festival_slug unicodeLower event))
            (festivals s) = Some f
          /\ Forall (artist_settled (id f) event s) (artists_of event)
  end.

(** An artist of the listing was dealt with: it is in the [artists] table,
    or an error [Artist <name>: <message>] was recorded. *)
Definition artist_handled (st : Run) (artist : RAArtist) : Prop :=
  (exists r, In r (artists (snd st))
             /\ artists_slug (values r) = artist_slug unicodeLower artist)
  \/ (exists message,
         In (lit "Artist " ++ artist_name artist ++ lit ": " ++ message)
           (errors (fst st))).

End Settled.

End Invariants.
Export Invariants.

(** ** Concrete runs *)

Module Scenarios.

Definition plain_event (eventId title : string) (venue : option RAVenue)
    (lineup : list RAArtist) : RAEvent :=
  {| event_id := lit eventId;
     event_title := lit title;
     event_date := Some (lit "2026-02-23T00:00:00.000");
     event_startTime := Some (lit "2026-02-23T12:00:00.000");
     event_endTime := None;
     event_contentUrl := lit "/events/" ++ lit eventId;
     event_attending := 10%Z;
     event_images := None;
     event_venue := venue;
     event_artists := Some lineup |}.

Definition plain_listing (event : RAEvent) : RAEventListing :=
  {| listing_id := event_id event;
     listing_date := lit "2026-02-23";
     listing_event := Some event |}.

Definition venue_in (name : string) (city : jsstring) : RAVenue :=
  {| venue_id := lit "v1";
     venue_name := lit name;
     venue_address := [];
     venue_area :=
       Some {| area_id := lit "26"; area_name := city; area_country := None |} |}.

Definition artist_called (name : jsstring) : RAArtist :=
  {| artist_id := lit "a"; artist_name := name |}.

(** The end-to-end example of the specification. *)
Definition envision : RAEventListing :=
  plain_listing
    (plain_event "123" "Envision Festival"
       (Some (venue_in "Rancho La Merced" (lit "Uvita")))
       [artist_called (lit "Bob Moses"); artist_called (lit "CloZee")]).

(** A service that has all of [listings] on its first page. *)
Definition one_page (listings : list RAEventListing)
  : N -> jsstring -> jsstring -> nat -> Reply :=
  fun _ _ _ page =>
    match page with
    | 1 => Body (Some listings) (Z.of_nat (length listings))
    | _ => Body (Some []) (Z.of_nat (length listings))
    end.

(** A service with three pages of one, one and zero listings that declares
    more results than it has. *)
Definition three_pages : nat -> Reply :=
  fun page =>
    match page with
    | 1 => Body (Some [envision]) 5
    | 2 => Body (Some [envision]) 5
    | _ => Body (Some []) 5
    end.

(** A service whose second page is answered by a server error. *)
Definition failing_second_page : nat -> Reply :=
  fun page =>
    match page with
    | 1 => Body (Some [envision]) 5
    | _ => HttpFailure 503 (lit "Service Unavailable")
    end.

(** 300 code units, more than a [varchar(255)] takes. *)
Definition long_text : jsstring := repeat 33%N 300.

(** Two events at the venue "Club"; the first listing carries an area name
    that does not fit the [city] column. *)
Definition club_nights : list RAEventListing :=
  [ plain_listing
      (plain_event "1" "Night One" (Some (venue_in "Club" long_text)) []);
    plain_listing
      (plain_event "2" "Night Two" (Some (venue_in "Club" (lit "Uvita"))) []) ].

(** One event with two artists of the same slug [dj]; the name of the first
    does not fit the [name] column. *)
Definition dj_long : RAArtist := artist_called (lit "Dj" ++ long_text).

Definition dj_short : RAArtist := artist_called (lit "DJ").

Definition dj_event : RAEvent :=
  plain_event "3" "Night Three" None [dj_long; dj_short].

Definition two_djs : list RAEventListing := [plain_listing dj_event].

Definition sync_once (faults : Faults) (listings : list RAEventListing)
    (s : Store) : option (result Counters * Store) :=
  syncArea latin1Lower faults (one_page listings) (fun _ => 5%Z) 3
    (lit "Costa Rica") 26 (lit "2026-01-01") (lit "2026-04-01") s.

(** The store left by a run, when it returns. *)
Definition store_after (r : option (result Counters * Store)) : Store :=
  match r with
  | Some (_, s) => s
  | None => empty_store
  end.

Definition counters_after (r : option (result Counters * Store))
  : option Counters :=
  match r with
  | Some (Ok c, _) => Some c
  | _ => None
  end.

Definition envision_first_run := sync_once schema_faults [envision] empty_store.

Definition envision_second_run :=
  sync_once schema_faults [envision] (store_after envision_first_run).

Definition club_first_run := sync_once schema_faults club_nights empty_store.

Definition club_second_run :=
  sync_once schema_faults club_nights (store_after club_first_run).

Definition djs_first_run := sync_once schema_faults two_djs empty_store.

Definition djs_second_run :=
  sync_once schema_faults two_djs (store_after djs_first_run).

(** The numbers of venue, artist, festival, lineup and log rows. *)
Definition row_counts (s : Store) : list nat :=
  [length (venues s); length (artists s); length (festivals s);
   length (festivalLineups s); length (scrapeLogs s)].

End Scenarios.
Export Scenarios.

(** ** More of the client: pacing, and services that never finish *)

Module ClientShape.

(** The pauses of a call, in order. *)
Definition sleeps (trace : list Effect) : list N :=
  flat_map (fun e => match e with Sleep ms => [ms] | _ => [] end) trace.

(** A trace without its console lines. *)
Definition skeleton (trace : list Effect) : list Effect :=
  filter (fun e => match e with
                   | Request _ => true
                   | Sleep _ => true
                   | _ => false
                   end) trace.

(** [n] requests for consecutive pages from [page] on, with a pause of 1.5
    seconds between two of them and none before the first or after the
    last. *)
Fixpoint paced (page n : nat) : list Effect :=
  match n with
  | O => []
  | S O => [Request page]
  | S n' => Request page :: Sleep 1500 :: paced (S page) n'
  end.

(** A service that always has one more listing than it has delivered. *)
Definition endless : nat -> Reply :=
  fun page => Body (Some [envision]) (Z.of_nat page + 1).

Definition endless_pages (page n : nat) : list (list RAEventListing * Z) :=
  map (fun p => ([envision], (Z.of_nat p + 1)%Z)) (seq page n).

(** A service whose second request fails below HTTP. *)
Definition broken_second_page : nat -> Reply :=
  fun page =>
    match page with
    | 1 => Body (Some [envision]) 5
    | _ => FetchRejects (lit "fetch failed")
    end.

End ClientShape.
Export ClientShape.

(** ** More invariants of the reconciliation *)

Module MoreInvariants.

(** The [.unique()] constraints on [artists.slug] and [festivals.slug]. *)
Definition unique_artist_slugs (s : Store) : Prop :=
  NoDup (map (fun r => artists_slug (values r)) (artists s)).

Definition unique_festival_slugs (s : Store) : Prop :=
  NoDup (map (fun r => festivals_slug (values r)) (festivals s)).

(** A store that accepts every statement. *)
Definition never_refuses (faults : Faults) : Prop :=
  forall t q, faults t q = None.

Definition has_event (listing : RAEventListing) : Prop :=
  listing_event listing <> None.

(** The keys of a table. *)
Definition ids {V : Type} (table : list (Row V)) : list uuid := map (@id V) table.

(** The foreign keys of [schema.ts]: a lineup row points to a festival and
    to an artist, a festival with a venue points to a venue. *)
Definition references_hold (s : Store) : Prop :=
  (forall l, In l (festivalLineups s) ->
     In (lineups_festivalId (values l)) (ids (festivals s))
     /\ In (lineups_artistId (values l)) (ids (artists s)))
  /\ (forall f i, In f (festivals s) ->
        festivals_venueId (values f) = Some i -> In i (ids (venues s))).

(** The rows that a run added to a table. *)
Definition added {A : Type} (before after : list A) : nat :=
  length after - length before.

End MoreInvariants.
Export MoreInvariants.

(** ** The second scraper ([scraper/src/scrape-extra.ts]) *)

Module ScrapeExtra.

(** The local variables [newEvents] and [newArtists] of [rescrapeRA]. *)
Record Tally := { newEvents : nat; newArtists : nat }.

Definition no_tally : Tally := {| newEvents := 0; newArtists := 0 |}.

Definition count_new_event (t : Tally) : Tally :=
  {| newEvents := S (newEvents t); newArtists := newArtists t |}.

Definition count_new_artist (t : Tally) : Tally :=
  {| newEvents := newEvents t; newArtists := S (newArtists t) |}.

(** What reading [event.title] raises when [listing.event] is missing. *)
Definition no_title_message : jsstring :=
  lit "Cannot read properties of undefined (reading 'title')".

(** [venueData.area?.name || ""]. *)
Definition city_of (v : RAVenue) : jsstring :=
  match venue_area v with
  | Some a => area_name a
  | None => []
  end.

(** [venueData.area?.country?.name || "Costa Rica"]. *)
Definition country_of (v : RAVenue) : jsstring :=
  match venue_area v with
  | Some a =>
      match area_country a with
      | Some c =>
          match country_name c with
          | [] => lit "Costa Rica"
          | name => name
          end
      | None => lit "Costa Rica"
      end
  | None => lit "Costa Rica"
  end.

(** The values of the lineup rows of [rescrapeRA]: no start or end time. *)
Definition dated_lineup (festivalId artistId : uuid) (event : RAEvent)
  : LineupValues :=
  {| lineups_festivalId := festivalId;
     lineups_artistId := artistId;
     lineups_performanceDate := date_part (event_date event);
     lineups_startTime := None;
     lineups_endTime := None |}.

(** The row that [rescrapeRA] writes to the run log. *)
Definition rescrape_log (t : Tally) (duration : Z) : LogValues :=
  {| logs_status := lit "success";
     logs_festivalsFound := newEvents t;
     logs_artistsFound := newArtists t;
     logs_errors := [];
     logs_duration := duration |}.

Section Rescrape.

Variable unicodeLower : N -> jsstring.
Variable faults : Faults.

(** [upsertVenue(name, city, country)] of [scrape-extra.ts]. *)
Definition upsertVenue (name city country : jsstring) : DB uuid :=
  existing <- selectVenueByName faults name ;;
  match existing with
  | Some r => ret (id r)
  | None =>
      insertVenue faults
        {| venues_name := name; venues_city := Some city;
           venues_country := Some country; venues_address := None |}
  end.

(** [if (venueData?.name) venueId = await upsertVenue(...)]. *)
Definition venueOf (event : RAEvent) : DB (option uuid) :=
  match event_venue event with
  | None => ret None
  | Some v =>
      match venue_name v with
      | [] => ret None
      | name =>
          venueId <- upsertVenue name (city_of v) (country_of v) ;;
          ret (Some venueId)
      end
  end.

Definition slug_of_event (event : RAEvent) : jsstring :=
  slugify_scrape_extra unicodeLower (event_title event)
  ++ lit "-" ++ event_id event.

Definition slug_of_artist (artist : RAArtist) : jsstring :=
  slugify_scrape_extra unicodeLower (artist_name artist).

Definition new_artist (artist : RAArtist) : ArtistValues :=
  {| artists_name := artist_name artist;
     artists_slug := slug_of_artist artist;
     artists_raUrl := lit "https://ra.co/dj/" ++ slug_of_artist artist |}.

(** The state of the loops of [rescrapeRA]: what the turn did (returned or
    threw), the local counters and the store.  The counters and the store
    keep what they had when something threw. *)
Definition Turn : Type := result unit * Tally * Store.

(** One turn of the loop over [event.artists || []]. *)
Definition artistTurn (festivalId : uuid) (event : RAEvent)
    (artist : RAArtist) (t : Tally) (s : Store) : Turn :=
  match selectArtistBySlug faults (slug_of_artist artist) s with
  | (Throw message, s1) => (Throw message, t, s1)
  | (Ok (Some r), s1) =>
      match insertLineupOnConflictDoNothing faults
              (dated_lineup festivalId (id r) event) s1 with
      | (Throw message, s2) => (Throw message, t, s2)
      | (Ok _, s2) => (Ok tt, t, s2)
      end
  | (Ok None, s1) =>
      match insertArtist faults (new_artist artist) s1 with
      | (Throw message, s2) => (Throw message, t, s2)
      | (Ok artistId, s2) =>
          match insertLineupOnConflictDoNothing faults
                  (dated_lineup festivalId artistId event) s2 with
          | (Throw message, s3) => (Throw message, count_new_artist t, s3)
          | (Ok _, s3) => (Ok tt, count_new_artist t, s3)
          end
      end
  end.

(** The loop over the artists: nothing catches inside it, so it ends at the
    first turn that throws. *)
Fixpoint artistTurns (festivalId : uuid) (event : RAEvent)
    (l : list RAArtist) (t : Tally) (s : Store) : Turn :=
  match l with
  | [] => (Ok tt, t, s)
  | artist :: rest =>
      match artistTurn festivalId event artist t s with
      | (Throw message, t1, s1) => (Throw message, t1, s1)
      | (Ok _, t1, s1) => artistTurns festivalId event rest t1 s1
      end
  end.

(** One turn of the loop over the listings. *)
Definition listingTurn (listing : RAEventListing) (t : Tally) (s : Store)
  : Turn :=
  match listing_event listing with
  | None => (Throw no_title_message, t, s)
  | Some event =>
      match selectFestivalBySlug faults (slug_of_event event) s with
      | (Throw message, s1) => (Throw message, t, s1)
      | (Ok (Some _), s1) => (Ok tt, t, s1)
      | (Ok None, s1) =>
          match venueOf event s1 with
          | (Throw message, s2) => (Throw message, t, s2)
          | (Ok venueId, s2) =>
              match insertFestival faults
                      (festival_values event (slug_of_event event) venueId)
                      s2 with
              | (Throw message, s3) => (Throw message, t, s3)
              | (Ok inserted, s3) =>
                  artistTurns inserted event (artists_of event)
                    (count_new_event t) s3
              end
          end
      end
  end.

Fixpoint listingTurns (listings : list RAEventListing) (t : Tally)
    (s : Store) : Turn :=
  match listings with
  | [] => (Ok tt, t, s)
  | listing :: rest =>
      match listingTurn listing t s with
      | (Throw message, t1, s1) => (Throw message, t1, s1)
      | (Ok _, t1, s1) => listingTurns rest t1 s1
      end
  end.

(** The [try] block of [rescrapeRA], from the outcome of [fetchRAEvents]. *)
Definition tried (fetched : result (list RAEventListing)) (s : Store) : Turn :=
  match fetched with
  | Throw message => (Throw message, no_tally, s)
  | Ok listings => listingTurns listings no_tally s
  end.

Section Environment.

Variable network : N -> jsstring -> jsstring -> nat -> Reply.
Variable duration : Z.
Variable fuel : nat.

(** [rescrapeRA]; the date window is read from the system clock.  The
    [catch] prints the message and goes on to the log row; [None] when the
    pagination does not come to an end. *)
Definition rescrapeRA (dateGte dateLte : jsstring) (s : Store)
  : option (result nat * Store) :=
  match fetchRAEvents (network 26%N dateGte dateLte) fuel with
  | None => None
  | Some (fetched, _) =>
      let '(_, t, s1) := tried fetched s in
      match insertScrapeLog faults (rescrape_log t duration) s1 with
      | (Throw message, s2) => Some (Throw message, s2)
      | (Ok _, s2) => Some (Ok (newEvents t), s2)
      end
  end.

End Environment.

End Rescrape.

(** The festival of every listing is in the table already. *)
Definition known (unicodeLower : N -> jsstring) (s : Store)
    (listing : RAEventListing) : Prop :=
  exists event r,
    listing_event listing = Some event
    /\ find (festival_slugged (slug_of_event unicodeLower event)) (festivals s)
       = Some r.

End ScrapeExtra.

(** ** More scenarios *)

Module MoreScenarios.

(** What [fetchRAEvents] does against [three_pages]. *)
Definition three_pages_effects : list Effect :=
  [Request 1; ConsoleLog (lit "  Page 1: 1 events (total: 1)"); Sleep 1500;
   Request 2; ConsoleLog (lit "  Page 2: 1 events (total: 2)"); Sleep 1500;
   Request 3].

(** A service with one listing on its first page and nothing after it. *)
Definition ending_second_page : nat -> Reply :=
  fun page =>
    match page with
    | 1 => Body (Some [envision]) 5
    | _ => Body (Some []) 5
    end.

(** The same service for every area and date window. *)
Definition everywhere (server : nat -> Reply)
  : N -> jsstring -> jsstring -> nat -> Reply :=
  fun _ _ _ => server.

(** A store that accepts everything. *)
Definition no_faults : Faults := fun _ _ => None.

(** The two listings of [club_nights]. *)
Definition night_one : RAEventListing :=
  plain_listing
    (plain_event "1" "Night One" (Some (venue_in "Club" long_text)) []).

Definition night_two : RAEventListing :=
  plain_listing
    (plain_event "2" "Night Two" (Some (venue_in "Club" (lit "Uvita"))) []).

Definition sync_with (faults : Faults)
    (network : N -> jsstring -> jsstring -> nat -> Reply) (s : Store)
  : option (result Counters * Store) :=
  syncArea latin1Lower faults network (fun _ => 5%Z) 5
    (lit "Costa Rica") 26 (lit "2026-01-01") (lit "2026-04-01") s.

Definition rescrape_once (faults : Faults) (listings : list RAEventListing)
    (s : Store) : option (result nat * Store) :=
  ScrapeExtra.rescrapeRA latin1Lower faults (one_page listings) 5%Z 3
    (lit "2026-01-01") (lit "2026-04-01") s.

(** The store left by a call of [rescrapeRA], when it returns. *)
Definition rescraped (r : option (result nat * Store)) : Store :=
  match r with
  | Some (_, s) => s
  | None => empty_store
  end.


(** The same artist, written in two ways. *)
Definition bob_moses : RAArtist := artist_called (lit "Bob Moses").

Definition bob_moses_shouted : RAArtist := artist_called (lit "BOB  MOSES!").

(** The store after the first of them has been reconciled. *)
Definition with_bob_moses : Store :=
  snd (upsertArtist latin1Lower no_faults bob_moses empty_store).

(** Two listings of the event 7 whose titles have the same slug. *)
Definition spaced_title : RAEvent := plain_event "7" "Open  Air" None [].

Definition hyphened_title : RAEvent := plain_event "7" "open-air" None [].


(** An event whose title, and so whose slug, has 300 code units. *)
Definition oversized_event : RAEvent :=
  {| event_id := lit "9";
     event_title := repeat 97%N 300;
     event_date := None;
     event_startTime := None;
     event_endTime := None;
     event_contentUrl := lit "/events/9";
     event_attending := 0%Z;
     event_images := None;
     event_venue := None;
     event_artists := None |}.

Definition oversized : RAEventListing := plain_listing oversized_event.

(** The venue "Club", once in Uvita and once with an area name that does
    not fit the [city] column. *)
Definition club_in_uvita : RAVenue := venue_in "Club" (lit "Uvita").

Definition club_elsewhere : RAVenue := venue_in "Club" long_text.

Definition uvita_night : RAEvent :=
  plain_event "2" "Night Two" (Some club_in_uvita) [].

Definition other_night : RAEvent :=
  plain_event "1" "Night One" (Some club_elsewhere) [].

Definition with_club : Store :=
  snd (Sync.upsertVenue no_faults uvita_night empty_store).

End MoreScenarios.
Export MoreScenarios.

(** ** More about slugs *)

Module SlugShape.

(** Small letters, digits and single hyphens, with no hyphen at either
    end. *)
Definition well_formed_slug (s : jsstring) : bool :=
  forallb slug_unit s && no_hyphen_pair s
  && negb (starts_with_hyphen s) && negb (ends_with_hyphen s).

(** The text has a code unit in [[a-z0-9]]. *)
Definition has_az09 (s : jsstring) : bool := existsb is_az09 s.

Definition hyphen_free (s : jsstring) : bool :=
  forallb (fun c => negb (N.eqb c hyphen)) s.

End SlugShape.
Export SlugShape.

(** ** The clip clean-up ([scraper/src/manual-enrich.ts], step 4) *)

Module ManualEnrich.

(** The class [\s] of the regular expressions of the language: the white
    space and the line terminators. *)
Definition is_space (c : N) : bool :=
  ((c =? 9) || (c =? 10) || (c =? 11) || (c =? 12) || (c =? 13) || (c =? 32)
   || (c =? 160) || (c =? 5760) || (8192 <=? c) && (c <=? 8202)
   || (c =? 8232) || (c =? 8233) || (c =? 8239) || (c =? 8287)
   || (c =? 12288) || (c =? 65279))%N.

(** [s.split(/\s+/)]: the pieces between the maximal runs of white space;
    a run at either end leaves an empty piece there.  [inrun] tells that the
    previous code unit belonged to a run. *)
Fixpoint pieces (inrun : bool) (s : jsstring) : list jsstring :=
  match s with
  | [] => [[]]
  | c :: r =>
      if is_space c then
        if inrun then pieces true r else [] :: pieces true r
      else
        match pieces false r with
        | w :: ws => (c :: w) :: ws
        | [] => [[c]]
        end
  end.

Definition split_spaces (s : jsstring) : list jsstring := pieces false s.

Fixpoint starts_with (needle hay : jsstring) : bool :=
  match needle, hay with
  | [], _ => true
  | n :: ns, h :: hs => N.eqb n h && starts_with ns hs
  | _ :: _, [] => false
  end.

(** [hay.includes(needle)]. *)
Fixpoint includes (hay needle : jsstring) : bool :=
  starts_with needle hay
  || match hay with
     | [] => false
     | _ :: r => includes r needle
     end.

Section Clips.

(** The numbers of a clip are carried along and never read. *)
Variable number : Type.

Record Clip := {
  clip_sourceUrl : jsstring;
  clip_startSec : number;
  clip_endSec : number;
  clip_title : option jsstring
}.

Variable unicodeLower : N -> jsstring.

(** [artistNameLower.split(/\s+/).filter((w) => w.length > 2)]. *)
Definition nameWords (artistNameLower : jsstring) : list jsstring :=
  filter (fun w => 2 <? length w) (split_spaces artistNameLower).

(** [(clip.title || "").toLowerCase()]. *)
Definition titleLower (clip : Clip) : jsstring :=
  toLowerCase unicodeLower
    match clip_title clip with
    | Some title => title
    | None => []
    end.

(** The callback of [clips.filter]. *)
Definition valid (artistName : jsstring) (clip : Clip) : bool :=
  let artistNameLower := toLowerCase unicodeLower artistName in
  if includes (titleLower clip) artistNameLower then true
  else if existsb (fun word => includes (titleLower clip) word)
            (nameWords artistNameLower)
  then true
  else false.

Definition validClips (artistName : jsstring) (clips : list Clip)
  : list Clip :=
  filter (valid artistName) clips.

(** What is written back to the spotlight, if anything:
    [if (validClips.length !== clips.length)]. *)
Definition cleaned (artistName : jsstring) (clips : list Clip)
  : option (list Clip) :=
  match clips with
  | [] => None
  | _ =>
      if Nat.eqb (length (validClips artistName clips)) (length clips)
      then None
      else Some (validClips artistName clips)
  end.

End Clips.

End ManualEnrich.

(** ** Clips *)

Module ClipScenarios.

(** A clip without a title. *)
Definition untitled : ManualEnrich.Clip nat :=
  {| ManualEnrich.clip_sourceUrl := lit "https://www.youtube.com/watch?v=x";
     ManualEnrich.clip_startSec := 0;
     ManualEnrich.clip_endSec := 30;
     ManualEnrich.clip_title := None |}.

End ClipScenarios.
Export ClipScenarios.

(** ** Decimal numerals *)

Module Numerals.

Definition is_digit (c : N) : bool := ((48 <=? c) && (c <=? 57))%N.

(** The number that a string of decimal digits denotes. *)
Definition decimal_value (digits : jsstring) : N :=
  fold_left (fun acc c => (10 * acc + (c - 48))%N) digits 0%N.

(** A decimal numeral as the language prints an integer: digits only, at
    least one, and no leading zero but for [0] itself. *)
Definition is_numeral (digits : jsstring) : bool :=
  forallb is_digit digits
  && match digits with
     | [] => false
     | [_] => true
     | c :: _ => negb (c =? 48)%N
     end.

End Numerals.
Export Numerals.

(** ** A store that cannot hold U+0000 *)

Module NulStore.

(** The text and [jsonb] values of the database cannot hold the code unit
    U+0000. *)
Definition has_nul (x : jsstring) : bool := existsb (N.eqb 0) x.

Definition has_nul_opt (x : option jsstring) : bool :=
  match x with Some v => has_nul v | None => false end.

Definition nul_in_text : jsstring :=
  lit "invalid byte sequence for encoding UTF8: 0x00".

Definition nul_in_jsonb : jsstring :=
  lit "unsupported Unicode escape sequence".

(** A store that refuses exactly the statements that carry U+0000. *)
Definition nul_faults : Faults :=
  fun _ q =>
    match q with
    | SelectVenueByName name =>
        if has_nul name then Some nul_in_text else None
    | InsertVenue v =>
        if has_nul (venues_name v) || has_nul_opt (venues_city v)
           || has_nul_opt (venues_country v) || has_nul_opt (venues_address v)
        then Some nul_in_text
        else None
    | SelectArtistBySlug slug =>
        if has_nul slug then Some nul_in_text else None
    | InsertArtist v =>
        if has_nul (artists_name v) || has_nul (artists_slug v)
           || has_nul (artists_raUrl v)
        then Some nul_in_text
        else None
    | SelectFestivalBySlug slug =>
        if has_nul slug then Some nul_in_text else None
    | InsertFestival v =>
        if has_nul (festivals_name v) || has_nul (festivals_slug v)
           || has_nul_opt (festivals_websiteUrl v)
           || has_nul_opt (festivals_imageUrl v)
        then Some nul_in_text
        else if has_nul (fst (festivals_metadata v))
        then Some nul_in_jsonb
        else None
    | InsertLineup _ => None
    | InsertScrapeLog v =>
        if existsb has_nul (logs_errors v) then Some nul_in_jsonb else None
    end.

(** An artist whose name holds U+0000, alone on the bill of an event. *)
Definition nul_artist : RAArtist := artist_called (lit "DJ" ++ [0%N]).

Definition nul_night : RAEventListing :=
  plain_listing (plain_event "4" "Night Four" None [nul_artist]).

Definition nul_run : option (result (nat * nat) * Store) :=
  main latin1Lower nul_faults (one_page [nul_night]) (fun _ => 5%Z) 3
    (lit "2026-01-01") (lit "2026-04-01") empty_store.

End NulStore.
Export NulStore.

(** * Properties *)

Unset Implicit Arguments.

(** ** Strings *)

Lemma jseqb_refl (a : jsstring) : jseqb a a = true.
Proof.
  induction a as [|x a IH]; simpl; [reflexivity|].
  now rewrite N.eqb_refl, IH.
Qed.

Lemma jseqb_eq (a b : jsstring) : jseqb a b = true <-> a = b.
Proof.
  split.
  - revert b; induction a as [|x a IH]; intros [|y b]; simpl; try discriminate; auto.
    intros H. apply andb_true_iff in H as [Hx Hr].
    apply N.eqb_eq in Hx. subst. f_equal. now apply IH.
  - intros ->. apply jseqb_refl.
Qed.

Example of_N_404 : of_N 404 = lit "404".
Proof. reflexivity. Qed.

Example of_N_0 : of_N 0 = lit "0".
Proof. reflexivity. Qed.

Example date_part_of_timestamp :
  date_part (Some (lit "2026-02-23T00:00:00.000")) = Some (lit "2026-02-23").
Proof. reflexivity. Qed.

Example time_part_of_timestamp :
  time_part (Some (lit "2026-02-23T12:00:00.000")) = Some (lit "12:00").
Proof. reflexivity. Qed.

Example time_part_without_T : time_part (Some (lit "noon")) = None.
Proof. reflexivity. Qed.

(** ** Numbers in template literals *)

Module NumeralFacts.

Lemma decimal_value_snoc (d : jsstring) (c : N) :
  decimal_value (d ++ [c]) = (10 * decimal_value d + (c - 48))%N.
Proof. unfold decimal_value. now rewrite fold_left_app. Qed.

Lemma digits_fuel_spec (f : nat) :
  forall (n : N) (acc : jsstring),
    (n < 2 ^ N.of_nat (S f))%N ->
    exists d,
      digits_fuel (S f) n acc = d ++ acc
      /\ decimal_value d = n
      /\ forallb is_digit d = true
      /\ match d with
         | [] => False
         | c :: r => c = 48%N -> n = 0%N /\ r = []
         end.
Proof.
  induction f as [|f IH]; intros n acc Hn.
  - change (2 ^ N.of_nat 1)%N with 2%N in Hn.
    cbn [digits_fuel]. replace (n <? 10)%N with true
      by (symmetry; apply N.ltb_lt; lia).
    exists [(48 + n mod 10)%N]. rewrite (N.mod_small n 10) by lia.
    split; [reflexivity|]. split.
    { unfold decimal_value. cbn [fold_left]. lia. }
    split.
    { cbn [forallb]. unfold is_digit. rewrite andb_true_r.
      apply andb_true_iff. split; apply N.leb_le; lia. }
    intros H. split; [lia | reflexivity].
  - change (digits_fuel (S (S f)) n acc)
      with (if (n <? 10)%N then (48 + n mod 10)%N :: acc
            else digits_fuel (S f) (n / 10) ((48 + n mod 10)%N :: acc)).
    pose proof (N.mod_lt n 10 ltac:(lia)) as Hm.
    pose proof (N.div_mod n 10 ltac:(lia)) as Hd.
    assert (Hx : is_digit (48 + n mod 10) = true).
    { unfold is_digit. clear - Hm. revert Hm.
      generalize (n mod 10)%N. intros m Hm.
      apply andb_true_iff. split; apply N.leb_le; lia. }
    destruct (N.ltb_spec n 10) as [Hlt|Hge].
    + exists [(48 + n mod 10)%N]. rewrite (N.mod_small n 10) by lia.
      rewrite (N.mod_small n 10) in Hx by lia.
      split; [reflexivity|]. split.
      { unfold decimal_value. cbn [fold_left]. lia. }
      split; [cbn [forallb]; now rewrite Hx|].
      intros H. split; [lia | reflexivity].
    + assert (Hq : (n / 10 < 2 ^ N.of_nat (S f))%N).
      { apply N.Div0.div_lt_upper_bound.
        rewrite (Nat2N.inj_succ (S f)), N.pow_succ_r' in Hn.
        revert Hn. generalize (2 ^ N.of_nat (S f))%N. intros p Hn. lia. }
      destruct (IH (n / 10)%N ((48 + n mod 10)%N :: acc) Hq)
        as (d & E & V & D & H).
      exists (d ++ [(48 + n mod 10)%N]). rewrite <- app_assoc. cbn [app].
      split; [exact E|]. split.
      { rewrite decimal_value_snoc, V.
        replace (48 + n mod 10 - 48)%N with (n mod 10)%N
          by (generalize (n mod 10)%N; intros m; lia).
        symmetry. exact Hd. }
      split.
      { rewrite forallb_app, D. cbn [forallb]. now rewrite Hx. }
      destruct d as [|c r]; [contradiction|]. cbn [app].
      intros Hc. destruct (H Hc) as [H0 _].
      assert (Hone : (1 <= n / 10)%N)
        by (apply N.div_le_lower_bound; [discriminate | exact Hge]).
      rewrite H0 in Hone. exfalso. revert Hone. apply N.lt_nge. reflexivity.
Qed.

(** [of_N] prints the decimal numeral of its argument. *)
Lemma of_N_numeral (n : N) :
  is_numeral (of_N n) = true /\ decimal_value (of_N n) = n.
Proof.
  unfold of_N.
  assert (Hn : (n < 2 ^ N.of_nat (S (N.to_nat (N.log2 n))))%N).
  { rewrite Nat2N.inj_succ, N2Nat.id.
    destruct n as [|p]; [reflexivity|].
    apply N.log2_spec. reflexivity. }
  destruct (digits_fuel_spec _ n [] Hn) as (d & E & V & D & H).
  rewrite E, app_nil_r. split; [|exact V].
  unfold is_numeral. rewrite D. cbn [andb].
  destruct d as [|c [|c' r]]; [contradiction | reflexivity|].
  apply negb_true_iff, N.eqb_neq. intros Hc.
  destruct (H Hc) as [_ Hr]. discriminate Hr.
Qed.

End NumeralFacts.

(** ** The slug normalisation *)

Module SlugFacts.

Example slugify_envision :
  slugify latin1Lower (lit "Envision Festival 2026!")
  = lit "envision-festival-2026".
Proof. reflexivity. Qed.

Section AnyTables.

Variable unicodeLower : N -> jsstring.
Variable unicodeDecomp : N -> jsstring.

(** [sync.ts] and [scrape-extra.ts] carry the same text. *)
Lemma slugify_scrape_extra_same (text : jsstring) :
  slugify_scrape_extra unicodeLower text = slugify unicodeLower text.
Proof. reflexivity. Qed.

Lemma lower_unit_ascii (c : N) :
  (c < 128)%N -> Forall (fun d => (d < 128)%N) (lower_unit unicodeLower c).
Proof.
  intros Hc. unfold lower_unit.
  destruct ((65 <=? c) && (c <=? 90))%N eqn:E.
  - apply andb_true_iff in E as [_ E]. apply N.leb_le in E.
    constructor; [lia | constructor].
  - apply N.ltb_lt in Hc. rewrite Hc. apply N.ltb_lt in Hc.
    constructor; [assumption | constructor].
Qed.

Lemma toLowerCase_ascii (s : jsstring) :
  ascii s -> ascii (toLowerCase unicodeLower s).
Proof.
  unfold ascii, toLowerCase. induction 1 as [|c s Hc Hs IH]; simpl.
  - constructor.
  - apply Forall_app. split; [now apply lower_unit_ascii | exact IH].
Qed.

Lemma normalizeNFD_ascii (s : jsstring) :
  ascii s -> normalizeNFD unicodeDecomp s = s.
Proof.
  unfold normalizeNFD. induction 1 as [|c s Hc Hs IH]; simpl; [reflexivity|].
  unfold decomp_unit at 1. apply N.ltb_lt in Hc. rewrite Hc. simpl. now rewrite IH.
Qed.

Lemma strip_marks_ascii (s : jsstring) : ascii s -> strip_marks s = s.
Proof.
  unfold strip_marks. induction 1 as [|c s Hc Hs IH]; simpl; [reflexivity|].
  assert (E : is_combining_mark c = false).
  { unfold is_combining_mark.
    replace (768 <=? c)%N with false by (symmetry; apply N.leb_gt; lia).
    reflexivity. }
  rewrite E. simpl. now rewrite IH.
Qed.

(** On ASCII text the three implementations agree. *)
Lemma slugify_manual_enrich_ascii (text : jsstring) :
  ascii text ->
  slugify_manual_enrich unicodeLower unicodeDecomp text
  = slugify unicodeLower text.
Proof.
  intros H. unfold slugify_manual_enrich, slugify.
  pose proof (toLowerCase_ascii _ H) as HL.
  now rewrite (normalizeNFD_ascii _ HL), (strip_marks_ascii _ HL).
Qed.

Lemma slugify_ignores_case (a b : jsstring) :
  same_modulo_case unicodeLower a b -> slugify unicodeLower a = slugify unicodeLower b.
Proof.
  intros H. unfold slugify. f_equal. f_equal.
  unfold toLowerCase. induction H as [|x y a b Hxy _ IH]; simpl; congruence.
Qed.

Lemma collapse_runs_alphabet (b : bool) (s : jsstring) :
  forallb slug_unit (collapse_runs b s) = true.
Proof.
  revert b. induction s as [|c s IH]; intros b; simpl; [reflexivity|].
  destruct (is_az09 c) eqn:E.
  - simpl. unfold slug_unit at 1. rewrite E. simpl. apply IH.
  - destruct b; simpl; apply IH.
Qed.

Lemma drop_trailing_hyphen_alphabet (s : jsstring) :
  forallb slug_unit s = true -> forallb slug_unit (drop_trailing_hyphen s) = true.
Proof.
  induction s as [|c s IH]; [reflexivity|].
  intros H. simpl in H. apply andb_true_iff in H as [Hc Hs].
  destruct s as [|d s].
  - simpl. destruct (N.eqb c hyphen); simpl; [reflexivity | now rewrite Hc].
  - change (forallb slug_unit (c :: drop_trailing_hyphen (d :: s)) = true).
    simpl forallb at 1. rewrite Hc. simpl. now apply IH.
Qed.

Lemma slugify_alphabet (text : jsstring) :
  forallb slug_unit (slugify unicodeLower text) = true.
Proof.
  unfold slugify, trim_hyphens. apply drop_trailing_hyphen_alphabet.
  pose proof (collapse_runs_alphabet false (toLowerCase unicodeLower text)) as H.
  destruct (collapse_runs false (toLowerCase unicodeLower text)) as [|c r];
    [reflexivity|].
  simpl. simpl in H. apply andb_true_iff in H as [Hc Hr].
  destruct (N.eqb c hyphen); [exact Hr | simpl; now rewrite Hc].
Qed.

Lemma collapse_runs_shape (b : bool) (s : jsstring) :
  no_hyphen_pair (collapse_runs b s) = true
  /\ (b = true -> starts_with_hyphen (collapse_runs b s) = false).
Proof.
  revert b. induction s as [|c s IH]; intros b; simpl; [auto|].
  destruct (is_az09 c) eqn:E.
  - assert (Hc : N.eqb c hyphen = false).
    { destruct (N.eqb_spec c hyphen) as [->|]; [discriminate E | reflexivity]. }
    simpl. rewrite Hc. simpl. split; [apply IH | reflexivity].
  - destruct b.
    + apply IH.
    + simpl. destruct (IH true) as [H1 H2]. rewrite H2 by reflexivity.
      simpl. split; [exact H1 | discriminate].
Qed.

Lemma drop_leading_hyphen_shape (s : jsstring) :
  no_hyphen_pair s = true ->
  no_hyphen_pair (drop_leading_hyphen s) = true
  /\ starts_with_hyphen (drop_leading_hyphen s) = false.
Proof.
  destruct s as [|c r]; simpl; [auto|].
  intros H. apply andb_true_iff in H as [H1 H2].
  destruct (N.eqb c hyphen) eqn:E; simpl in *.
  - split; [exact H2|]. now destruct (starts_with_hyphen r).
  - rewrite E, H2. auto.
Qed.

Lemma drop_trailing_hyphen_shape (s : jsstring) :
  no_hyphen_pair s = true ->
  no_hyphen_pair (drop_trailing_hyphen s) = true
  /\ ends_with_hyphen (drop_trailing_hyphen s) = false
  /\ (starts_with_hyphen s = false ->
      starts_with_hyphen (drop_trailing_hyphen s) = false).
Proof.
  induction s as [|c s IH]; [simpl; auto|].
  intros H. simpl in H. apply andb_true_iff in H as [H1 H2].
  destruct s as [|d s].
  - simpl. destruct (N.eqb c hyphen) eqn:E; simpl; rewrite ?E; auto.
  - specialize (IH H2). destruct IH as (I1 & I2 & I3).
    change (drop_trailing_hyphen (c :: d :: s))
      with (c :: drop_trailing_hyphen (d :: s)).
    destruct (drop_trailing_hyphen (d :: s)) as [|e t] eqn:D.
    + assert (Hd : N.eqb d hyphen = true).
      { destruct s; simpl in D; [|discriminate D].
        destruct (N.eqb d hyphen); [reflexivity | discriminate D]. }
      simpl in H1. rewrite Hd, andb_true_r in H1.
      apply negb_true_iff in H1. simpl. rewrite H1. auto.
    + split; [|split].
      * simpl. simpl in I1. rewrite I1, andb_true_r.
        apply negb_true_iff. apply andb_false_iff.
        destruct (N.eqb c hyphen) eqn:Ec; [right | now left].
        simpl in H1. apply negb_true_iff in H1.
        simpl in I3. apply I3, H1.
      * exact I2.
      * simpl. auto.
Qed.

(** The shape of every slug of [sync.ts]: small ASCII letters, digits and
    single hyphens, with no hyphen at either end. *)
Lemma slugify_shape (text : jsstring) :
  forallb slug_unit (slugify unicodeLower text) = true
  /\ no_hyphen_pair (slugify unicodeLower text) = true
  /\ starts_with_hyphen (slugify unicodeLower text) = false
  /\ ends_with_hyphen (slugify unicodeLower text) = false.
Proof.
  split; [apply slugify_alphabet|].
  unfold slugify, trim_hyphens.
  destruct (collapse_runs_shape false (toLowerCase unicodeLower text)) as [H _].
  destruct (drop_leading_hyphen_shape _ H) as [H1 H2].
  destruct (drop_trailing_hyphen_shape _ H1) as (H3 & H4 & H5).
  auto.
Qed.

Lemma az09_not_hyphen (c : N) : is_az09 c = true -> N.eqb c hyphen = false.
Proof.
  intros E. destruct (N.eqb_spec c hyphen) as [->|]; [discriminate E | reflexivity].
Qed.

Lemma drop_leading_restarts (s : jsstring) :
  drop_leading_hyphen (collapse_runs false s) = collapse_runs true s.
Proof.
  destruct s as [|c r]; [reflexivity|]. simpl.
  destruct (is_az09 c) eqn:E; simpl.
  - now rewrite (az09_not_hyphen _ E).
  - reflexivity.
Qed.

Lemma no_words_nothing_left (s : jsstring) :
  collapse_runs true s = [] <-> slug_words s = [].
Proof.
  induction s as [|c r IH]; [tauto|]. simpl.
  destruct (is_az09 c) eqn:E; [|exact IH].
  split; [discriminate|].
  destruct r as [|d r']; [discriminate|].
  destruct (is_az09 d); [|discriminate].
  destruct (slug_words (d :: r')); discriminate.
Qed.

Lemma join_hyphen_grow (c : N) (w : jsstring) (ws : list jsstring) :
  join_hyphen ((c :: w) :: ws) = c :: join_hyphen (w :: ws).
Proof. destruct ws; reflexivity. Qed.

Lemma collapse_runs_joins_words (s : jsstring) :
  drop_trailing_hyphen (collapse_runs true s) = join_hyphen (slug_words s).
Proof.
  induction s as [|c r IH]; [reflexivity|].
  cbn [collapse_runs slug_words].
  destruct (is_az09 c) eqn:Ec; [|exact IH].
  pose proof (az09_not_hyphen _ Ec) as Hc.
  destruct r as [|d r'].
  - simpl. now rewrite Hc.
  - cbn [collapse_runs] in *. destruct (is_az09 d) eqn:Ed.
    + destruct (slug_words (d :: r')) as [|w ws] eqn:W.
      { apply no_words_nothing_left in W. cbn [collapse_runs] in W.
        rewrite Ed in W. discriminate W. }
      rewrite join_hyphen_grow, <- IH. reflexivity.
    + destruct (no_words_nothing_left r') as [N1 N2].
      change (slug_words (d :: r')) with
        (if is_az09 d then
           match r' with
           | e :: _ =>
               if is_az09 e then
                 match slug_words r' with
                 | w :: ws => (d :: w) :: ws
                 | [] => [[d]]
                 end
               else [d] :: slug_words r'
           | [] => [[d]]
           end
         else slug_words r') in *.
      rewrite Ed in *.
      destruct (collapse_runs true r') as [|y Y] eqn:Y0.
      * rewrite (N1 eq_refl). reflexivity.
      * destruct (slug_words r') as [|w ws] eqn:W;
          [specialize (N2 eq_refl); discriminate N2|].
        change (join_hyphen ([c] :: w :: ws))
          with (c :: hyphen :: join_hyphen (w :: ws)).
        rewrite <- IH. reflexivity.
Qed.

(** [manual-enrich.ts] joins the words of the text once it is decomposed and
    rid of its combining marks. *)
Lemma slugify_manual_enrich_joins_words (name : jsstring) :
  slugify_manual_enrich unicodeLower unicodeDecomp name
  = join_hyphen
      (slug_words
         (strip_marks (normalizeNFD unicodeDecomp (toLowerCase unicodeLower name)))).
Proof.
  unfold slugify_manual_enrich, trim_hyphens.
  now rewrite drop_leading_restarts, collapse_runs_joins_words.
Qed.

(** The code of [sync.ts] computes the slug of the specification, but for
    the diacritics. *)
Lemma slugify_joins_words (text : jsstring) :
  slugify unicodeLower text = slug_of_words unicodeLower text.
Proof.
  unfold slugify, slug_of_words, trim_hyphens.
  now rewrite drop_leading_restarts, collapse_runs_joins_words.
Qed.

End AnyTables.

(** C2.  [slugify] of [sync.ts] on two names that differ by one diacritic:
    the accented letter is outside [[a-z0-9]] and is replaced by a hyphen
    (which is then trimmed) instead of being reduced to its base letter, so
    the two names get different slugs; [slugify] of [manual-enrich.ts] gives
    both the same slug. *)
Theorem slugify_keeps_diacritics_apart :
  slugify latin1Lower cafe_accented = lit "caf"
  /\ slugify latin1Lower (lit "Cafe") = lit "cafe"
  /\ slugify latin1Lower cafe_accented <> slugify latin1Lower (lit "Cafe")
  /\ slugify_manual_enrich latin1Lower latin1Decomp cafe_accented
     = slugify_manual_enrich latin1Lower latin1Decomp (lit "Cafe").
Proof.
  repeat split; try reflexivity.
  vm_compute. discriminate.
Qed.

(** C9.  The implementations of [slugify] in [sync.ts] (and
    [scrape-extra.ts]) and in [manual-enrich.ts] return different slugs for a
    name with an accented letter. *)
Theorem slugify_implementations_disagree :
  slugify latin1Lower cafe_accented = lit "caf"
  /\ slugify_scrape_extra latin1Lower cafe_accented = lit "caf"
  /\ slugify_manual_enrich latin1Lower latin1Decomp cafe_accented = lit "cafe"
  /\ slugify latin1Lower cafe_accented
     <> slugify_manual_enrich latin1Lower latin1Decomp cafe_accented.
Proof.
  repeat split; try reflexivity.
  vm_compute. discriminate.
Qed.

End SlugFacts.

(** ** The paginating client *)

Module ClientFacts.

Lemma requests_app (a b : list Effect) :
  requests (a ++ b) = requests a ++ requests b.
Proof. unfold requests. apply flat_map_app. Qed.

Section AnyServer.

Variable server : nat -> Reply.

(** While pages come back non-empty and below their declared total, the
    loop goes on to the next page. *)
Lemma fetch_loop_advances (pages : list (list RAEventListing * Z)) :
  forall page allEvents trace fuel,
    advances server page (length allEvents) pages ->
    fetch_loop server (length pages + fuel) page allEvents trace
    = fetch_loop server fuel (length pages + page)
        (allEvents ++ concat (map fst pages))
        (trace ++ pages_trace page (length allEvents) pages).
Proof.
  induction pages as [|[listings total] rest IH];
    intros page allEvents trace fuel Hadv.
  - simpl. now rewrite !app_nil_r.
  - destruct Hadv as (Hsrv & Hne & Hlt & Hrest).
    cbn [length Nat.add fetch_loop]. rewrite Hsrv.
    destruct listings as [|l ls]; [contradiction|].
    rewrite length_app.
    replace (Z.of_nat (length allEvents + length (l :: ls)) >=? total)%Z
      with false by (symmetry; rewrite Z.geb_leb; apply Z.leb_gt; exact Hlt).
    rewrite <- length_app in Hrest.
    rewrite (IH (S page) (allEvents ++ l :: ls) _ fuel Hrest).
    rewrite Nat.add_succ_r. cbn [map fst concat pages_trace].
    rewrite length_app. rewrite <- !app_assoc. reflexivity.
Qed.

(** Once some page comes back empty, the loop ends at that page or before;
    what it returns is what the pages it asked for carried, in order. *)
Lemma fetch_loop_reaches_empty_page (fuel : nat) :
  forall d page allEvents trace,
    zero_items (server (page + d)) -> d < fuel ->
    exists out tr n,
      fetch_loop server fuel page allEvents trace = Some (out, trace ++ tr)
      /\ 1 <= n <= S d
      /\ requests tr = seq page n
      /\ (forall evs, out = Ok evs ->
          evs = allEvents ++ concat (map (served server) (seq page n)))
      /\ ((forall j, j <= d -> responds (server (page + j))) ->
          exists evs, out = Ok evs).
Proof.
  induction fuel as [|fuel IH]; intros d page allEvents trace Hz Hfuel; [lia|].
  assert (Hone : concat (map (served server) (seq page 1))
                 = page_items (server page)).
  { cbn. unfold served. apply app_nil_r. }
  cbn [fetch_loop].
  destruct (server page) as [m|st txt|m|[[|l ls]|] total] eqn:Hsrv.
  - exists (Throw m), [Request page], 1.
    split; [reflexivity|]. split; [lia|]. split; [reflexivity|].
    split; [discriminate|].
    intros H. specialize (H 0 (Nat.le_0_l _)).
    rewrite Nat.add_0_r, Hsrv in H. destruct H.
  - exists (Ok allEvents),
      [Request page; ConsoleError (api_error_line st txt)], 1.
    rewrite <- app_assoc.
    split; [reflexivity|]. split; [lia|]. split; [reflexivity|].
    split; [|intros _; eexists; reflexivity].
    intros evs [= <-]. rewrite Hone. cbn. now rewrite app_nil_r.
  - exists (Throw m), [Request page], 1.
    split; [reflexivity|]. split; [lia|]. split; [reflexivity|].
    split; [discriminate|].
    intros H. specialize (H 0 (Nat.le_0_l _)).
    rewrite Nat.add_0_r, Hsrv in H. destruct H.
  - exists (Ok allEvents), [Request page], 1.
    split; [reflexivity|]. split; [lia|]. split; [reflexivity|].
    split; [|intros _; eexists; reflexivity].
    intros evs [= <-]. rewrite Hone. cbn. now rewrite app_nil_r.
  - destruct (Z.of_nat (length (allEvents ++ l :: ls)) >=? total)%Z.
    + eexists (Ok _), [Request page; ConsoleLog _], 1.
      rewrite <- app_assoc.
      split; [reflexivity|]. split; [lia|]. split; [reflexivity|].
      split; [|intros _; eexists; reflexivity].
      intros evs [= <-]. rewrite Hone. reflexivity.
    + destruct d as [|d].
      { rewrite Nat.add_0_r, Hsrv in Hz. destruct Hz. }
      rewrite Nat.add_succ_r in Hz.
      destruct (IH d (S page) (allEvents ++ l :: ls)
                  (((trace ++ [Request page])
                    ++ [ConsoleLog (page_line page (length (l :: ls))
                                      (length (allEvents ++ l :: ls)))])
                   ++ [Sleep 1500]) Hz ltac:(lia))
        as (out & tr & n & Hrun & Hn & Hreq & Hevs & Hok).
      exists out. eexists. exists (S n). rewrite Hrun.
      rewrite <- !app_assoc. split; [reflexivity|].
      split; [lia|]. split; [|split].
      * cbn. f_equal. exact Hreq.
      * intros evs E. rewrite (Hevs evs E). cbn [seq map concat].
        unfold served at 2. rewrite Hsrv. cbn [page_items].
        now rewrite <- app_assoc.
      * intros Hall. apply Hok. intros j Hj.
        specialize (Hall (S j) ltac:(lia)).
        now rewrite Nat.add_succ_r in Hall.
  - exists (Ok allEvents), [Request page], 1.
    split; [reflexivity|]. split; [lia|]. split; [reflexivity|].
    split; [|intros _; eexists; reflexivity].
    intros evs [= <-]. rewrite Hone. cbn. now rewrite app_nil_r.
Qed.

Lemma fetch_loop_http_failure (fuel page : nat)
    (allEvents : list RAEventListing) (trace : list Effect)
    (status : N) (statusText : jsstring) :
  server page = HttpFailure status statusText ->
  fetch_loop server (S fuel) page allEvents trace
  = Some (Ok allEvents,
          trace ++ [Request page;
                    ConsoleError (api_error_line status statusText)]).
Proof.
  intros H. cbn [fetch_loop]. rewrite H. now rewrite <- app_assoc.
Qed.

Lemma requests_pages_trace (pages : list (list RAEventListing * Z)) :
  forall page count,
    requests (pages_trace page count pages) = seq page (length pages).
Proof.
  induction pages as [|[listings total] rest IH]; intros page count;
    [reflexivity|].
  cbn. f_equal. apply IH.
Qed.

Lemma fetch_loop_zero_items (fuel page : nat)
    (allEvents : list RAEventListing) (trace : list Effect) :
  zero_items (server page) ->
  fetch_loop server (S fuel) page allEvents trace
  = Some (Ok allEvents, trace ++ [Request page]).
Proof.
  intros H. cbn [fetch_loop].
  destruct (server page) as [m|st txt|m|[[|l ls]|] total];
    solve [destruct H | reflexivity].
Qed.

Lemma fetch_loop_total_reached (fuel page : nat)
    (allEvents listings : list RAEventListing) (trace : list Effect)
    (totalResults : Z) :
  server page = Body (Some listings) totalResults ->
  listings <> [] ->
  (Z.of_nat (length (allEvents ++ listings)) >= totalResults)%Z ->
  fetch_loop server (S fuel) page allEvents trace
  = Some (Ok (allEvents ++ listings),
          trace ++ [Request page;
                    ConsoleLog (page_line page (length listings)
                                  (length (allEvents ++ listings)))]).
Proof.
  intros Hsrv Hne Hge. cbn [fetch_loop]. rewrite Hsrv.
  destruct listings as [|l ls]; [contradiction|].
  replace (Z.of_nat (length (allEvents ++ l :: ls)) >=? totalResults)%Z
    with true by (symmetry; rewrite Z.geb_leb; apply Z.leb_le; lia).
  now rewrite <- app_assoc.
Qed.

(** The whole call, after the pages of [advances]. *)
Lemma fetchRAEvents_advances (pages : list (list RAEventListing * Z))
    (fuel : nat) :
  advances server 1 0 pages ->
  fetchRAEvents server (length pages + fuel)
  = fetch_loop server fuel (S (length pages)) (concat (map fst pages))
      (pages_trace 1 0 pages).
Proof.
  intros H. unfold fetchRAEvents.
  rewrite (fetch_loop_advances pages 1 [] [] fuel H).
  now rewrite Nat.add_1_r.
Qed.

End AnyServer.

(** C4.  Pagination comes to an end and stops where it should.  (1) When
    some page [k] comes back with zero items, [fetchRAEvents] ends after at
    most [k] requests, for the consecutive pages [1..n], and what it returns
    is what those pages carried, in order; it returns (rather than throws)
    when every page up to [k] is answered.  (2) When the pages before the
    empty one are non-empty and below their declared total, the result is the
    concatenation of all of them.  (3) When the running count reaches the
    total declared by a page, that page is the last one requested. *)
Theorem fetchRAEvents_pagination (server : nat -> Reply) :
  (forall k fuel,
      1 <= k <= fuel -> zero_items (server k) ->
      exists out tr n,
        fetchRAEvents server fuel = Some (out, tr)
        /\ 1 <= n <= k
        /\ requests tr = seq 1 n
        /\ (forall evs, out = Ok evs ->
            evs = concat (map (served server) (seq 1 n)))
        /\ ((forall j, 1 <= j <= k -> responds (server j)) ->
            exists evs, out = Ok evs))
  /\ (forall pages fuel,
      advances server 1 0 pages ->
      zero_items (server (S (length pages))) ->
      length pages < fuel ->
      exists tr,
        fetchRAEvents server fuel = Some (Ok (concat (map fst pages)), tr)
        /\ requests tr = seq 1 (S (length pages)))
  /\ (forall pages listings totalResults fuel,
      advances server 1 0 pages ->
      server (S (length pages)) = Body (Some listings) totalResults ->
      listings <> [] ->
      (Z.of_nat (length (concat (map fst pages) ++ listings))
       >= totalResults)%Z ->
      length pages < fuel ->
      exists tr,
        fetchRAEvents server fuel
        = Some (Ok (concat (map fst pages) ++ listings), tr)
        /\ requests tr = seq 1 (S (length pages))).
Proof.
  split; [|split].
  - intros k fuel Hk Hz.
    destruct k as [|d]; [lia|].
    destruct (@fetch_loop_reaches_empty_page server fuel d 1 [] [] Hz ltac:(lia))
      as (out & tr & n & Hrun & Hn & Hreq & Hevs & Hok).
    exists out, tr, n. repeat split; try assumption; try lia.
    intros Hall. apply Hok. intros j Hj. apply Hall. lia.
  - intros pages fuel Hadv Hz Hfuel.
    replace fuel with (length pages + S (fuel - S (length pages))) by lia.
    rewrite fetchRAEvents_advances by exact Hadv.
    rewrite fetch_loop_zero_items by exact Hz.
    eexists. split; [reflexivity|].
    rewrite requests_app, requests_pages_trace, seq_S. reflexivity.
  - intros pages listings total fuel Hadv Hsrv Hne Hge Hfuel.
    replace fuel with (length pages + S (fuel - S (length pages))) by lia.
    rewrite fetchRAEvents_advances by exact Hadv.
    rewrite fetch_loop_total_reached
      with (listings := listings) (totalResults := total) by assumption.
    eexists. split; [reflexivity|].
    rewrite requests_app, requests_pages_trace, seq_S. reflexivity.
Qed.

(** C7.  A page request answered by a non-success HTTP response ends the
    loop, wherever it stands: the line [RA API error: <status> <statusText>]
    is printed, with the status as its decimal numeral, no further page is
    requested, and the listings accumulated so far are returned, not thrown.
    In particular, after any number of good pages, the call returns their
    concatenation. *)
Theorem fetchRAEvents_http_failure (server : nat -> Reply)
    (status : N) (statusText : jsstring) :
  (is_numeral (of_N status) = true /\ decimal_value (of_N status) = status)
  /\ (forall fuel page allEvents trace,
      server page = HttpFailure status statusText ->
      fetch_loop server (S fuel) page allEvents trace
      = Some (Ok allEvents,
              trace ++ [Request page;
                        ConsoleError
                          (lit "RA API error: " ++ of_N status ++ lit " "
                             ++ statusText)]))
  /\ (forall pages fuel,
      advances server 1 0 pages ->
      server (S (length pages)) = HttpFailure status statusText ->
      length pages < fuel ->
      fetchRAEvents server fuel
      = Some (Ok (concat (map fst pages)),
              pages_trace 1 0 pages
              ++ [Request (S (length pages));
                  ConsoleError
                    (lit "RA API error: " ++ of_N status ++ lit " "
                       ++ statusText)])).
Proof.
  split; [apply NumeralFacts.of_N_numeral|]. split.
  - intros fuel page allEvents trace H.
    now rewrite (fetch_loop_http_failure server fuel page allEvents trace
                   status statusText H).
  - intros pages fuel Hadv Hsrv Hfuel.
    replace fuel with (length pages + S (fuel - S (length pages))) by lia.
    rewrite fetchRAEvents_advances by exact Hadv.
    now rewrite (fetch_loop_http_failure server _ _ _ _ status statusText Hsrv).
Qed.

End ClientFacts.

(** ** The store *)

Module StoreFacts.

Lemma extends_refl {A} (l : list A) : extends l l.
Proof. exists []. now rewrite app_nil_r. Qed.

Lemma extends_trans {A} (l1 l2 l3 : list A) :
  extends l1 l2 -> extends l2 l3 -> extends l1 l3.
Proof.
  intros [m1 ->] [m2 ->]. exists (m1 ++ m2). now rewrite app_assoc.
Qed.

Lemma extends_snoc {A} (l : list A) (x : A) : extends l (l ++ [x]).
Proof. now exists [x]. Qed.

Lemma extends_In {A} (l l' : list A) (x : A) : extends l l' -> In x l -> In x l'.
Proof. intros [m ->] H. apply in_or_app. now left. Qed.

Lemma extends_length {A} (l l' : list A) : extends l l' -> length l <= length l'.
Proof. intros [m ->]. rewrite length_app. lia. Qed.

Lemma extends_same_length {A} (l l' : list A) :
  extends l l' -> length l' = length l -> l' = l.
Proof.
  intros [m ->] H. rewrite length_app in H.
  destruct m; [now rewrite app_nil_r | simpl in H; lia].
Qed.

Lemma find_extends {A} (p : A -> bool) (l l' : list A) (x : A) :
  extends l l' -> find p l = Some x -> find p l' = Some x.
Proof.
  intros [m ->]. induction l as [|y l IH]; simpl; [discriminate|].
  destruct (p y); auto.
Qed.

Lemma existsb_extends {A} (p : A -> bool) (l l' : list A) :
  extends l l' -> existsb p l = true -> existsb p l' = true.
Proof.
  intros [m ->] H. rewrite existsb_app, H. reflexivity.
Qed.

Lemma find_none_existsb {A} (p : A -> bool) (l : list A) :
  find p l = None -> existsb p l = false.
Proof.
  induction l as [|y l IH]; simpl; [reflexivity|].
  destruct (p y); [discriminate | exact IH].
Qed.

Lemma find_snoc_none {A} (p : A -> bool) (l : list A) (x : A) :
  find p l = None -> p x = true -> find p (l ++ [x]) = Some x.
Proof.
  induction l as [|y l IH]; simpl; intros H Hx.
  - now rewrite Hx.
  - destruct (p y); [discriminate | now apply IH].
Qed.

Lemma same_entities_refl (s : Store) : same_entities s s.
Proof. repeat split. Qed.

Lemma same_entities_sym (s t : Store) : same_entities s t -> same_entities t s.
Proof. intros (H1 & H2 & H3 & H4). repeat split; congruence. Qed.

Lemma same_entities_trans (s t u : Store) :
  same_entities s t -> same_entities t u -> same_entities s u.
Proof.
  intros (H1 & H2 & H3 & H4) (K1 & K2 & K3 & K4). repeat split; congruence.
Qed.

Lemma same_entities_tick (s : Store) : same_entities s (tick s).
Proof. repeat split. Qed.

Lemma grows_refl (s : Store) : grows s s.
Proof. repeat split; apply extends_refl. Qed.

Lemma grows_trans (s t u : Store) : grows s t -> grows t u -> grows s u.
Proof.
  intros (H1 & H2 & H3 & H4 & H5) (K1 & K2 & K3 & K4 & K5).
  repeat split; eapply extends_trans; eassumption.
Qed.

Lemma entity_step_grows (s t : Store) : entity_step s t -> grows s t.
Proof.
  intros []; repeat split; simpl;
    first [apply extends_refl | apply extends_snoc].
Qed.

Lemma entity_steps_grows (s t : Store) : entity_steps s t -> grows s t.
Proof.
  induction 1 as [s|s t u H _ IH]; [apply grows_refl|].
  eapply grows_trans; [apply entity_step_grows, H | exact IH].
Qed.

Lemma entity_step_logs (s t : Store) :
  entity_step s t -> scrapeLogs t = scrapeLogs s.
Proof. now intros []. Qed.

Lemma entity_steps_logs (s t : Store) :
  entity_steps s t -> scrapeLogs t = scrapeLogs s.
Proof.
  induction 1 as [s|s t u H _ IH]; [reflexivity|].
  rewrite IH. now apply entity_step_logs.
Qed.

Lemma entity_steps_trans (s t u : Store) :
  entity_steps s t -> entity_steps t u -> entity_steps s u.
Proof.
  induction 1 as [s|s t v H _ IH]; [auto|].
  intros K. eapply steps_next; [exact H | now apply IH].
Qed.

Lemma entity_steps_one (s t : Store) : entity_step s t -> entity_steps s t.
Proof. intros H. eapply steps_next; [exact H | apply steps_done]. Qed.

Lemma same_pair_spec (v : LineupValues) (r : Row LineupValues) :
  same_pair v r = true
  <-> lineup_pair r = (lineups_festivalId v, lineups_artistId v).
Proof.
  unfold same_pair, lineup_pair. rewrite andb_true_iff, !Nat.eqb_eq.
  split; [intros [-> ->]; reflexivity | intros [= -> ->]; auto].
Qed.

Lemma no_pair_not_in (v : LineupValues) (l : list (Row LineupValues)) :
  existsb (same_pair v) l = false ->
  ~ In (lineups_festivalId v, lineups_artistId v) (map lineup_pair l).
Proof.
  intros H Hin. apply in_map_iff in Hin as (r & Hr & Hin).
  assert (existsb (same_pair v) l = true); [|congruence].
  apply existsb_exists. exists r. split; [exact Hin | now apply same_pair_spec].
Qed.

Lemma NoDup_snoc {A} (l : list A) (x : A) :
  NoDup l -> ~ In x l -> NoDup (l ++ [x]).
Proof.
  intros Hl Hx. apply NoDup_rev in Hl. rewrite <- (rev_involutive (l ++ [x])).
  apply NoDup_rev. rewrite rev_app_distr. simpl. constructor; [|exact Hl].
  now rewrite <- in_rev.
Qed.

(** The unique index holds after every atomic change. *)
Lemma entity_step_unique_lineups (s t : Store) :
  entity_step s t -> unique_lineups s -> unique_lineups t.
Proof.
  unfold unique_lineups. intros [| | | |v Hv]; simpl; auto.
  intros H. rewrite map_app. simpl. apply NoDup_snoc; [exact H|].
  now apply no_pair_not_in.
Qed.

Lemma entity_steps_unique_lineups (s t : Store) :
  entity_steps s t -> unique_lineups s -> unique_lineups t.
Proof.
  induction 1 as [s|s t u H _ IH]; [auto|].
  intros K. apply IH. eapply entity_step_unique_lineups; eassumption.
Qed.

End StoreFacts.

(** ** The upserts *)

Module UpsertFacts.
Import StoreFacts.

Section AnyStore.

Variable unicodeLower : N -> jsstring.
Variable faults : Faults.

Local Abbreviation upsertVenue := (upsertVenue faults).
Local Abbreviation upsertArtist := (upsertArtist unicodeLower faults).
Local Abbreviation upsertFestival := (upsertFestival unicodeLower faults).
Local Abbreviation insertLineup := (insertLineupOnConflictDoNothing faults).

Lemma two_ticks (s : Store) : entity_steps s (tick (tick s)).
Proof.
  eapply steps_next; [apply step_tick | apply entity_steps_one, step_tick].
Qed.

(** What [upsertArtist] can do: find the row, create it, or throw at the
    [select] or at the [insert]. *)
Lemma upsertArtist_cases (artist : RAArtist) (s : Store) :
  (exists r,
      find (artist_slugged (artist_slug unicodeLower artist)) (artists s) = Some r
      /\ upsertArtist artist s = (Ok (id r), tick s))
  \/ (find (artist_slugged (artist_slug unicodeLower artist)) (artists s) = None
      /\ upsertArtist artist s
         = (Ok (next_uuid s),
            add_artist (artist_values unicodeLower artist) (tick (tick s))))
  \/ (exists message, upsertArtist artist s = (Throw message, tick s))
  \/ (exists message,
        find (artist_slugged (artist_slug unicodeLower artist)) (artists s) = None
        /\ upsertArtist artist s = (Throw message, tick (tick s))).
Proof.
  unfold Sync.upsertArtist, bind, selectArtistBySlug, insertArtist, statement, ret.
  destruct (faults (clock s) _) as [m|]; [right; right; left; eauto|].
  cbn [artists tick].
  destruct (find _ (artists s)) as [r|] eqn:F; [left; eauto|].
  right. cbn [clock tick artists].
  destruct (faults (S (clock s)) _) as [m|]; [right; right; eauto|].
  left. split; [reflexivity|].
  cbn [artists_slug artist_values].
  now rewrite (find_none_existsb _ _ F).
Qed.

Lemma upsertFestival_cases (event : RAEvent) (venueId : option uuid) (s : Store) :
  (exists r,
      find (festival_slugged (festival_slug unicodeLower event)) (festivals s)
      = Some r
      /\ upsertFestival event venueId s = (Ok (id r), tick s))
  \/ (find (festival_slugged (festival_slug unicodeLower event)) (festivals s)
      = None
      /\ upsertFestival event venueId s
         = (Ok (next_uuid s),
            add_festival
              (festival_values event (festival_slug unicodeLower event) venueId)
              (tick (tick s))))
  \/ (exists message, upsertFestival event venueId s = (Throw message, tick s))
  \/ (exists message,
        find (festival_slugged (festival_slug unicodeLower event)) (festivals s)
        = None
        /\ upsertFestival event venueId s = (Throw message, tick (tick s))).
Proof.
  unfold Sync.upsertFestival, bind, selectFestivalBySlug, insertFestival,
    statement, ret.
  destruct (faults (clock s) _) as [m|]; [right; right; left; eauto|].
  cbn [festivals tick].
  destruct (find _ (festivals s)) as [r|] eqn:F; [left; eauto|].
  right. cbn [clock tick festivals].
  destruct (faults (S (clock s)) _) as [m|]; [right; right; eauto|].
  left. split; [reflexivity|].
  cbn [festivals_slug festival_values].
  now rewrite (find_none_existsb _ _ F).
Qed.

Lemma upsertVenue_cases (event : RAEvent) (s : Store) :
  ((event_venue event = None
    \/ exists v, event_venue event = Some v /\ venue_name v = [])
   /\ upsertVenue event s = (Ok None, s))
  \/ (exists v r,
        event_venue event = Some v
        /\ find (venue_named (venue_name v)) (venues s) = Some r
        /\ upsertVenue event s = (Ok (Some (id r)), tick s))
  \/ (exists v,
        event_venue event = Some v
        /\ find (venue_named (venue_name v)) (venues s) = None
        /\ upsertVenue event s
           = (Ok (Some (next_uuid s)),
              add_venue (venue_values v) (tick (tick s))))
  \/ (exists message,
        upsertVenue event s = (Throw message, tick s)
        \/ upsertVenue event s = (Throw message, tick (tick s))).
Proof.
  unfold Sync.upsertVenue.
  destruct (event_venue event) as [v|]; [|left; auto].
  destruct (venue_name v) as [|c name] eqn:Hname; [left; eauto|].
  right.
  unfold bind, selectVenueByName, insertVenue, statement, ret.
  destruct (faults (clock s) _) as [m|]; [right; right; eauto|].
  cbn [venues tick].
  destruct (find _ (venues s)) as [r|] eqn:F.
  - left. exists v, r. rewrite Hname. auto.
  - right. cbn [clock tick venues].
    destruct (faults (S (clock s)) _) as [m|]; [right; eauto|].
    left. exists v. rewrite Hname. auto.
Qed.

(** What the conflict-swallowing insert can do: nothing (the pair is
    there), add the row, or throw. *)
Lemma insertLineup_cases (v : LineupValues) (s : Store) :
  (existsb (same_pair v) (festivalLineups s) = true
   /\ faults (clock s) (InsertLineup v) = None
   /\ insertLineup v s = (Ok tt, tick s))
  \/ (existsb (same_pair v) (festivalLineups s) = false
      /\ insertLineup v s = (Ok tt, add_lineup v (tick s)))
  \/ (exists message,
        faults (clock s) (InsertLineup v) = Some message
        /\ insertLineup v s = (Throw message, tick s)).
Proof.
  unfold insertLineupOnConflictDoNothing, statement.
  destruct (faults (clock s) _) as [m|]; [right; right; eauto|].
  cbn [festivalLineups tick].
  destruct (existsb _ (festivalLineups s)); [left | right; left]; auto.
Qed.

Lemma same_entities_two_ticks (s : Store) : same_entities s (tick (tick s)).
Proof. repeat split. Qed.

Lemma upsertArtist_result (artist : RAArtist) (s s' : Store) (out : result uuid) :
  upsertArtist artist s = (out, s') ->
  entity_steps s s'
  /\ (forall i, out = Ok i ->
      exists r,
        find (artist_slugged (artist_slug unicodeLower artist)) (artists s')
        = Some r /\ id r = i)
  /\ (forall r,
        find (artist_slugged (artist_slug unicodeLower artist)) (artists s)
        = Some r ->
        same_entities s s' /\ forall i, out = Ok i -> i = id r)
  /\ (forall message, out = Throw message -> same_entities s s').
Proof.
  intros E.
  destruct (upsertArtist_cases artist s)
    as [(r & F & E')|[(F & E')|[(m & E')|(m & F & E')]]];
    rewrite E' in E; injection E as <- <-.
  - split; [apply entity_steps_one, step_tick|].
    split; [intros i [= <-]; eauto|].
    split; [|discriminate].
    intros r0 F0. split; [apply same_entities_tick|].
    intros i [= <-]. congruence.
  - split.
    { eapply entity_steps_trans; [apply two_ticks|].
      apply entity_steps_one, step_artist. now apply find_none_existsb. }
    split; [|split; [intros r0 F0; congruence | discriminate]].
    intros i [= <-]. eexists. split.
    + cbn [artists add_artist tick next_uuid].
      apply find_snoc_none; [exact F|]. apply jseqb_refl.
    + reflexivity.
  - split; [apply entity_steps_one, step_tick|].
    split; [discriminate|].
    split; [intros; split; [apply same_entities_tick | discriminate]|].
    intros; apply same_entities_tick.
  - split; [apply two_ticks|].
    split; [discriminate|].
    split; [intros; congruence|].
    intros; apply same_entities_two_ticks.
Qed.

Lemma upsertFestival_result (event : RAEvent) (venueId : option uuid)
    (s s' : Store) (out : result uuid) :
  upsertFestival event venueId s = (out, s') ->
  entity_steps s s'
  /\ (forall i, out = Ok i ->
      exists r,
        find (festival_slugged (festival_slug unicodeLower event)) (festivals s')
        = Some r /\ id r = i)
  /\ (forall r,
        find (festival_slugged (festival_slug unicodeLower event)) (festivals s)
        = Some r ->
        same_entities s s' /\ forall i, out = Ok i -> i = id r)
  /\ (forall message, out = Throw message -> same_entities s s').
Proof.
  intros E.
  destruct (upsertFestival_cases event venueId s)
    as [(r & F & E')|[(F & E')|[(m & E')|(m & F & E')]]];
    rewrite E' in E; injection E as <- <-.
  - split; [apply entity_steps_one, step_tick|].
    split; [intros i [= <-]; eauto|].
    split; [|discriminate].
    intros r0 F0. split; [apply same_entities_tick|].
    intros i [= <-]. congruence.
  - split.
    { eapply entity_steps_trans; [apply two_ticks|].
      apply entity_steps_one, step_festival. now apply find_none_existsb. }
    split; [|split; [intros r0 F0; congruence | discriminate]].
    intros i [= <-]. eexists. split.
    + cbn [festivals add_festival tick next_uuid].
      apply find_snoc_none; [exact F|]. apply jseqb_refl.
    + reflexivity.
  - split; [apply entity_steps_one, step_tick|].
    split; [discriminate|].
    split; [intros; split; [apply same_entities_tick | discriminate]|].
    intros; apply same_entities_tick.
  - split; [apply two_ticks|].
    split; [discriminate|].
    split; [intros; congruence|].
    intros; apply same_entities_two_ticks.
Qed.

Lemma upsertVenue_result (event : RAEvent) (s s' : Store)
    (out : result (option uuid)) :
  upsertVenue event s = (out, s') ->
  entity_steps s s'
  /\ (forall venueId, out = Ok venueId ->
      venue_settled event s'
      /\ forall i, venueId = Some i -> exists r, In r (venues s') /\ id r = i)
  /\ (venue_settled event s -> same_entities s s')
  /\ (forall message, out = Throw message -> same_entities s s').
Proof.
  intros E. unfold venue_settled.
  destruct (upsertVenue_cases event s)
    as [(Hv & E')|[(v & r & Hv & F & E')|[(v & Hv & F & E')|(m & [E'|E'])]]];
    rewrite E' in E; injection E as <- <-.
  - split; [apply steps_done|].
    split; [|split; [intros; apply same_entities_refl | discriminate]].
    intros venueId [= <-]. split; [|discriminate].
    destruct Hv as [->|(v & -> & Hn)]; auto.
  - rewrite Hv. split; [apply entity_steps_one, step_tick|].
    split; [|split; [intros; apply same_entities_tick | discriminate]].
    intros venueId [= <-]. split; [right; eauto|].
    intros i [= <-]. exists r. split; [|reflexivity].
    apply find_some in F. apply F.
  - rewrite Hv. split.
    { eapply entity_steps_trans; [apply two_ticks|].
      apply entity_steps_one, step_venue. }
    split; [|split; [|discriminate]].
    + intros venueId [= <-].
      assert (F' : find (venue_named (venue_name v))
                     (venues (add_venue (venue_values v) (tick (tick s))))
                   = Some {| id := next_uuid s; values := venue_values v |}).
      { cbn [venues add_venue tick next_uuid].
        apply find_snoc_none; [exact F|]. apply jseqb_refl. }
      split; [right; eauto|].
      intros i [= <-]. eexists. split.
      * apply find_some in F'. apply F'.
      * reflexivity.
    + intros [Hn|(r & F')]; [|congruence].
      exfalso. unfold Sync.upsertVenue in E'. rewrite Hv, Hn in E'.
      discriminate E'.
  - split; [apply entity_steps_one, step_tick|].
    split; [discriminate|].
    split; intros; apply same_entities_tick.
  - split; [apply two_ticks|].
    split; [discriminate|].
    split; intros; apply same_entities_two_ticks.
Qed.

Lemma insertLineup_result (v : LineupValues) (s s' : Store) (out : result unit) :
  insertLineup v s = (out, s') ->
  entity_steps s s'
  /\ (forall u, out = Ok u -> existsb (same_pair v) (festivalLineups s') = true)
  /\ (existsb (same_pair v) (festivalLineups s) = true -> same_entities s s')
  /\ (forall message, out = Throw message -> same_entities s s').
Proof.
  intros E.
  destruct (insertLineup_cases v s) as [(X & _ & E')|[(X & E')|(m & _ & E')]];
    rewrite E' in E; injection E as <- <-.
  - split; [apply entity_steps_one, step_tick|].
    split; [intros; exact X|].
    split; intros; apply same_entities_tick.
  - split.
    { eapply steps_next; [apply step_tick|].
      apply entity_steps_one, step_lineup. exact X. }
    split; [|split; [congruence | discriminate]].
    intros _ _. cbn [festivalLineups add_lineup tick].
    rewrite existsb_app. cbn [existsb]. unfold same_pair at 2.
    cbn [values]. rewrite !Nat.eqb_refl. apply orb_true_r.
  - split; [apply entity_steps_one, step_tick|].
    split; [discriminate|].
    split; intros; apply same_entities_tick.
Qed.

End AnyStore.

End UpsertFacts.

(** ** The loops of [syncArea] *)

Module LoopFacts.
Import StoreFacts UpsertFacts.

Lemma grows_entities (s t : Store) : grows s t -> entities_grow s t.
Proof. intros (H1 & H2 & H3 & H4 & _). repeat split; assumption. Qed.

Lemma same_entities_grow (s t : Store) : same_entities s t -> entities_grow s t.
Proof.
  intros (H1 & H2 & H3 & H4). unfold entities_grow.
  rewrite <- H1, <- H2, <- H3, <- H4. repeat split; apply extends_refl.
Qed.

Lemma steps_entities_grow (s t : Store) : entity_steps s t -> entities_grow s t.
Proof. intros H. apply grows_entities, entity_steps_grows, H. Qed.

Lemma snoc_not_same {A} (l : list A) (x : A) : l ++ [x] <> l.
Proof.
  intros H. apply (f_equal (@length A)) in H. rewrite length_app in H.
  simpl in H. lia.
Qed.

Lemma extends_antisym {A} (l l' : list A) : extends l l' -> extends l' l -> l' = l.
Proof.
  intros H K. apply extends_same_length; [exact H|].
  apply extends_length in H. apply extends_length in K. lia.
Qed.

(** When nothing was pushed between two points, nothing was pushed between
    the first and any point in between. *)
Lemma clean_between {A} (l0 l1 l2 : list A) :
  extends l0 l1 -> extends l1 l2 -> l2 = l0 -> l1 = l0 /\ l2 = l1.
Proof.
  intros H01 H12 E. subst l2.
  assert (l1 = l0) by (apply extends_antisym; assumption).
  subst. auto.
Qed.

Section AnyStore.

Variable unicodeLower : N -> jsstring.
Variable faults : Faults.

Local Abbreviation upsertVenue := (upsertVenue faults).
Local Abbreviation upsertArtist := (upsertArtist unicodeLower faults).
Local Abbreviation upsertFestival := (upsertFestival unicodeLower faults).
Local Abbreviation insertLineup := (insertLineupOnConflictDoNothing faults).
Local Abbreviation artistStep := (artistStep unicodeLower faults).
Local Abbreviation listingStep := (listingStep unicodeLower faults).
Local Abbreviation artist_settled := (artist_settled unicodeLower).
Local Abbreviation listing_settled := (listing_settled unicodeLower).
Local Abbreviation artist_handled := (artist_handled unicodeLower).

Lemma artist_settled_grows (festivalId : uuid) (event : RAEvent) (s t : Store)
    (artist : RAArtist) :
  entities_grow s t ->
  artist_settled festivalId event s artist ->
  artist_settled festivalId event t artist.
Proof.
  intros (_ & Ha & _ & Hl) (r & F & X). exists r. split.
  - eapply find_extends; eassumption.
  - eapply existsb_extends; eassumption.
Qed.

Lemma venue_settled_grows (event : RAEvent) (s t : Store) :
  entities_grow s t -> venue_settled event s -> venue_settled event t.
Proof.
  intros (Hv & _) H. unfold venue_settled in *.
  destruct (event_venue event) as [v|]; [|exact I].
  destruct H as [H|(r & F)]; [now left | right].
  exists r. eapply find_extends; eassumption.
Qed.

Lemma listing_settled_grows (s t : Store) (listing : RAEventListing) :
  entities_grow s t -> listing_settled s listing -> listing_settled t listing.
Proof.
  intros G H. unfold Invariants.listing_settled in *.
  destruct (listing_event listing) as [event|]; [|exact I].
  destruct H as (Hv & f & F & Ha). split.
  - eapply venue_settled_grows; eassumption.
  - exists f. split.
    + destruct G as (_ & _ & Hf & _). eapply find_extends; eassumption.
    + eapply Forall_impl; [|exact Ha].
      intros a. now apply artist_settled_grows.
Qed.

Lemma artist_handled_grows (st st' : Run) (artist : RAArtist) :
  extends (artists (snd st)) (artists (snd st')) ->
  extends (errors (fst st)) (errors (fst st')) ->
  artist_handled st artist -> artist_handled st' artist.
Proof.
  intros Ha He [(r & Hin & Hs)|(m & Hin)]; [left | right].
  - exists r. split; [eapply extends_In; eassumption | exact Hs].
  - exists m. eapply extends_In; eassumption.
Qed.

(** One turn of the loop over the artists. *)
Lemma artistStep_spec (festivalId : uuid) (event : RAEvent) (st : Run)
    (artist : RAArtist) :
  let st' := artistStep festivalId event st artist in
  entity_steps (snd st) (snd st')
  /\ extends (errors (fst st)) (errors (fst st'))
  /\ festivalsFound (fst st') = festivalsFound (fst st)
  /\ (errors (fst st') = errors (fst st) ->
      artist_settled festivalId event (snd st') artist
      /\ artistsFound (fst st') = S (artistsFound (fst st)))
  /\ (artist_settled festivalId event (snd st) artist ->
      same_entities (snd st) (snd st'))
  /\ artist_handled st' artist.
Proof.
  destruct st as [c s]. unfold Sync.artistStep. cbn [fst snd].
  destruct (upsertArtist artist s) as [[i|m] s1] eqn:E1;
    destruct (upsertArtist_result _ _ _ _ _ _ E1) as (S1 & O1 & F1 & T1).
  - destruct (O1 i eq_refl) as (r & Fr & Hid).
    destruct (insertLineup (lineup_values festivalId i event) s1)
      as [[u|m] s2] eqn:E2;
      destruct (insertLineup_result _ _ _ _ _ E2) as (S2 & O2 & F2 & T2);
      cbn [fst snd errors push_error count_artist festivalsFound artistsFound].
    + split; [eapply entity_steps_trans; eassumption|].
      split; [apply extends_refl|]. split; [reflexivity|].
      pose proof (steps_entities_grow _ _ S2) as (_ & Ga & _).
      split; [|split].
      * intros _. split; [|reflexivity]. exists r. split.
        -- eapply find_extends; eassumption.
        -- rewrite Hid. now apply (O2 u).
      * intros (r0 & F0 & X0). destruct (F1 r0 F0) as [Q1 Qi].
        eapply same_entities_trans; [exact Q1|]. apply F2.
        rewrite (Qi i eq_refl). destruct Q1 as (_ & _ & _ & <-). exact X0.
      * left. exists r. split.
        -- apply find_some in Fr. eapply extends_In; [exact Ga | apply Fr].
        -- apply find_some in Fr. destruct Fr as [_ Fr]. now apply jseqb_eq in Fr.
    + split; [eapply entity_steps_trans; eassumption|].
      split; [apply extends_snoc|]. split; [reflexivity|].
      split; [intros H; now apply snoc_not_same in H|].
      split.
      * intros (r0 & F0 & X0). destruct (F1 r0 F0) as [Q1 _].
        eapply same_entities_trans; [exact Q1 | now apply (T2 m)].
      * right. exists m. apply in_or_app. right. now left.
  - cbn [fst snd errors push_error festivalsFound artistsFound].
    split; [exact S1|]. split; [apply extends_snoc|]. split; [reflexivity|].
    split; [intros H; now apply snoc_not_same in H|].
    split; [intros _; now apply (T1 m)|].
    right. exists m. apply in_or_app. right. now left.
Qed.

(** The whole loop over the artists of a listing. *)
Lemma artists_loop_spec (festivalId : uuid) (event : RAEvent)
    (l : list RAArtist) :
  forall st : Run,
    let st' := fold_left (artistStep festivalId event) l st in
    entity_steps (snd st) (snd st')
    /\ extends (errors (fst st)) (errors (fst st'))
    /\ festivalsFound (fst st') = festivalsFound (fst st)
    /\ (errors (fst st') = errors (fst st) ->
        Forall (artist_settled festivalId event (snd st')) l
        /\ artistsFound (fst st') = length l + artistsFound (fst st))
    /\ (Forall (artist_settled festivalId event (snd st)) l ->
        same_entities (snd st) (snd st'))
    /\ Forall (artist_handled st') l.
Proof.
  induction l as [|a l IH]; intros st; cbn [fold_left].
  - split; [apply steps_done|]. split; [apply extends_refl|].
    split; [reflexivity|]. split; [auto|]. split; [|constructor].
    intros _. apply same_entities_refl.
  - destruct (artistStep_spec festivalId event st a)
      as (S1 & X1 & N1 & C1 & I1 & H1).
    destruct (IH (artistStep festivalId event st a))
      as (S2 & X2 & N2 & C2 & I2 & H2).
    set (st1 := artistStep festivalId event st a) in *.
    set (st2 := fold_left (artistStep festivalId event) l st1) in *.
    split; [eapply entity_steps_trans; eassumption|].
    split; [eapply extends_trans; eassumption|].
    split; [congruence|].
    split; [|split].
    + intros E. destruct (clean_between _ _ _ X1 X2 E) as [E1 E2].
      destruct (C1 E1) as [A1 K1]. destruct (C2 E2) as [A2 K2].
      split; [|rewrite K2, K1; cbn [length]; lia].
      constructor; [|exact A2].
      eapply artist_settled_grows; [|exact A1].
      now apply steps_entities_grow.
    + intros F. inversion F as [|a' l' Fa Fl]; subst.
      pose proof (I1 Fa) as Q1.
      eapply same_entities_trans; [exact Q1|]. apply I2.
      eapply Forall_impl; [|exact Fl].
      intros b. apply artist_settled_grows. now apply same_entities_grow.
    + constructor; [|exact H2].
      eapply artist_handled_grows; [| |exact H1]; [|exact X2].
      now apply (steps_entities_grow _ _ S2).
Qed.

(** One turn of the loop over the listings. *)
Lemma listingStep_spec (st : Run) (listing : RAEventListing) :
  let st' := listingStep st listing in
  entity_steps (snd st) (snd st')
  /\ extends (errors (fst st)) (errors (fst st'))
  /\ (errors (fst st') = errors (fst st) ->
      listing_settled (snd st') listing
      /\ festivalsFound (fst st') = S (festivalsFound (fst st))
      /\ artistsFound (fst st') = listing_slots listing + artistsFound (fst st))
  /\ (listing_settled (snd st) listing -> same_entities (snd st) (snd st')).
Proof.
  destruct st as [c s].
  unfold Sync.listingStep, Invariants.listing_settled, listing_slots.
  cbn [fst snd].
  destruct (listing_event listing) as [event|].
  2:{ cbn [fst snd errors push_error].
      split; [apply steps_done|]. split; [apply extends_snoc|].
      split; [intros H; now apply snoc_not_same in H|].
      intros _. apply same_entities_refl. }
  destruct (upsertVenue event s) as [[venueId|m] s1] eqn:E1;
    destruct (upsertVenue_result _ _ _ _ _ E1) as (S1 & O1 & F1 & T1).
  2:{ cbn [fst snd errors push_error].
      split; [exact S1|]. split; [apply extends_snoc|].
      split; [intros H; now apply snoc_not_same in H|].
      intros _. now apply (T1 m). }
  destruct (O1 venueId eq_refl) as [V1 _].
  destruct (upsertFestival event venueId s1) as [[festivalId|m] s2] eqn:E2;
    destruct (upsertFestival_result _ _ _ _ _ _ _ E2) as (S2 & O2 & F2 & T2).
  2:{ cbn [fst snd errors push_error].
      split; [eapply entity_steps_trans; eassumption|].
      split; [apply extends_snoc|].
      split; [intros H; now apply snoc_not_same in H|].
      intros (Hv & _). eapply same_entities_trans; [now apply F1|].
      now apply (T2 m). }
  destruct (O2 festivalId eq_refl) as (f & Ff & Hid).
  destruct (artists_loop_spec festivalId event (artists_of event)
              (count_festival c, s2)) as (S3 & X3 & N3 & C3 & I3 & _).
  cbn [fst snd errors count_festival festivalsFound artistsFound] in *.
  set (st3 := fold_left (artistStep festivalId event) (artists_of event)
                (count_festival c, s2)) in *.
  pose proof (steps_entities_grow _ _ S3) as G3.
  split; [eapply entity_steps_trans;
          [exact S1 | eapply entity_steps_trans; eassumption]|].
  split; [exact X3|].
  split.
  - intros E. destruct (C3 E) as [A3 K3].
    split; [|split; [exact N3 | exact K3]].
    split.
    + eapply venue_settled_grows; [|exact V1].
      apply steps_entities_grow.
      eapply entity_steps_trans; eassumption.
    + exists f. split; [|now rewrite Hid].
      destruct G3 as (_ & _ & Gf & _). eapply find_extends; eassumption.
  - intros (Hv & f0 & F0 & A0).
    pose proof (F1 Hv) as Q1.
    assert (F0' : find (festival_slugged (festival_slug unicodeLower event))
                    (festivals s1) = Some f0).
    { destruct Q1 as (_ & _ & <- & _). exact F0. }
    destruct (F2 f0 F0') as [Q2 Qi].
    rewrite <- (Qi festivalId eq_refl) in A0.
    eapply same_entities_trans; [exact Q1|].
    eapply same_entities_trans; [exact Q2|].
    apply I3. eapply Forall_impl; [|exact A0].
    intros a. apply artist_settled_grows. apply same_entities_grow.
    eapply same_entities_trans; eassumption.
Qed.

(** The whole loop over the listings. *)
Lemma listings_loop_spec (listings : list RAEventListing) :
  forall st : Run,
    let st' := fold_left listingStep listings st in
    entity_steps (snd st) (snd st')
    /\ extends (errors (fst st)) (errors (fst st'))
    /\ (errors (fst st') = errors (fst st) ->
        Forall (listing_settled (snd st')) listings
        /\ festivalsFound (fst st') = length listings + festivalsFound (fst st)
        /\ artistsFound (fst st')
           = artist_slots listings + artistsFound (fst st))
    /\ (Forall (listing_settled (snd st)) listings ->
        same_entities (snd st) (snd st')).
Proof.
  induction listings as [|x l IH]; intros st; cbn [fold_left].
  - split; [apply steps_done|]. split; [apply extends_refl|].
    split; [auto|]. intros _. apply same_entities_refl.
  - destruct (listingStep_spec st x) as (S1 & X1 & C1 & I1).
    destruct (IH (listingStep st x)) as (S2 & X2 & C2 & I2).
    set (st1 := listingStep st x) in *.
    set (st2 := fold_left listingStep l st1) in *.
    split; [eapply entity_steps_trans; eassumption|].
    split; [eapply extends_trans; eassumption|].
    split.
    + intros E. destruct (clean_between _ _ _ X1 X2 E) as [E1 E2].
      destruct (C1 E1) as (A1 & K1 & L1). destruct (C2 E2) as (A2 & K2 & L2).
      split; [|split].
      * constructor; [|exact A2].
        eapply listing_settled_grows; [|exact A1].
        now apply steps_entities_grow.
      * rewrite K2, K1. cbn [length]. lia.
      * rewrite L2, L1.
        change (artist_slots (x :: l)) with (listing_slots x + artist_slots l).
        lia.
    + intros F. inversion F as [|x' l' Fx Fl]; subst.
      pose proof (I1 Fx) as Q1.
      eapply same_entities_trans; [exact Q1|]. apply I2.
      eapply Forall_impl; [|exact Fl].
      intros b. apply listing_settled_grows. now apply same_entities_grow.
Qed.

End AnyStore.

End LoopFacts.

(** ** A whole run *)

Module RunFacts.
Import StoreFacts UpsertFacts LoopFacts.

Section AnyRun.

Variable unicodeLower : N -> jsstring.
Variable faults : Faults.
Variable network : N -> jsstring -> jsstring -> nat -> Reply.
Variable elapsed : N -> Z.
Variable fuel : nat.

Local Abbreviation processFetched := (processFetched unicodeLower faults).
Local Abbreviation syncArea := (syncArea unicodeLower faults network elapsed fuel).
Local Abbreviation syncAreas := (syncAreas unicodeLower faults network elapsed fuel).
Local Abbreviation main := (main unicodeLower faults network elapsed fuel).
Local Abbreviation listing_settled := (listing_settled unicodeLower).

Lemma processFetched_spec (areaName : jsstring)
    (fetched : result (list RAEventListing)) (s : Store) :
  let st := processFetched areaName fetched s in
  entity_steps s (snd st)
  /\ (errors (fst st) = [] ->
      exists listings,
        fetched = Ok listings
        /\ Forall (listing_settled (snd st)) listings
        /\ festivalsFound (fst st) = length listings
        /\ artistsFound (fst st) = artist_slots listings)
  /\ (forall listings,
        fetched = Ok listings ->
        Forall (listing_settled s) listings ->
        same_entities s (snd st)).
Proof.
  unfold Sync.processFetched. destruct fetched as [listings|m].
  - destruct (listings_loop_spec unicodeLower faults listings (no_counters, s))
      as (S1 & X1 & C1 & I1).
    cbn [fst snd errors no_counters festivalsFound artistsFound] in *.
    split; [exact S1|]. split.
    + intros E. destruct (C1 E) as (A & K & L).
      exists listings. rewrite K, L. repeat split; auto.
    + intros l [= <-]. exact I1.
  - cbn [fst snd errors push_error no_counters].
    split; [apply steps_done|]. split; [discriminate|].
    intros l [=].
Qed.

(** [syncArea] is its three stages in a row: fetch, reconcile, log. *)
Lemma syncArea_stages (areaName : jsstring) (areaId : N)
    (dateGte dateLte : jsstring) (s : Store)
    (fetched : result (list RAEventListing)) (trace : list Effect) :
  fetchRAEvents (network areaId dateGte dateLte) fuel = Some (fetched, trace) ->
  let st := processFetched areaName fetched s in
  let v := log_values (fst st) (elapsed areaId) in
  syncArea areaName areaId dateGte dateLte s
  = match faults (clock (snd st)) (InsertScrapeLog v) with
    | Some message => Some (Throw message, tick (snd st))
    | None => Some (Ok (fst st), add_log v (tick (snd st)))
    end.
Proof.
  intros F. unfold Sync.syncArea. rewrite F.
  destruct (processFetched areaName fetched s) as [c s1]. cbn [fst snd].
  unfold insertScrapeLog, statement.
  now destruct (faults (clock s1) _).
Qed.

Lemma syncArea_returns (areaName : jsstring) (areaId : N)
    (dateGte dateLte : jsstring) (s : Store) :
  fetchRAEvents (network areaId dateGte dateLte) fuel <> None
  <-> syncArea areaName areaId dateGte dateLte s <> None.
Proof.
  unfold Sync.syncArea.
  destruct (fetchRAEvents _ fuel) as [[fetched tr]|]; [|tauto].
  destruct (processFetched areaName fetched s) as [c s1].
  destruct (insertScrapeLog faults _ s1) as [[u|m] s2]; split; discriminate.
Qed.

(** What a call of [syncArea] that returns has done to the store. *)
Lemma syncArea_spec (areaName : jsstring) (areaId : N)
    (dateGte dateLte : jsstring) (s s' : Store) (out : result Counters) :
  syncArea areaName areaId dateGte dateLte s = Some (out, s') ->
  exists fetched trace s1,
    fetchRAEvents (network areaId dateGte dateLte) fuel = Some (fetched, trace)
    /\ s1 = snd (processFetched areaName fetched s)
    /\ entity_steps s s1
    /\ ((exists message, out = Throw message /\ s' = tick s1)
        \/ (out = Ok (fst (processFetched areaName fetched s))
            /\ s' = add_log (log_values (fst (processFetched areaName fetched s))
                               (elapsed areaId)) (tick s1))).
Proof.
  intros E.
  destruct (fetchRAEvents (network areaId dateGte dateLte) fuel)
    as [[fetched tr]|] eqn:F.
  2:{ unfold Sync.syncArea in E. rewrite F in E. discriminate. }
  rewrite (syncArea_stages areaName areaId dateGte dateLte s _ _ F) in E.
  exists fetched, tr, (snd (processFetched areaName fetched s)).
  split; [reflexivity|]. split; [reflexivity|].
  split; [apply processFetched_spec|].
  destruct (faults _ _) as [m|]; injection E as <- <-; [left; eauto | right; auto].
Qed.

End AnyRun.

(** No row that [syncArea] writes to the run log breaks a column constraint
    of the schema. *)
Lemma schema_accepts_logs (t : nat) (v : LogValues) :
  schema_faults t (InsertScrapeLog v) = None.
Proof. reflexivity. Qed.

(** The loop of [main]: one row per region that was synchronised. *)
Lemma syncAreas_logs (unicodeLower : N -> jsstring) (faults : Faults)
    (network : N -> jsstring -> jsstring -> nat -> Reply) (elapsed : N -> Z)
    (fuel : nat) (dateGte dateLte : jsstring) (areas : list (jsstring * N)) :
  forall (totals : nat * nat) (s s' : Store) (out : result (nat * nat)),
    syncAreas unicodeLower faults network elapsed fuel areas dateGte dateLte
      totals s = Some (out, s') ->
    exists rows,
      scrapeLogs s' = scrapeLogs s ++ rows
      /\ length rows <= length areas
      /\ (forall t, out = Ok t -> length rows = length areas).
Proof.
  induction areas as [|[name areaId] rest IH]; intros totals s s' out E;
    cbn [syncAreas] in E.
  - injection E as <- <-. exists []. rewrite app_nil_r. auto.
  - destruct (syncArea unicodeLower faults network elapsed fuel name areaId
                dateGte dateLte s) as [[[c|m] s1]|] eqn:E1; [| |discriminate].
    + destruct (syncArea_spec _ _ _ _ _ _ _ _ _ _ _ _ E1)
        as (fetched & tr & s0 & _ & _ & S0 & [(m & [=] & _)|([= Hc] & ->)]).
      destruct (IH _ _ _ _ E) as (rows & R & Hle & Hok).
      eexists (_ :: rows). split; [|split].
      * rewrite R. cbn [scrapeLogs add_log tick].
        rewrite (entity_steps_logs _ _ S0), <- app_assoc. reflexivity.
      * cbn [length]. lia.
      * intros t Ht. cbn [length]. now rewrite (Hok t Ht).
    + injection E as <- <-.
      destruct (syncArea_spec _ _ _ _ _ _ _ _ _ _ _ _ E1)
        as (fetched & tr & s0 & _ & _ & S0 & [(m' & _ & ->)|([=] & _)]).
      exists []. rewrite app_nil_r. cbn [scrapeLogs tick length].
      split; [now apply entity_steps_logs|]. split; [lia | discriminate].
Qed.

(** C5.  Whenever the pagination comes to an end, [syncArea] returns, and it
    has either been refused its log row (nothing is written then, and this
    does not happen when the store accepts log rows) or appended exactly one
    row, whose status is [success] when no error was collected and [partial]
    when one or more were, and whose error list is the first twenty of the
    errors collected, in the order they occurred. *)
Theorem run_log_classification (unicodeLower : N -> jsstring) (faults : Faults)
    (network : N -> jsstring -> jsstring -> nat -> Reply) (elapsed : N -> Z)
    (fuel : nat) (areaName : jsstring) (areaId : N)
    (dateGte dateLte : jsstring) (s : Store) :
  fetchRAEvents (network areaId dateGte dateLte) fuel <> None ->
  exists out s',
    syncArea unicodeLower faults network elapsed fuel areaName areaId
      dateGte dateLte s = Some (out, s')
    /\ ((forall t v, faults t (InsertScrapeLog v) = None) ->
        exists c, out = Ok c)
    /\ ((exists message, out = Throw message /\ scrapeLogs s' = scrapeLogs s)
        \/ (exists c row,
              out = Ok c
              /\ scrapeLogs s' = scrapeLogs s ++ [row]
              /\ (errors c = [] -> logs_status (values row) = lit "success")
              /\ (errors c <> [] -> logs_status (values row) = lit "partial")
              /\ logs_errors (values row) = firstn 20 (errors c)
              /\ length (logs_errors (values row)) <= 20
              /\ logs_festivalsFound (values row) = festivalsFound c
              /\ logs_artistsFound (values row) = artistsFound c)).
Proof.
  intros Hfetch.
  destruct (syncArea unicodeLower faults network elapsed fuel areaName areaId
              dateGte dateLte s) as [[out s']|] eqn:E.
  2:{ apply syncArea_returns with (unicodeLower := unicodeLower)
        (faults := faults) (elapsed := elapsed) (areaName := areaName) (s := s)
        in Hfetch. contradiction. }
  exists out, s'. split; [reflexivity|].
  destruct (syncArea_spec _ _ _ _ _ _ _ _ _ _ _ _ E)
    as (fetched & tr & s1 & F & _ & S1 & Hout).
  split.
  - intros Haccept.
    rewrite (syncArea_stages _ _ _ _ _ _ _ _ _ _ _ _ F), Haccept in E.
    injection E as <- _. eauto.
  - destruct Hout as [(m & -> & ->)|(-> & ->)].
    + left. exists m. split; [reflexivity|].
      cbn [scrapeLogs tick]. now apply entity_steps_logs.
    + right.
      set (c := fst (processFetched unicodeLower faults areaName fetched s)).
      exists c. eexists. split; [reflexivity|].
      cbn [scrapeLogs add_log tick]. rewrite (entity_steps_logs _ _ S1).
      split; [reflexivity|].
      cbn [values log_values logs_status logs_errors logs_festivalsFound
           logs_artistsFound].
      split; [intros ->; reflexivity|].
      split; [destruct (errors c); [contradiction | reflexivity]|].
      split; [reflexivity|].
      split; [apply firstn_le_length | auto].
Qed.

(** C8.  A run of [main] that comes to an end has appended at most one row
    to the run log and has left the rows that were there as they were: one
    row when it returns normally, none when it rejects.  It returns
    normally, with its one row, whenever the pagination of its region comes
    to an end and the store accepts the log row; it rejects, with no row,
    when the store refuses the log row; and it does not come to an end,
    with no row either, when the pagination does not. *)
Theorem main_writes_one_log_row (unicodeLower : N -> jsstring) (faults : Faults)
    (network : N -> jsstring -> jsstring -> nat -> Reply) (elapsed : N -> Z)
    (fuel : nat) (dateGte dateLte : jsstring) (s : Store) :
  (forall out s',
      main unicodeLower faults network elapsed fuel dateGte dateLte s
      = Some (out, s') ->
      exists rows,
        scrapeLogs s' = scrapeLogs s ++ rows
        /\ length rows <= 1
        /\ (forall t, out = Ok t -> length rows = 1)
        /\ (forall message, out = Throw message -> rows = []))
  /\ (fetchRAEvents (network 26%N dateGte dateLte) fuel <> None ->
      (forall t v, faults t (InsertScrapeLog v) = None) ->
      exists totals s' row,
        main unicodeLower faults network elapsed fuel dateGte dateLte s
        = Some (Ok totals, s')
        /\ scrapeLogs s' = scrapeLogs s ++ [row])
  /\ (forall fetched trace message,
      fetchRAEvents (network 26%N dateGte dateLte) fuel
      = Some (fetched, trace) ->
      let st :=
        processFetched unicodeLower faults (lit "Costa Rica") fetched s in
      faults (clock (snd st))
        (InsertScrapeLog (log_values (fst st) (elapsed 26%N)))
      = Some message ->
      exists s',
        main unicodeLower faults network elapsed fuel dateGte dateLte s
        = Some (Throw message, s')
        /\ scrapeLogs s' = scrapeLogs s)
  /\ (fetchRAEvents (network 26%N dateGte dateLte) fuel = None ->
      main unicodeLower faults network elapsed fuel dateGte dateLte s = None).
Proof.
  assert (Hlogs : forall fetched,
             scrapeLogs
               (snd (processFetched unicodeLower faults (lit "Costa Rica")
                       fetched s))
             = scrapeLogs s).
  { intros fetched.
    destruct (processFetched_spec unicodeLower faults (lit "Costa Rica")
                fetched s) as (S1 & _).
    exact (entity_steps_logs _ _ S1). }
  split; [|split; [|split]].
  - intros out s' E. unfold Sync.main, targetAreas in E. cbn [syncAreas] in E.
    destruct (fetchRAEvents (network 26%N dateGte dateLte) fuel)
      as [[fetched tr]|] eqn:F.
    2:{ unfold Sync.syncArea in E. rewrite F in E. discriminate E. }
    rewrite (syncArea_stages _ _ _ _ _ _ _ _ _ _ _ _ F) in E.
    destruct (faults _ _) as [m|]; injection E as <- <-.
    + exists []. rewrite app_nil_r. cbn [scrapeLogs tick length].
      split; [apply Hlogs|]. split; [lia|]. split; [discriminate | auto].
    + eexists [_]. cbn [scrapeLogs add_log tick length]. rewrite Hlogs.
      split; [reflexivity|]. split; [lia|]. split; [auto | discriminate].
  - intros Hfetch Haccept.
    destruct (fetchRAEvents (network 26%N dateGte dateLte) fuel)
      as [[fetched tr]|] eqn:F; [|contradiction].
    unfold Sync.main, targetAreas. cbn [syncAreas].
    rewrite (syncArea_stages _ _ _ _ _ _ _ _ _ _ _ _ F), Haccept.
    do 3 eexists. split; [reflexivity|].
    cbn [scrapeLogs add_log tick]. now rewrite Hlogs.
  - intros fetched trace message F st Hrefuse.
    unfold Sync.main, targetAreas. cbn [syncAreas].
    rewrite (syncArea_stages _ _ _ _ _ _ _ _ _ _ _ _ F). fold st.
    rewrite Hrefuse. eexists. split; [reflexivity|].
    cbn [scrapeLogs tick]. apply Hlogs.
  - intros F. unfold Sync.main, targetAreas. cbn [syncAreas].
    unfold Sync.syncArea. now rewrite F.
Qed.

Lemma syncArea_unique_lineups (unicodeLower : N -> jsstring) (faults : Faults)
    (network : N -> jsstring -> jsstring -> nat -> Reply) (elapsed : N -> Z)
    (fuel : nat) (areaName : jsstring) (areaId : N)
    (dateGte dateLte : jsstring) (s s' : Store) (out : result Counters) :
  unique_lineups s ->
  syncArea unicodeLower faults network elapsed fuel areaName areaId
    dateGte dateLte s = Some (out, s') ->
  unique_lineups s'.
Proof.
  intros U E.
  destruct (syncArea_spec _ _ _ _ _ _ _ _ _ _ _ _ E)
    as (fetched & tr & s1 & _ & _ & S1 & [(m & _ & ->)|(_ & ->)]);
    apply (entity_steps_unique_lineups _ _ S1) in U; exact U.
Qed.

Lemma syncAreas_unique_lineups (unicodeLower : N -> jsstring) (faults : Faults)
    (network : N -> jsstring -> jsstring -> nat -> Reply) (elapsed : N -> Z)
    (fuel : nat) (dateGte dateLte : jsstring) (areas : list (jsstring * N)) :
  forall (totals : nat * nat) (s s' : Store) (out : result (nat * nat)),
    unique_lineups s ->
    syncAreas unicodeLower faults network elapsed fuel areas dateGte dateLte
      totals s = Some (out, s') ->
    unique_lineups s'.
Proof.
  induction areas as [|[name areaId] rest IH]; intros totals s s' out U E;
    cbn [syncAreas] in E.
  - now injection E as <- <-.
  - destruct (syncArea unicodeLower faults network elapsed fuel name areaId
                dateGte dateLte s) as [[[c|m] s1]|] eqn:E1; [| |discriminate];
      pose proof (syncArea_unique_lineups _ _ _ _ _ _ _ _ _ _ _ _ U E1) as U1.
    + eapply IH; eassumption.
    + now injection E as <- <-.
Qed.

(** C3.  Linking a pair that is already linked changes no table and raises
    nothing of its own; so does linking a second time what was just linked.
    No run of [syncArea] or of [main] ever brings a second row for a pair: a
    store without duplicate pairs, such as the empty one, stays so. *)
Theorem lineup_pairs_stay_unique :
  (forall (faults : Faults) (v : LineupValues) (s : Store),
      existsb (same_pair v) (festivalLineups s) = true ->
      same_entities s (snd (insertLineupOnConflictDoNothing faults v s))
      /\ (faults (clock s) (InsertLineup v) = None ->
          fst (insertLineupOnConflictDoNothing faults v s) = Ok tt))
  /\ (forall (faults : Faults) (v : LineupValues) (s : Store),
      let first := insertLineupOnConflictDoNothing faults v s in
      let second := insertLineupOnConflictDoNothing faults v (snd first) in
      fst first = Ok tt ->
      festivalLineups (snd second) = festivalLineups (snd first)
      /\ (faults (clock (snd first)) (InsertLineup v) = None ->
          fst second = Ok tt))
  /\ (forall unicodeLower faults network elapsed fuel areaName areaId
        dateGte dateLte s s' out,
      unique_lineups s ->
      syncArea unicodeLower faults network elapsed fuel areaName areaId
        dateGte dateLte s = Some (out, s') ->
      unique_lineups s')
  /\ (forall unicodeLower faults network elapsed fuel dateGte dateLte s s' out,
      unique_lineups s ->
      main unicodeLower faults network elapsed fuel dateGte dateLte s
      = Some (out, s') ->
      unique_lineups s')
  /\ unique_lineups empty_store.
Proof.
  assert (relink : forall (faults : Faults) (v : LineupValues) (s : Store),
             existsb (same_pair v) (festivalLineups s) = true ->
             same_entities s (snd (insertLineupOnConflictDoNothing faults v s))
             /\ (faults (clock s) (InsertLineup v) = None ->
                 fst (insertLineupOnConflictDoNothing faults v s) = Ok tt)).
  { intros faults v s X.
    destruct (insertLineup_cases faults v s)
      as [(_ & _ & E)|[(X' & _)|(m & Hm & E)]]; [| congruence |];
      rewrite E; cbn [fst snd]; (split; [apply same_entities_tick|]);
      [reflexivity | congruence]. }
  split; [exact relink|]. split; [|split; [|split]].
  - intros faults v s first second Hok.
    destruct (insertLineupOnConflictDoNothing faults v s) as [out s1] eqn:E.
    destruct (insertLineup_result _ _ _ _ _ E) as (_ & O & _).
    subst first. cbn [fst snd] in *. subst out.
    destruct (relink faults v s1 (O tt eq_refl)) as [(_ & _ & _ & Q) K].
    subst second. split; [now rewrite <- Q | exact K].
  - intros. eapply syncArea_unique_lineups; eassumption.
  - intros until out. intros U E. unfold Sync.main in E.
    eapply syncAreas_unique_lineups; eassumption.
  - constructor.
Qed.

(** C6.  When the upsert of one artist of a listing throws, the loop goes on
    with the artists after it, from the store as the failed upsert left it;
    the error is recorded as the string [Artist <name>: <message>], with the
    name of the artist and the message that was thrown; every later artist
    ends up in the [artists] table or with such an error of its own; and the
    venue and festival rows of the listing, made before the loop, are still
    there. *)
Theorem artist_failure_is_isolated (unicodeLower : N -> jsstring)
    (faults : Faults) (listing : RAEventListing) (event : RAEvent)
    (c : Counters) (s s1 s2 s3 : Store) (venueId : option uuid)
    (festivalId : uuid) (before after : list RAArtist) (artist : RAArtist)
    (message : jsstring) :
  listing_event listing = Some event ->
  upsertVenue faults event s = (Ok venueId, s1) ->
  upsertFestival unicodeLower faults event venueId s1 = (Ok festivalId, s2) ->
  artists_of event = before ++ artist :: after ->
  let reached :=
    fold_left (artistStep unicodeLower faults festivalId event) before
      (count_festival c, s2) in
  upsertArtist unicodeLower faults artist (snd reached) = (Throw message, s3) ->
  let final := listingStep unicodeLower faults (c, s) listing in
  final
  = fold_left (artistStep unicodeLower faults festivalId event) after
      (push_error (lit "Artist " ++ artist_name artist ++ lit ": " ++ message)
         (fst reached), s3)
  /\ In (lit "Artist " ++ artist_name artist ++ lit ": " ++ message)
       (errors (fst final))
  /\ Forall (artist_handled unicodeLower final) after
  /\ (exists f, In f (festivals (snd final)) /\ id f = festivalId)
  /\ (forall i, venueId = Some i ->
      exists v, In v (venues (snd final)) /\ id v = i)
  /\ festivalsFound (fst final) = S (festivalsFound c).
Proof.
  intros Hev E1 E2 Hl reached E3 final.
  assert (Hfinal : final
                   = fold_left (artistStep unicodeLower faults festivalId event)
                       after
                       (push_error (artist_error artist message) (fst reached),
                        s3)).
  { subst final. unfold Sync.listingStep. rewrite Hev, E1, E2, Hl.
    rewrite fold_left_app. cbn [fold_left]. fold reached.
    f_equal. unfold Sync.artistStep.
    destruct reached as [ck sk]. cbn [fst snd] in *. now rewrite E3. }
  split; [exact Hfinal|].
  destruct (artists_loop_spec unicodeLower faults festivalId event before
              (count_festival c, s2)) as (Sb & _ & Nb & _).
  fold reached in Sb, Nb. cbn [fst snd] in Sb, Nb.
  destruct (artists_loop_spec unicodeLower faults festivalId event after
              (push_error (artist_error artist message) (fst reached), s3))
    as (Sa & Xa & Na & _ & _ & Ha).
  rewrite <- Hfinal in Sa, Xa, Na, Ha. cbn [fst snd] in Sa, Xa, Na.
  destruct (upsertArtist_result _ _ _ _ _ _ E3) as (S3 & _).
  destruct (upsertFestival_result _ _ _ _ _ _ _ E2) as (S2 & O2 & _).
  destruct (upsertVenue_result _ _ _ _ _ E1) as (_ & O1 & _).
  assert (G2 : grows s2 (snd final)).
  { apply entity_steps_grows.
    eapply entity_steps_trans; [exact Sb|].
    eapply entity_steps_trans; eassumption. }
  split; [|split; [exact Ha|split; [|split]]].
  - eapply extends_In; [exact Xa|].
    cbn [errors push_error]. apply in_or_app. right. now left.
  - destruct (O2 festivalId eq_refl) as (f & Ff & Hid).
    exists f. split; [|exact Hid].
    apply find_some in Ff. destruct G2 as (_ & _ & Gf & _).
    eapply extends_In; [exact Gf | apply Ff].
  - intros i Hi. destruct (O1 venueId eq_refl) as [_ Hv].
    destruct (Hv i Hi) as (v & Hin & Hid). exists v. split; [|exact Hid].
    pose proof (entity_steps_grows _ _ S2) as (Gv1 & _).
    destruct G2 as (Gv2 & _).
    eapply extends_In; [exact Gv2|]. eapply extends_In; eassumption.
  - rewrite Na. cbn [festivalsFound push_error]. rewrite Nb. reflexivity.
Qed.

Lemma same_entities_logged (v : LogValues) (s : Store) :
  same_entities s (add_log v (tick s)).
Proof. repeat split. Qed.

(** After a run that collected no error, everything its listings ask for is
    in the store, and the counters are the numbers of listings and of artist
    occurrences. *)
Lemma clean_run_settles (unicodeLower : N -> jsstring) (faults : Faults)
    (network : N -> jsstring -> jsstring -> nat -> Reply) (elapsed : N -> Z)
    (fuel : nat) (areaName : jsstring) (areaId : N)
    (dateGte dateLte : jsstring) (listings : list RAEventListing)
    (trace : list Effect) (s s' : Store) (c : Counters) :
  fetchRAEvents (network areaId dateGte dateLte) fuel
  = Some (Ok listings, trace) ->
  syncArea unicodeLower faults network elapsed fuel areaName areaId
    dateGte dateLte s = Some (Ok c, s') ->
  errors c = [] ->
  Forall (listing_settled unicodeLower s') listings
  /\ festivalsFound c = length listings
  /\ artistsFound c = artist_slots listings
  /\ exists row,
      scrapeLogs s' = scrapeLogs s ++ [row]
      /\ values row = log_values c (elapsed areaId).
Proof.
  intros F E Hclean.
  rewrite (syncArea_stages _ _ _ _ _ _ _ _ _ _ _ _ F) in E.
  destruct (processFetched_spec unicodeLower faults areaName (Ok listings) s)
    as (S1 & C1 & _).
  destruct (faults _ _) as [m|]; [discriminate|].
  injection E as <- <-.
  destruct (C1 Hclean) as (l' & [= <-] & A & K & L).
  split; [|split; [exact K | split; [exact L|]]].
  - eapply Forall_impl; [|exact A].
    intros x. apply listing_settled_grows, same_entities_grow.
    apply same_entities_logged.
  - pose proof (entity_steps_logs _ _ S1) as Hlogs.
    unfold Sync.processFetched in Hlogs |- *.
    eexists. cbn [scrapeLogs add_log tick]. rewrite Hlogs. split; reflexivity.
Qed.

(** A run over listings that are all settled changes no entity table,
    whatever the store refuses on the way. *)
Lemma settled_run_is_inert (unicodeLower : N -> jsstring) (faults : Faults)
    (network : N -> jsstring -> jsstring -> nat -> Reply) (elapsed : N -> Z)
    (fuel : nat) (areaName : jsstring) (areaId : N)
    (dateGte dateLte : jsstring) (listings : list RAEventListing)
    (trace : list Effect) (s : Store) :
  fetchRAEvents (network areaId dateGte dateLte) fuel
  = Some (Ok listings, trace) ->
  Forall (listing_settled unicodeLower s) listings ->
  exists out s',
    syncArea unicodeLower faults network elapsed fuel areaName areaId
      dateGte dateLte s = Some (out, s')
    /\ same_entities s s'.
Proof.
  intros F A.
  rewrite (syncArea_stages _ _ _ _ _ _ _ _ _ _ _ _ F).
  destruct (processFetched_spec unicodeLower faults areaName (Ok listings) s)
    as (_ & _ & I1).
  pose proof (I1 listings eq_refl A) as Q.
  destruct (faults _ _) as [m|]; do 2 eexists; (split; [reflexivity|]);
    (eapply same_entities_trans; [exact Q|]).
  - apply same_entities_tick.
  - apply same_entities_logged.
Qed.

(** After a first call of [syncArea] that collected no error, a second call
    over the same listings inserts no entity row. *)
Lemma clean_syncArea_is_idempotent (unicodeLower : N -> jsstring)
    (faults1 faults2 : Faults)
    (network1 network2 : N -> jsstring -> jsstring -> nat -> Reply)
    (elapsed1 elapsed2 : N -> Z) (fuel1 fuel2 : nat)
    (areaName : jsstring) (areaId : N)
    (dateGte1 dateLte1 dateGte2 dateLte2 : jsstring)
    (listings : list RAEventListing) (trace1 trace2 : list Effect)
    (s0 s1 : Store) (c1 : Counters) :
  fetchRAEvents (network1 areaId dateGte1 dateLte1) fuel1
  = Some (Ok listings, trace1) ->
  fetchRAEvents (network2 areaId dateGte2 dateLte2) fuel2
  = Some (Ok listings, trace2) ->
  syncArea unicodeLower faults1 network1 elapsed1 fuel1 areaName areaId
    dateGte1 dateLte1 s0 = Some (Ok c1, s1) ->
  errors c1 = [] ->
  exists out2 s2,
    syncArea unicodeLower faults2 network2 elapsed2 fuel2 areaName areaId
      dateGte2 dateLte2 s1 = Some (out2, s2)
    /\ same_entities s1 s2.
Proof.
  intros F1 F2 E1 Hclean.
  destruct (clean_run_settles _ _ _ _ _ _ _ _ _ _ _ _ _ _ F1 E1 Hclean)
    as (A & _).
  apply (settled_run_is_inert unicodeLower faults2 network2 elapsed2 fuel2
           areaName areaId dateGte2 dateLte2 listings trace2 s1 F2 A).
Qed.

(** [main] is [syncArea] on its one region. *)
Lemma main_is_one_syncArea (unicodeLower : N -> jsstring) (faults : Faults)
    (network : N -> jsstring -> jsstring -> nat -> Reply) (elapsed : N -> Z)
    (fuel : nat) (dateGte dateLte : jsstring) (s : Store) :
  main unicodeLower faults network elapsed fuel dateGte dateLte s
  = match syncArea unicodeLower faults network elapsed fuel (lit "Costa Rica")
            26%N dateGte dateLte s with
    | None => None
    | Some (Throw message, s1) => Some (Throw message, s1)
    | Some (Ok r, s1) => Some (Ok (festivalsFound r, artistsFound r), s1)
    end.
Proof.
  unfold Sync.main, targetAreas. cbn [syncAreas].
  destruct (syncArea _ _ _ _ _ _ _ _ _ _) as [[[r|m] s1]|]; reflexivity.
Qed.

Lemma success_means_no_error (c : Counters) (duration : Z) :
  logs_status (log_values c duration) = lit "success" -> errors c = [].
Proof.
  unfold log_values. cbn [logs_status].
  destruct (errors c); [reflexivity | intros H; vm_compute in H; discriminate H].
Qed.

(** C1.  When a first run over the listings has collected no error, a second
    run over the same listings, against the store that the first one left,
    returns and inserts no venue, artist, festival or lineup row, whatever
    the store refuses during the second run.  This holds of [syncArea] for
    any region and of [main], whose first run has collected no error when
    the row it appended to the run log says [success]. *)
Theorem second_sync_inserts_nothing (unicodeLower : N -> jsstring)
    (faults1 faults2 : Faults)
    (network1 network2 : N -> jsstring -> jsstring -> nat -> Reply)
    (elapsed1 elapsed2 : N -> Z) (fuel1 fuel2 : nat)
    (dateGte1 dateLte1 dateGte2 dateLte2 : jsstring) (s0 s1 : Store) :
  (forall areaName areaId listings trace1 trace2 c1,
      fetchRAEvents (network1 areaId dateGte1 dateLte1) fuel1
      = Some (Ok listings, trace1) ->
      fetchRAEvents (network2 areaId dateGte2 dateLte2) fuel2
      = Some (Ok listings, trace2) ->
      syncArea unicodeLower faults1 network1 elapsed1 fuel1 areaName areaId
        dateGte1 dateLte1 s0 = Some (Ok c1, s1) ->
      errors c1 = [] ->
      exists out2 s2,
        syncArea unicodeLower faults2 network2 elapsed2 fuel2 areaName areaId
          dateGte2 dateLte2 s1 = Some (out2, s2)
        /\ venues s2 = venues s1
        /\ artists s2 = artists s1
        /\ festivals s2 = festivals s1
        /\ festivalLineups s2 = festivalLineups s1)
  /\ (forall listings trace1 trace2 totals1 rows row,
      fetchRAEvents (network1 26%N dateGte1 dateLte1) fuel1
      = Some (Ok listings, trace1) ->
      fetchRAEvents (network2 26%N dateGte2 dateLte2) fuel2
      = Some (Ok listings, trace2) ->
      main unicodeLower faults1 network1 elapsed1 fuel1 dateGte1 dateLte1 s0
      = Some (Ok totals1, s1) ->
      scrapeLogs s1 = rows ++ [row] ->
      logs_status (values row) = lit "success" ->
      exists out2 s2,
        main unicodeLower faults2 network2 elapsed2 fuel2 dateGte2 dateLte2 s1
        = Some (out2, s2)
        /\ venues s2 = venues s1
        /\ artists s2 = artists s1
        /\ festivals s2 = festivals s1
        /\ festivalLineups s2 = festivalLineups s1).
Proof.
  split.
  - intros areaName areaId listings trace1 trace2 c1 F1 F2 E1 Hclean.
    destruct (clean_syncArea_is_idempotent unicodeLower faults1 faults2
                network1 network2 elapsed1 elapsed2 fuel1 fuel2 areaName areaId
                dateGte1 dateLte1 dateGte2 dateLte2 listings trace1 trace2
                s0 s1 c1 F1 F2 E1 Hclean)
      as (out2 & s2 & E2 & Q1 & Q2 & Q3 & Q4).
    exists out2, s2. auto.
  - intros listings trace1 trace2 totals1 rows row F1 F2 E1 Hlogs Hstatus.
    rewrite main_is_one_syncArea in E1.
    destruct (syncArea unicodeLower faults1 network1 elapsed1 fuel1
                (lit "Costa Rica") 26%N dateGte1 dateLte1 s0)
      as [[[c1|m] s1']|] eqn:E; [|discriminate|discriminate].
    injection E1 as _ <-.
    assert (Hclean : errors c1 = []).
    { rewrite (syncArea_stages _ _ _ _ _ _ _ _ _ _ _ _ F1) in E.
      destruct (faults1 _ _); [discriminate|]. injection E as <- <-.
      cbn [scrapeLogs add_log tick] in Hlogs.
      apply app_inj_tail in Hlogs as [_ <-].
      now apply success_means_no_error in Hstatus. }
    destruct (clean_syncArea_is_idempotent unicodeLower faults1 faults2
                network1 network2 elapsed1 elapsed2 fuel1 fuel2
                (lit "Costa Rica") 26%N
                dateGte1 dateLte1 dateGte2 dateLte2 listings trace1 trace2
                s0 s1' c1 F1 F2 E Hclean)
      as (out2 & s2 & E2 & Q1 & Q2 & Q3 & Q4).
    rewrite main_is_one_syncArea, E2.
    destruct out2 as [c2|m2]; do 2 eexists; (split; [reflexivity|]); auto.
Qed.

(** C10.  [artistsFound] goes up by one at every artist occurrence
    whose upsert returns, and [festivalsFound] at every listing whose venue
    and festival upserts return, whether the rows were found or created.  A
    run that collected no error therefore reports the number of its listings
    and the number of their artist occurrences, whatever the store held
    before; a second such run over the same listings reports the same two
    numbers in its log row, not zero when there is a listing, and inserts no
    row. *)
Theorem run_log_counts_occurrences (unicodeLower : N -> jsstring) :
  (forall faults festivalId event st artist,
      let st' := artistStep unicodeLower faults festivalId event st artist in
      artistsFound (fst st')
      = artistsFound (fst st)
        + (if completed (upsertArtist unicodeLower faults artist (snd st))
           then 1 else 0)
      /\ festivalsFound (fst st') = festivalsFound (fst st))
  /\ (forall faults st listing,
      festivalsFound (fst (listingStep unicodeLower faults st listing))
      = festivalsFound (fst st)
        + (if festival_upserted unicodeLower faults listing (snd st)
           then 1 else 0))
  /\ (forall faults1 faults2 network1 network2 elapsed1 elapsed2 fuel1 fuel2
        areaName areaId dateGte dateLte listings trace1 trace2 s0 s1 s2 c1 c2,
      fetchRAEvents (network1 areaId dateGte dateLte) fuel1
      = Some (Ok listings, trace1) ->
      fetchRAEvents (network2 areaId dateGte dateLte) fuel2
      = Some (Ok listings, trace2) ->
      syncArea unicodeLower faults1 network1 elapsed1 fuel1 areaName areaId
        dateGte dateLte s0 = Some (Ok c1, s1) ->
      errors c1 = [] ->
      syncArea unicodeLower faults2 network2 elapsed2 fuel2 areaName areaId
        dateGte dateLte s1 = Some (Ok c2, s2) ->
      errors c2 = [] ->
      festivalsFound c1 = length listings
      /\ artistsFound c1 = artist_slots listings
      /\ festivalsFound c2 = festivalsFound c1
      /\ artistsFound c2 = artistsFound c1
      /\ (listings <> [] -> 0 < festivalsFound c2)
      /\ same_entities s1 s2
      /\ exists row,
          scrapeLogs s2 = scrapeLogs s1 ++ [row]
          /\ logs_festivalsFound (values row) = length listings
          /\ logs_artistsFound (values row) = artist_slots listings).
Proof.
  split; [|split].
  - intros faults festivalId event [c s] artist. unfold Sync.artistStep.
    cbn [fst snd].
    destruct (upsertArtist unicodeLower faults artist s) as [[i|m] s1];
      cbn [completed].
    + destruct (insertLineupOnConflictDoNothing faults _ s1) as [[u|m] s2];
        cbn [fst artistsFound festivalsFound count_artist push_error];
        split; lia.
    + cbn [fst artistsFound festivalsFound push_error]. split; lia.
  - intros faults [c s] listing. unfold Sync.listingStep, festival_upserted.
    cbn [fst snd].
    destruct (listing_event listing) as [event|];
      [|cbn [fst festivalsFound push_error]; lia].
    destruct (upsertVenue faults event s) as [[venueId|m] s1];
      [|cbn [fst festivalsFound push_error]; lia].
    destruct (upsertFestival unicodeLower faults event venueId s1)
      as [[festivalId|m] s2]; cbn [completed];
      [|cbn [fst festivalsFound push_error]; lia].
    destruct (artists_loop_spec unicodeLower faults festivalId event
                (artists_of event) (count_festival c, s2)) as (_ & _ & N & _).
    rewrite N. cbn [fst festivalsFound count_festival]. lia.
  - intros until c2. intros F1 F2 E1 H1 E2 H2.
    destruct (clean_run_settles _ _ _ _ _ _ _ _ _ _ _ _ _ _ F1 E1 H1)
      as (A1 & K1 & L1 & _).
    destruct (clean_run_settles _ _ _ _ _ _ _ _ _ _ _ _ _ _ F2 E2 H2)
      as (_ & K2 & L2 & row & R & V).
    destruct (settled_run_is_inert unicodeLower faults2 network2 elapsed2 fuel2
                areaName areaId dateGte dateLte listings trace2 s1 F2 A1)
      as (out & s2' & E2' & Q).
    rewrite E2 in E2'. injection E2' as <- <-.
    split; [exact K1|]. split; [exact L1|].
    split; [congruence|]. split; [congruence|].
    split; [|split; [exact Q|]].
    + intros Hne. rewrite K2. destruct listings; [contradiction | cbn; lia].
    + exists row. split; [exact R|]. rewrite V. cbn. auto.
Qed.

End RunFacts.

(** ** The theorems at work on concrete runs *)

Module Runs.
Import ClientFacts RunFacts.

(** The end-to-end example of the specification: one venue, one festival
    with slug [envision-festival-123], two artists [bob-moses] and [clozee],
    two lineup rows and a log row [1, 2, success]. *)
Example envision_end_to_end :
  option_map (fun c => (festivalsFound c, artistsFound c, errors c))
    (counters_after envision_first_run) = Some (1, 2, [])
  /\ row_counts (store_after envision_first_run) = [1; 2; 1; 2; 1]
  /\ map (fun r => (venues_name (values r), venues_city (values r)))
       (venues (store_after envision_first_run))
     = [(lit "Rancho La Merced", Some (lit "Uvita"))]
  /\ map (fun r => festivals_slug (values r))
       (festivals (store_after envision_first_run))
     = [lit "envision-festival-123"]
  /\ map (fun r => artists_slug (values r))
       (artists (store_after envision_first_run))
     = [lit "bob-moses"; lit "clozee"]
  /\ map (fun r => logs_status (values r))
       (scrapeLogs (store_after envision_first_run))
     = [lit "success"].
Proof. vm_compute. repeat split. Qed.

Lemma second_sync_inserts_nothing_witness :
  exists out2 s2,
    envision_second_run = Some (out2, s2)
    /\ venues s2 = venues (store_after envision_first_run)
    /\ artists s2 = artists (store_after envision_first_run)
    /\ festivals s2 = festivals (store_after envision_first_run)
    /\ festivalLineups s2 = festivalLineups (store_after envision_first_run).
Proof.
  unfold envision_second_run, sync_once.
  destruct (second_sync_inserts_nothing latin1Lower schema_faults schema_faults
              (one_page [envision]) (one_page [envision])
              (fun _ => 5%Z) (fun _ => 5%Z) 3 3
              (lit "2026-01-01") (lit "2026-04-01")
              (lit "2026-01-01") (lit "2026-04-01")
              empty_store (store_after envision_first_run)) as [H _].
  eapply (H (lit "Costa Rica") 26%N [envision]).
  - reflexivity.
  - reflexivity.
  - vm_compute. reflexivity.
  - reflexivity.
Defined.

(** With the column constraints of the schema, a second run over the two
    listings of [club_nights] inserts a festival row: the venue insert of the
    first listing is refused in the first run, the second listing creates a
    venue of the same name, and the second run finds it. *)
Lemma second_sync_inserts_a_festival :
  club_first_run <> None
  /\ club_second_run <> None
  /\ option_map (fun c => length (errors c)) (counters_after club_first_run)
     = Some 1
  /\ map (fun r => festivals_slug (values r))
       (festivals (store_after club_first_run))
     = [lit "night-two-2"]
  /\ map (fun r => festivals_slug (values r))
       (festivals (store_after club_second_run))
     = [lit "night-two-2"; lit "night-one-1"].
Proof.
  vm_compute. repeat split; discriminate.
Qed.

Lemma run_log_counts_occurrences_witness :
  exists row,
    scrapeLogs (store_after envision_second_run)
    = scrapeLogs (store_after envision_first_run) ++ [row]
    /\ logs_festivalsFound (values row) = 1
    /\ logs_artistsFound (values row) = 2.
Proof.
  destruct (run_log_counts_occurrences latin1Lower) as (_ & _ & H).
  destruct (H schema_faults schema_faults (one_page [envision])
              (one_page [envision]) (fun _ => 5%Z) (fun _ => 5%Z) 3 3
              (lit "Costa Rica") 26%N (lit "2026-01-01") (lit "2026-04-01")
              [envision]
              [Request 1; ConsoleLog (page_line 1 1 1)]
              [Request 1; ConsoleLog (page_line 1 1 1)]
              empty_store (store_after envision_first_run)
              (store_after envision_second_run)
              {| festivalsFound := 1; artistsFound := 2; errors := [] |}
              {| festivalsFound := 1; artistsFound := 2; errors := [] |}
              eq_refl eq_refl)
    as (_ & _ & _ & _ & _ & _ & row & R & K & L).
  - vm_compute. reflexivity.
  - reflexivity.
  - vm_compute. reflexivity.
  - reflexivity.
  - exists row. split; [exact R|]. split; [exact K | exact L].
Defined.

(** With the column constraints of the schema, the two runs over [two_djs]
    report different numbers of artists, one and then two: the insert of the
    first artist is refused in the first run, and the second run finds the
    row that the second artist created under the same slug.  No row is
    inserted by the second run. *)
Lemma second_sync_reports_other_counts :
  option_map artistsFound (counters_after djs_first_run) = Some 1
  /\ option_map artistsFound (counters_after djs_second_run) = Some 2
  /\ map (fun r => logs_artistsFound (values r))
       (scrapeLogs (store_after djs_second_run)) = [1; 2]
  /\ firstn 4 (row_counts (store_after djs_second_run))
     = firstn 4 (row_counts (store_after djs_first_run)).
Proof.
  vm_compute. repeat split.
Qed.

Lemma lineup_pairs_stay_unique_witness :
  unique_lineups (store_after envision_second_run).
Proof.
  destruct lineup_pairs_stay_unique as (_ & _ & H & _ & U0).
  eapply (H latin1Lower schema_faults (one_page [envision]) (fun _ => 5%Z) 3
            (lit "Costa Rica") 26%N (lit "2026-01-01") (lit "2026-04-01")
            (store_after envision_first_run)).
  - eapply (H latin1Lower schema_faults (one_page [envision]) (fun _ => 5%Z) 3
              (lit "Costa Rica") 26%N (lit "2026-01-01") (lit "2026-04-01")
              empty_store).
    + exact U0.
    + vm_compute. reflexivity.
  - vm_compute. reflexivity.
Defined.

(** Three pages of one, one and zero listings: three requests, a pause
    after each of the first two, and the two listings in order. *)
Example three_pages_trace :
  fetchRAEvents three_pages 10
  = Some (Ok [envision; envision],
          [Request 1; ConsoleLog (lit "  Page 1: 1 events (total: 1)");
           Sleep 1500;
           Request 2; ConsoleLog (lit "  Page 2: 1 events (total: 2)");
           Sleep 1500;
           Request 3]).
Proof. reflexivity. Qed.

Lemma fetchRAEvents_pagination_witness :
  exists tr,
    fetchRAEvents three_pages 3 = Some (Ok [envision; envision], tr)
    /\ requests tr = [1; 2; 3].
Proof.
  destruct (fetchRAEvents_pagination three_pages) as (_ & H & _).
  apply (H [([envision], 5%Z); ([envision], 5%Z)] 3).
  - cbn. repeat split; (discriminate || lia).
  - exact I.
  - cbn. lia.
Defined.

Lemma fetchRAEvents_http_failure_witness :
  fetchRAEvents failing_second_page 5
  = Some (Ok [envision],
          [Request 1; ConsoleLog (page_line 1 1 1); Sleep 1500; Request 2;
           ConsoleError (lit "RA API error: 503 Service Unavailable")]).
Proof.
  destruct (fetchRAEvents_http_failure failing_second_page 503
              (lit "Service Unavailable")) as (_ & _ & H).
  apply (H [([envision], 5%Z)] 5).
  - cbn. repeat split; (discriminate || lia).
  - reflexivity.
  - cbn. lia.
Defined.

Lemma run_log_classification_witness :
  exists row,
    scrapeLogs (store_after djs_first_run) = [row]
    /\ logs_status (values row) = lit "partial"
    /\ length (logs_errors (values row)) <= 20.
Proof.
  destruct (run_log_classification latin1Lower schema_faults (one_page two_djs)
              (fun _ => 5%Z) 3 (lit "Costa Rica") 26%N (lit "2026-01-01")
              (lit "2026-04-01") empty_store)
    as (out & s' & E & _ & [(m & -> & _)|(c & row & -> & R & _ & P & _ & B & _)]).
  - vm_compute. discriminate.
  - vm_compute in E. discriminate E.
  - assert (Hs : s' = store_after djs_first_run).
    { unfold djs_first_run, sync_once. now rewrite E. }
    assert (Hc : errors c <> []).
    { vm_compute in E. injection E as <- _. discriminate. }
    exists row. rewrite <- Hs. split; [exact R|]. split; [now apply P | exact B].
Defined.

Lemma artist_failure_is_isolated_witness :
  In (lit "Artist " ++ artist_name dj_long ++ lit ": "
        ++ value_too_long "255")
    (errors (fst (listingStep latin1Lower schema_faults
                    (no_counters, empty_store) (plain_listing dj_event))))
  /\ Forall
       (artist_handled latin1Lower
          (listingStep latin1Lower schema_faults (no_counters, empty_store)
             (plain_listing dj_event)))
       [dj_short].
Proof.
  edestruct (artist_failure_is_isolated latin1Lower schema_faults
               (plain_listing dj_event) dj_event no_counters empty_store)
    with (before := @nil RAArtist) (artist := dj_long) (after := [dj_short])
    as (_ & H1 & H2 & _).
  - reflexivity.
  - vm_compute. reflexivity.
  - vm_compute. reflexivity.
  - reflexivity.
  - vm_compute. reflexivity.
  - split; [exact H1 | exact H2].
Defined.

Lemma main_writes_one_log_row_witness :
  exists totals s' row,
    main latin1Lower schema_faults (one_page [envision]) (fun _ => 5%Z) 3
      (lit "2026-01-01") (lit "2026-04-01") empty_store
    = Some (Ok totals, s')
    /\ scrapeLogs s' = scrapeLogs empty_store ++ [row].
Proof.
  destruct (main_writes_one_log_row latin1Lower schema_faults
              (one_page [envision]) (fun _ => 5%Z) 3
              (lit "2026-01-01") (lit "2026-04-01") empty_store) as (_ & H & _).
  apply H.
  - vm_compute. discriminate.
  - intros t v. reflexivity.
Defined.

(** A run of [main] that writes no row.  The only artist of the one listing
    has a name with the code unit U+0000: the store refuses the artist, the
    error is recorded with the name in it, and the store then refuses the log
    row that carries this error: [main] rejects, and the run log is as empty
    as it was, although a festival was written. *)
Lemma main_can_write_no_row :
  exists s',
    nul_run = Some (Throw nul_in_jsonb, s')
    /\ scrapeLogs s' = []
    /\ length (festivals s') = 1
    /\ artists s' = [].
Proof.
  eexists. split; [vm_compute; reflexivity|]. repeat split.
Qed.

End Runs.

(** ** More about the client *)

Module ClientShapeFacts.
Import ClientFacts.

Lemma skeleton_app (a b : list Effect) :
  skeleton (a ++ b) = skeleton a ++ skeleton b.
Proof. unfold skeleton. apply filter_app. Qed.

Lemma paced_next (page n : nat) :
  1 <= n -> paced page (S n) = Request page :: Sleep 1500 :: paced (S page) n.
Proof. destruct n; [lia | reflexivity]. Qed.

Section AnyServer.

Variable server : nat -> Reply.

Lemma fetch_loop_paced (fuel : nat) :
  forall page allEvents trace out trace',
    fetch_loop server fuel page allEvents trace = Some (out, trace') ->
    exists tr n,
      trace' = trace ++ tr /\ 1 <= n <= fuel /\ skeleton tr = paced page n.
Proof.
  induction fuel as [|fuel IH]; intros page allEvents trace out trace' E;
    [discriminate|].
  cbn [fetch_loop] in E.
  destruct (server page) as [m|st txt|m|[[|l ls]|] total].
  - injection E as <- <-. exists [Request page], 1. repeat split; lia.
  - injection E as <- <-. rewrite <- app_assoc.
    eexists _, 1. split; [reflexivity|]. repeat split; lia.
  - injection E as <- <-. exists [Request page], 1. repeat split; lia.
  - injection E as <- <-. exists [Request page], 1. repeat split; lia.
  - destruct (Z.of_nat (length (allEvents ++ l :: ls)) >=? total)%Z.
    + injection E as <- <-. rewrite <- app_assoc.
      eexists _, 1. split; [reflexivity|]. repeat split; lia.
    + destruct (IH _ _ _ _ _ E) as (tr & n & -> & Hn & Hs).
      rewrite <- !app_assoc. eexists _, (S n). split; [reflexivity|].
      split; [lia|]. cbn [app skeleton filter]. fold (skeleton tr).
      rewrite Hs. symmetry. apply paced_next. lia.
  - injection E as <- <-. exists [Request page], 1. repeat split; lia.
Qed.

Lemma fetch_loop_bounded_total (N fuel : nat) :
  (forall p listings total,
      server p = Body (Some listings) total -> (total <= Z.of_nat N)%Z) ->
  forall page allEvents trace,
    N - length allEvents < fuel ->
    exists out tr,
      fetch_loop server fuel page allEvents trace = Some (out, trace ++ tr)
      /\ length (requests tr) <= Nat.max 1 (N - length allEvents).
Proof.
  intros Hbound.
  induction fuel as [|fuel IH]; intros page allEvents trace Hfuel; [lia|].
  cbn [fetch_loop].
  destruct (server page) as [m|st txt|m|[[|l ls]|] total] eqn:Hsrv.
  - exists (Throw m), [Request page]. split; [reflexivity | unfold requests; cbn [flat_map app length]; lia].
  - eexists (Ok _), _. rewrite <- app_assoc. split; [reflexivity | unfold requests; cbn [flat_map app length]; lia].
  - exists (Throw m), [Request page]. split; [reflexivity | unfold requests; cbn [flat_map app length]; lia].
  - exists (Ok allEvents), [Request page]. split; [reflexivity | unfold requests; cbn [flat_map app length]; lia].
  - pose proof (Hbound _ _ _ Hsrv) as Ht.
    destruct (Z.geb_spec (Z.of_nat (length (allEvents ++ l :: ls))) total)
      as [Hge|Hlt].
    + eexists (Ok _), _. rewrite <- app_assoc. split; [reflexivity | unfold requests; cbn [flat_map app length]; lia].
    + rewrite length_app in Hlt. cbn [length] in Hlt.
      destruct (IH (S page) (allEvents ++ l :: ls)
                  (((trace ++ [Request page])
                    ++ [ConsoleLog (page_line page (length (l :: ls))
                                      (length (allEvents ++ l :: ls)))])
                   ++ [Sleep 1500]))
        as (out & tr & E & Hreq).
      { rewrite length_app. cbn [length]. lia. }
      rewrite E, <- !app_assoc. exists out. eexists. split; [reflexivity|].
      rewrite length_app in Hreq. cbn [length] in Hreq.
      cbn [app requests flat_map length]. fold (requests tr). lia.
  - exists (Ok allEvents), [Request page]. split; [reflexivity | unfold requests; cbn [flat_map app length]; lia].
Qed.

End AnyServer.

Lemma endless_advances (n : nat) :
  forall page count,
    count < page -> advances endless page count (endless_pages page n).
Proof.
  induction n as [|n IH]; intros page count H; [exact I|].
  cbn [endless_pages seq map advances]. fold (endless_pages (S page) n).
  split; [reflexivity|]. split; [discriminate|].
  split; [cbn [length]; lia|]. apply IH. cbn [length]. lia.
Qed.

Lemma paced_requests_sleeps (n : nat) :
  forall page,
    requests (paced page n) = seq page n
    /\ sleeps (paced page n) = repeat 1500%N (n - 1).
Proof.
  induction n as [|[|n] IH]; intros page; [auto | auto |].
  rewrite paced_next by lia. destruct (IH (S page)) as [I1 I2].
  split.
  - change (requests (Request page :: Sleep 1500 :: paced (S page) (S n)))
      with (page :: requests (paced (S page) (S n))).
    rewrite I1. reflexivity.
  - change (sleeps (Request page :: Sleep 1500 :: paced (S page) (S n)))
      with (1500%N :: sleeps (paced (S page) (S n))).
    rewrite I2. cbn [Nat.sub]. now rewrite Nat.sub_0_r.
Qed.

(** X1.  Pacing.  A call of [fetchRAEvents] that returns or throws has asked
    for the consecutive pages 1 to [n], at most one per unit of fuel, with a
    pause of 1.5 seconds between two requests, none before the first and none
    after the last. *)
Theorem fetchRAEvents_is_paced (server : nat -> Reply) (fuel : nat)
    (out : result (list RAEventListing)) (trace : list Effect) :
  fetchRAEvents server fuel = Some (out, trace) ->
  exists n,
    1 <= n <= fuel
    /\ skeleton trace = paced 1 n
    /\ requests trace = seq 1 n
    /\ sleeps trace = repeat 1500%N (n - 1).
Proof.
  intros E. unfold fetchRAEvents in E.
  destruct (fetch_loop_paced server fuel 1 [] [] out trace E)
    as (tr & n & -> & Hn & Hs).
  exists n. cbn [app]. split; [exact Hn|]. split; [exact Hs|].
  assert (Hreq : forall t, requests t = requests (skeleton t)).
  { unfold requests, skeleton.
    induction t as [|[p|x|x|ms] t IH]; simpl; rewrite ?IH; reflexivity. }
  assert (Hsl : forall t, sleeps t = sleeps (skeleton t)).
  { unfold sleeps, skeleton.
    induction t as [|[p|x|x|ms] t IH]; simpl; rewrite ?IH; reflexivity. }
  rewrite Hreq, Hsl, Hs. apply paced_requests_sleeps.
Qed.

(** X2.  When no page declares a total above [N], the pagination comes to
    an end after at most [N] requests (one, when [N] is zero), whether or
    not a page ever comes back empty. *)
Theorem fetchRAEvents_bounded_total_returns (server : nat -> Reply)
    (N fuel : nat) :
  (forall p listings total,
      server p = Body (Some listings) total -> (total <= Z.of_nat N)%Z) ->
  N < fuel ->
  exists out trace,
    fetchRAEvents server fuel = Some (out, trace)
    /\ length (requests trace) <= Nat.max 1 N.
Proof.
  intros Hbound Hfuel.
  destruct (fetch_loop_bounded_total server N fuel Hbound 1 [] [])
    as (out & tr & E & Hreq); [cbn; lia|].
  exists out, tr. cbn [length] in Hreq. rewrite Nat.sub_0_r in Hreq.
  split; [exact E | exact Hreq].
Qed.

(** X3.  The loop has no bound of its own: against a service that keeps
    sending non-empty pages and declaring more results than it has sent,
    [fetchRAEvents] never returns, however many iterations it is given. *)
Theorem fetchRAEvents_can_run_forever (server : nat -> Reply) :
  (forall k, exists pages, length pages = k /\ advances server 1 0 pages) ->
  forall fuel, fetchRAEvents server fuel = None.
Proof.
  intros H fuel. destruct (H fuel) as (pages & <- & Hadv).
  rewrite <- (Nat.add_0_r (length pages)).
  rewrite (fetchRAEvents_advances server pages 0 Hadv). reflexivity.
Qed.

End ClientShapeFacts.

(** ** More about a run of [syncArea] *)

Module RunShapeFacts.
Import StoreFacts UpsertFacts LoopFacts RunFacts ClientFacts.

Lemma fetchRAEvents_thrown (server : nat -> Reply)
    (pages : list (list RAEventListing * Z)) (message : jsstring) (fuel : nat) :
  advances server 1 0 pages ->
  server (S (length pages)) = FetchRejects message
  \/ server (S (length pages)) = JsonRejects message ->
  length pages < fuel ->
  exists trace, fetchRAEvents server fuel = Some (Throw message, trace).
Proof.
  intros Hadv Hsrv Hfuel.
  replace fuel with (length pages + S (fuel - S (length pages))) by lia.
  rewrite (fetchRAEvents_advances server pages _ Hadv). cbn [fetch_loop].
  destruct Hsrv as [-> | ->]; eexists; reflexivity.
Qed.

Lemma fetchRAEvents_ended (server : nat -> Reply)
    (pages : list (list RAEventListing * Z)) (fuel : nat) :
  advances server 1 0 pages ->
  zero_items (server (S (length pages)))
  \/ (exists status statusText,
        server (S (length pages)) = HttpFailure status statusText) ->
  length pages < fuel ->
  exists trace,
    fetchRAEvents server fuel = Some (Ok (concat (map fst pages)), trace).
Proof.
  intros Hadv Hsrv Hfuel.
  replace fuel with (length pages + S (fuel - S (length pages))) by lia.
  rewrite (fetchRAEvents_advances server pages _ Hadv).
  destruct Hsrv as [Hz | (st & txt & Hf)].
  - rewrite (fetch_loop_zero_items server _ _ _ _ Hz). eexists; reflexivity.
  - rewrite (fetch_loop_http_failure server _ _ _ _ _ _ Hf).
    eexists; reflexivity.
Qed.

(** X4.  A request that fails below HTTP (the fetch or the JSON parsing
    throws) loses the whole region, also the pages that had come back: no
    entity row is written, the counters stay at zero, and the run records
    the one error [Area <name>: <message>] and the status [partial]. *)
Theorem thrown_fetch_loses_the_region (unicodeLower : N -> jsstring)
    (faults : Faults) (network : N -> jsstring -> jsstring -> nat -> Reply)
    (elapsed : N -> Z) (fuel : nat) (areaName : jsstring) (areaId : N)
    (dateGte dateLte : jsstring) (s : Store)
    (pages : list (list RAEventListing * Z)) (message : jsstring) :
  advances (network areaId dateGte dateLte) 1 0 pages ->
  network areaId dateGte dateLte (S (length pages)) = FetchRejects message
  \/ network areaId dateGte dateLte (S (length pages)) = JsonRejects message ->
  length pages < fuel ->
  exists out s',
    syncArea unicodeLower faults network elapsed fuel areaName areaId
      dateGte dateLte s = Some (out, s')
    /\ same_entities s s'
    /\ (never_refuses faults -> exists c, out = Ok c)
    /\ (forall c, out = Ok c ->
        c = {| festivalsFound := 0; artistsFound := 0;
               errors := [lit "Area " ++ areaName ++ lit ": " ++ message] |}
        /\ exists row,
            scrapeLogs s' = scrapeLogs s ++ [row]
            /\ logs_status (values row) = lit "partial"
            /\ logs_festivalsFound (values row) = 0
            /\ logs_artistsFound (values row) = 0
            /\ logs_errors (values row)
               = [lit "Area " ++ areaName ++ lit ": " ++ message]).
Proof.
  intros Hadv Hsrv Hfuel.
  destruct (fetchRAEvents_thrown _ pages message fuel Hadv Hsrv Hfuel)
    as (tr & F).
  rewrite (syncArea_stages _ _ _ _ _ _ _ _ _ _ _ _ F).
  cbn [processFetched fst snd].
  destruct (faults (clock s) _) as [m|] eqn:Hf.
  - do 2 eexists. split; [reflexivity|].
    split; [apply same_entities_tick|].
    split; [|discriminate].
    intros Hacc. rewrite Hacc in Hf. discriminate.
  - do 2 eexists. split; [reflexivity|].
    split; [apply same_entities_logged|].
    split; [eauto|].
    intros c [= <-]. split; [reflexivity|].
    eexists. split; [reflexivity|]. repeat split.
Qed.

(** X5.  A non-success HTTP response is to [syncArea] what the end of the
    listings is: against a service that answers with an HTTP failure where
    another one answers with an empty page, the run returns the same
    counters and leaves the same store.  In particular an outage at the
    first request gives a run with no listing, no error and the status
    [success]. *)
Theorem http_failure_ends_the_listing (unicodeLower : N -> jsstring)
    (faults : Faults) (failing ending : N -> jsstring -> jsstring -> nat -> Reply)
    (elapsed : N -> Z) (fuel : nat) (areaName : jsstring) (areaId : N)
    (dateGte dateLte : jsstring) (s : Store)
    (pages : list (list RAEventListing * Z)) (status : N)
    (statusText : jsstring) :
  advances (failing areaId dateGte dateLte) 1 0 pages ->
  advances (ending areaId dateGte dateLte) 1 0 pages ->
  failing areaId dateGte dateLte (S (length pages))
  = HttpFailure status statusText ->
  zero_items (ending areaId dateGte dateLte (S (length pages))) ->
  length pages < fuel ->
  syncArea unicodeLower faults failing elapsed fuel areaName areaId
    dateGte dateLte s
  = syncArea unicodeLower faults ending elapsed fuel areaName areaId
      dateGte dateLte s
  /\ (pages = [] ->
      exists out s',
        syncArea unicodeLower faults failing elapsed fuel areaName areaId
          dateGte dateLte s = Some (out, s')
        /\ same_entities s s'
        /\ (forall c, out = Ok c ->
            c = no_counters
            /\ exists row,
                scrapeLogs s' = scrapeLogs s ++ [row]
                /\ logs_status (values row) = lit "success"
                /\ logs_errors (values row) = [])).
Proof.
  intros Hf He Hfail Hend Hfuel.
  destruct (fetchRAEvents_ended _ pages fuel Hf
              (or_intror (ex_intro _ status (ex_intro _ statusText Hfail)))
              Hfuel) as (tr1 & F1).
  destruct (fetchRAEvents_ended _ pages fuel He (or_introl Hend) Hfuel)
    as (tr2 & F2).
  rewrite (syncArea_stages _ _ _ _ _ _ _ _ _ _ _ _ F1).
  rewrite (syncArea_stages _ _ _ _ _ _ _ _ _ _ _ _ F2).
  split; [reflexivity|].
  intros ->. cbn [map concat processFetched fold_left fst snd].
  destruct (faults (clock s) _) as [m|].
  - do 2 eexists. split; [reflexivity|].
    split; [apply same_entities_tick | discriminate].
  - do 2 eexists. split; [reflexivity|].
    split; [apply same_entities_logged|].
    intros c [= <-]. split; [reflexivity|].
    eexists. split; [reflexivity|]. split; reflexivity.
Qed.

End RunShapeFacts.
(** ** Counting *)

Module CountFacts.
Import StoreFacts UpsertFacts LoopFacts RunFacts.

Section AnyStore.

Variable unicodeLower : N -> jsstring.
Variable faults : Faults.

Local Abbreviation artistStep := (artistStep unicodeLower faults).
Local Abbreviation listingStep := (listingStep unicodeLower faults).

Lemma artistStep_bounds (festivalId : uuid) (event : RAEvent) (st : Run)
    (artist : RAArtist) :
  let st' := artistStep festivalId event st artist in
  artistsFound (fst st') <= S (artistsFound (fst st))
  /\ length (errors (fst st')) <= S (length (errors (fst st)))
  /\ S (artistsFound (fst st) + length (errors (fst st)))
     <= artistsFound (fst st') + length (errors (fst st'))
  /\ length (artists (snd st')) + artistsFound (fst st)
     <= length (artists (snd st)) + artistsFound (fst st')
  /\ length (festivalLineups (snd st')) + artistsFound (fst st)
     <= length (festivalLineups (snd st)) + artistsFound (fst st')
  /\ venues (snd st') = venues (snd st)
  /\ festivals (snd st') = festivals (snd st)
  /\ festivalsFound (fst st') = festivalsFound (fst st).
Proof.
  destruct st as [c s]. unfold Sync.artistStep. cbn [fst snd].
  destruct (upsertArtist_cases unicodeLower faults artist s)
    as [(r & _ & E)|[(_ & E)|[(m & E)|(m & _ & E)]]]; rewrite E.
  3,4: cbn [fst snd errors push_error artistsFound festivalsFound artists
            festivalLineups venues festivals tick];
       rewrite length_app; cbn [length]; repeat split; lia.
  all: match goal with
       | |- context [insertLineupOnConflictDoNothing faults ?v ?s1] =>
           destruct (insertLineup_cases faults v s1)
             as [(_ & _ & E2)|[(_ & E2)|(m2 & _ & E2)]]; rewrite E2
       end.
  all: cbn [fst snd errors push_error count_artist artistsFound festivalsFound
            artists festivalLineups venues festivals tick add_artist
            add_lineup];
       rewrite ?length_app; cbn [length]; repeat split; lia.
Qed.

Lemma artists_loop_bounds (festivalId : uuid) (event : RAEvent)
    (l : list RAArtist) :
  forall st : Run,
    let st' := fold_left (artistStep festivalId event) l st in
    artistsFound (fst st') <= artistsFound (fst st) + length l
    /\ length (errors (fst st')) <= length (errors (fst st)) + length l
    /\ length l + artistsFound (fst st) + length (errors (fst st))
       <= artistsFound (fst st') + length (errors (fst st'))
    /\ length (artists (snd st')) + artistsFound (fst st)
       <= length (artists (snd st)) + artistsFound (fst st')
    /\ length (festivalLineups (snd st')) + artistsFound (fst st)
       <= length (festivalLineups (snd st)) + artistsFound (fst st')
    /\ venues (snd st') = venues (snd st)
    /\ festivals (snd st') = festivals (snd st)
    /\ festivalsFound (fst st') = festivalsFound (fst st).
Proof.
  induction l as [|a l IH]; intros st; cbn [fold_left length].
  - repeat split; lia.
  - destruct (artistStep_bounds festivalId event st a)
      as (A1 & A2 & A3 & A4 & A5 & A6 & A7 & A8).
    destruct (IH (artistStep festivalId event st a))
      as (B1 & B2 & B3 & B4 & B5 & B6 & B7 & B8).
    repeat split; try lia; congruence.
Qed.

Lemma listingStep_bounds (st : Run) (listing : RAEventListing) :
  let st' := listingStep st listing in
  festivalsFound (fst st') <= S (festivalsFound (fst st))
  /\ artistsFound (fst st') <= artistsFound (fst st) + listing_slots listing
  /\ length (errors (fst st'))
     <= S (length (errors (fst st)) + listing_slots listing)
  /\ S (festivalsFound (fst st) + length (errors (fst st)))
     <= festivalsFound (fst st') + length (errors (fst st'))
  /\ length (festivals (snd st')) + festivalsFound (fst st)
     <= length (festivals (snd st)) + festivalsFound (fst st')
  /\ length (artists (snd st')) + artistsFound (fst st)
     <= length (artists (snd st)) + artistsFound (fst st')
  /\ length (festivalLineups (snd st')) + artistsFound (fst st)
     <= length (festivalLineups (snd st)) + artistsFound (fst st')
  /\ length (venues (snd st')) <= S (length (venues (snd st))).
Proof.
  destruct st as [c s]. unfold Sync.listingStep, listing_slots. cbn [fst snd].
  destruct (listing_event listing) as [event|].
  2:{ cbn [fst snd errors push_error artistsFound festivalsFound].
      rewrite length_app; cbn [length]; repeat split; lia. }
  destruct (upsertVenue_cases faults event s)
    as [(_ & E)|[(v & r & _ & _ & E)|[(v & _ & _ & E)|(m & [E|E])]]];
    rewrite E.
  4,5: cbn [fst snd errors push_error artistsFound festivalsFound artists
            festivalLineups venues festivals tick];
       rewrite length_app; cbn [length]; repeat split; lia.
  all: match goal with
       | |- context [upsertFestival ?ul ?fl ?ev ?vid ?s1] =>
           destruct (upsertFestival_cases ul fl ev vid s1)
             as [(r2 & _ & E2)|[(_ & E2)|[(m2 & E2)|(m2 & _ & E2)]]];
           rewrite E2
       end.
  all: try (cbn [fst snd errors push_error artistsFound festivalsFound artists
                 festivalLineups venues festivals tick add_venue];
            rewrite ?length_app; cbn [length]; repeat split; lia).
  all: match goal with
       | |- context [fold_left (artistStep ?fid ?ev) ?l ?st0] =>
           destruct (artists_loop_bounds fid ev l st0)
             as (B1 & B2 & B3 & B4 & B5 & B6 & B7 & B8);
           rewrite B6, B7, B8;
           cbn [fst snd errors count_festival artistsFound festivalsFound
                artists festivalLineups venues festivals tick add_venue
                add_festival] in *;
           rewrite ?length_app in *; cbn [length] in *; repeat split; lia
       end.
Qed.

Lemma listings_loop_bounds (listings : list RAEventListing) :
  forall st : Run,
    let st' := fold_left listingStep listings st in
    festivalsFound (fst st') <= festivalsFound (fst st) + length listings
    /\ artistsFound (fst st') <= artistsFound (fst st) + artist_slots listings
    /\ length (errors (fst st'))
       <= length (errors (fst st)) + length listings + artist_slots listings
    /\ length listings + festivalsFound (fst st) + length (errors (fst st))
       <= festivalsFound (fst st') + length (errors (fst st'))
    /\ length (festivals (snd st')) + festivalsFound (fst st)
       <= length (festivals (snd st)) + festivalsFound (fst st')
    /\ length (artists (snd st')) + artistsFound (fst st)
       <= length (artists (snd st)) + artistsFound (fst st')
    /\ length (festivalLineups (snd st')) + artistsFound (fst st)
       <= length (festivalLineups (snd st)) + artistsFound (fst st')
    /\ length (venues (snd st')) <= length (venues (snd st)) + length listings.
Proof.
  induction listings as [|x l IH]; intros st; cbn [fold_left length].
  - unfold artist_slots. cbn [map list_sum]. repeat split; lia.
  - destruct (listingStep_bounds st x)
      as (A1 & A2 & A3 & A4 & A5 & A6 & A7 & A8).
    destruct (IH (listingStep st x))
      as (B1 & B2 & B3 & B4 & B5 & B6 & B7 & B8).
    change (artist_slots (x :: l)) with (listing_slots x + artist_slots l).
    repeat split; lia.
Qed.

End AnyStore.

End CountFacts.
(** ** What every run keeps, and what a willing store gives *)

Module KeepFacts.
Import StoreFacts UpsertFacts LoopFacts RunFacts CountFacts.

Lemma no_slug_not_in {V : Type} (slug_of : V -> jsstring) (slug : jsstring)
    (l : list (Row V)) :
  existsb (fun r => jseqb (slug_of (values r)) slug) l = false ->
  ~ In slug (map (fun r => slug_of (values r)) l).
Proof.
  intros H Hin. apply in_map_iff in Hin as (r & Hr & Hin).
  assert (existsb (fun r => jseqb (slug_of (values r)) slug) l = true);
    [|congruence].
  apply existsb_exists. exists r. split; [exact Hin|]. now apply jseqb_eq.
Qed.

Lemma entity_step_unique_slugs (s t : Store) :
  entity_step s t ->
  unique_artist_slugs s /\ unique_festival_slugs s ->
  unique_artist_slugs t /\ unique_festival_slugs t.
Proof.
  unfold unique_artist_slugs, unique_festival_slugs.
  intros [| |v Hv|v Hv|]; cbn [artists festivals tick add_venue add_artist
                                 add_festival add_lineup]; auto.
  - intros [Ha Hf]. split; [|exact Hf].
    rewrite map_app. cbn [map values]. apply NoDup_snoc; [exact Ha|].
    now apply (no_slug_not_in artists_slug).
  - intros [Ha Hf]. split; [exact Ha|].
    rewrite map_app. cbn [map values]. apply NoDup_snoc; [exact Hf|].
    now apply (no_slug_not_in festivals_slug).
Qed.

Lemma entity_steps_unique_slugs (s t : Store) :
  entity_steps s t ->
  unique_artist_slugs s /\ unique_festival_slugs s ->
  unique_artist_slugs t /\ unique_festival_slugs t.
Proof.
  induction 1 as [s|s t u H _ IH]; [auto|].
  intros K. apply IH. eapply entity_step_unique_slugs; eassumption.
Qed.

Lemma grows_logged (v : LogValues) (s : Store) : grows s (add_log v (tick s)).
Proof.
  repeat split; cbn; first [apply extends_refl | apply extends_snoc].
Qed.

Lemma grows_tick (s : Store) : grows s (tick s).
Proof. repeat split; apply extends_refl. Qed.

(** What [syncArea] leaves is what its loops left, the clock and the log
    apart. *)
Lemma syncArea_reach (unicodeLower : N -> jsstring) (faults : Faults)
    (network : N -> jsstring -> jsstring -> nat -> Reply) (elapsed : N -> Z)
    (fuel : nat) (areaName : jsstring) (areaId : N)
    (dateGte dateLte : jsstring) (s s' : Store) (out : result Counters) :
  syncArea unicodeLower faults network elapsed fuel areaName areaId
    dateGte dateLte s = Some (out, s') ->
  exists s1, entity_steps s s1 /\ same_entities s1 s' /\ grows s1 s'.
Proof.
  intros E.
  destruct (syncArea_spec _ _ _ _ _ _ _ _ _ _ _ _ E)
    as (fetched & tr & s1 & _ & _ & S1 & [(m & _ & ->)|(_ & ->)]);
    exists s1; (split; [exact S1|]).
  - split; [apply same_entities_tick | apply grows_tick].
  - split; [apply same_entities_logged | apply grows_logged].
Qed.

Lemma syncAreas_reach (unicodeLower : N -> jsstring) (faults : Faults)
    (network : N -> jsstring -> jsstring -> nat -> Reply) (elapsed : N -> Z)
    (fuel : nat) (dateGte dateLte : jsstring) (P : Store -> Prop) :
  (forall s t, entity_steps s t -> P s -> P t) ->
  (forall s t, same_entities s t -> grows s t -> P s -> P t) ->
  forall (areas : list (jsstring * N)) (totals : nat * nat) (s s' : Store)
         (out : result (nat * nat)),
    P s ->
    syncAreas unicodeLower faults network elapsed fuel areas dateGte dateLte
      totals s = Some (out, s') ->
    P s'.
Proof.
  intros Hsteps Hsame.
  induction areas as [|[name areaId] rest IH]; intros totals s s' out HP E;
    cbn [syncAreas] in E.
  - now injection E as <- <-.
  - destruct (syncArea unicodeLower faults network elapsed fuel name areaId
                dateGte dateLte s) as [[[c|m] s1]|] eqn:E1; [| |discriminate];
      destruct (syncArea_reach _ _ _ _ _ _ _ _ _ _ _ _ E1)
        as (s0 & S0 & Q0 & G0);
      assert (HP1 : P s1) by (eapply Hsame; eauto).
    + eapply IH; eassumption.
    + now injection E as <- <-.
Qed.

(** X7.  A run of [syncArea] or of [main] only appends: every row that was
    in a table is still there, unchanged and at its place, whatever
    happened during the run. *)
Theorem sync_only_appends (unicodeLower : N -> jsstring) (faults : Faults)
    (network : N -> jsstring -> jsstring -> nat -> Reply) (elapsed : N -> Z)
    (fuel : nat) (dateGte dateLte : jsstring) (s s' : Store) :
  (forall areaName areaId out,
      syncArea unicodeLower faults network elapsed fuel areaName areaId
        dateGte dateLte s = Some (out, s') ->
      grows s s')
  /\ (forall out,
      main unicodeLower faults network elapsed fuel dateGte dateLte s
      = Some (out, s') ->
      grows s s').
Proof.
  split.
  - intros areaName areaId out E.
    destruct (syncArea_reach _ _ _ _ _ _ _ _ _ _ _ _ E) as (s1 & S1 & _ & G).
    eapply grows_trans; [apply entity_steps_grows, S1 | exact G].
  - intros out E. unfold Sync.main in E.
    refine (syncAreas_reach unicodeLower faults network elapsed fuel
              dateGte dateLte (fun t => grows s t) _ _ targetAreas (0, 0)
              s s' out _ E).
    + intros a b Hab Ha. eapply grows_trans; [exact Ha|].
      now apply entity_steps_grows.
    + intros a b _ Hab Ha. eapply grows_trans; eassumption.
    + apply grows_refl.
Qed.

(** X8.  The slugs stay unique: a run of [syncArea] or of [main] over a
    store in which no two artists and no two festivals share a slug leaves
    such a store. *)
Theorem slugs_stay_unique (unicodeLower : N -> jsstring) (faults : Faults)
    (network : N -> jsstring -> jsstring -> nat -> Reply) (elapsed : N -> Z)
    (fuel : nat) (dateGte dateLte : jsstring) (s s' : Store) :
  unique_artist_slugs s /\ unique_festival_slugs s ->
  (forall areaName areaId out,
      syncArea unicodeLower faults network elapsed fuel areaName areaId
        dateGte dateLte s = Some (out, s') ->
      unique_artist_slugs s' /\ unique_festival_slugs s')
  /\ (forall out,
      main unicodeLower faults network elapsed fuel dateGte dateLte s
      = Some (out, s') ->
      unique_artist_slugs s' /\ unique_festival_slugs s').
Proof.
  assert (Hsame : forall a b, same_entities a b ->
            unique_artist_slugs a /\ unique_festival_slugs a ->
            unique_artist_slugs b /\ unique_festival_slugs b).
  { unfold unique_artist_slugs, unique_festival_slugs.
    intros a b (_ & <- & <- & _). auto. }
  intros U. split.
  - intros areaName areaId out E.
    destruct (syncArea_reach _ _ _ _ _ _ _ _ _ _ _ _ E) as (s1 & S1 & Q & _).
    apply (Hsame s1 s' Q). now apply (entity_steps_unique_slugs s s1).
  - intros out E. unfold Sync.main in E.
    refine (syncAreas_reach unicodeLower faults network elapsed fuel
              dateGte dateLte
              (fun t => unique_artist_slugs t /\ unique_festival_slugs t)
              _ _ targetAreas (0, 0) s s' out _ E).
    + intros a b Hab. now apply entity_steps_unique_slugs.
    + intros a b Hab _. now apply Hsame.
    + exact U.
Qed.

(** X10.  What the counters bound.  For a run of [syncArea] over fetched
    listings: no counter exceeds the number of listings, respectively of
    artist occurrences; every listing is either counted or has left an
    error; and the rows added to [festivals], [artists] and
    [festival_lineups] are at most as many as the counters say, the rows
    added to [venues] at most as many as the listings. *)
Theorem counters_bound_rows (unicodeLower : N -> jsstring) (faults : Faults)
    (network : N -> jsstring -> jsstring -> nat -> Reply) (elapsed : N -> Z)
    (fuel : nat) (areaName : jsstring) (areaId : N)
    (dateGte dateLte : jsstring) (listings : list RAEventListing)
    (trace : list Effect) (s s' : Store) (c : Counters) :
  fetchRAEvents (network areaId dateGte dateLte) fuel
  = Some (Ok listings, trace) ->
  syncArea unicodeLower faults network elapsed fuel areaName areaId
    dateGte dateLte s = Some (Ok c, s') ->
  festivalsFound c <= length listings
  /\ artistsFound c <= artist_slots listings
  /\ length listings <= festivalsFound c + length (errors c)
  /\ length (errors c) <= length listings + artist_slots listings
  /\ added (festivals s) (festivals s') <= festivalsFound c
  /\ added (artists s) (artists s') <= artistsFound c
  /\ added (festivalLineups s) (festivalLineups s') <= artistsFound c
  /\ added (venues s) (venues s') <= length listings.
Proof.
  intros F E.
  rewrite (syncArea_stages _ _ _ _ _ _ _ _ _ _ _ _ F) in E.
  destruct (faults _ _); [discriminate|]. injection E as <- <-.
  unfold Sync.processFetched, added.
  destruct (listings_loop_bounds unicodeLower faults listings (no_counters, s))
    as (B1 & B2 & B3 & B4 & B5 & B6 & B7 & B8).
  cbn [fst snd errors no_counters festivalsFound artistsFound length venues
       artists festivals festivalLineups add_log tick] in *.
  repeat split; lia.
Qed.

End KeepFacts.
(** ** A store that accepts everything; a listing that fails *)

Module WillingFacts.
Import StoreFacts UpsertFacts LoopFacts RunFacts CountFacts.

Section Willing.

Variable unicodeLower : N -> jsstring.
Variable faults : Faults.
Hypothesis accepts : never_refuses faults.

Local Abbreviation artistStep := (artistStep unicodeLower faults).
Local Abbreviation listingStep := (listingStep unicodeLower faults).

Lemma upsertVenue_accepted (event : RAEvent) (s : Store) :
  completed (upsertVenue faults event s) = true.
Proof.
  unfold upsertVenue.
  destruct (event_venue event) as [v|]; [|reflexivity].
  destruct (venue_name v); [reflexivity|].
  unfold bind, selectVenueByName, insertVenue, statement, ret.
  rewrite accepts. destruct (find _ _); [reflexivity|].
  now rewrite accepts.
Qed.

Lemma upsertFestival_accepted (event : RAEvent) (venueId : option uuid)
    (s : Store) :
  completed (upsertFestival unicodeLower faults event venueId s) = true.
Proof.
  unfold upsertFestival, bind, selectFestivalBySlug, insertFestival,
    statement, ret.
  rewrite accepts. cbn [festivals tick].
  destruct (find _ (festivals s)) eqn:F; [reflexivity|].
  rewrite accepts. cbn [festivals tick festivals_slug festival_values].
  now rewrite (find_none_existsb _ _ F).
Qed.

Lemma upsertArtist_accepted (artist : RAArtist) (s : Store) :
  completed (upsertArtist unicodeLower faults artist s) = true.
Proof.
  unfold upsertArtist, bind, selectArtistBySlug, insertArtist, statement, ret.
  rewrite accepts. cbn [artists tick].
  destruct (find _ (artists s)) eqn:F; [reflexivity|].
  rewrite accepts. cbn [artists tick artists_slug artist_values].
  now rewrite (find_none_existsb _ _ F).
Qed.

Lemma insertLineup_accepted (v : LineupValues) (s : Store) :
  completed (insertLineupOnConflictDoNothing faults v s) = true.
Proof.
  unfold insertLineupOnConflictDoNothing, statement. rewrite accepts.
  now destruct (existsb _ _).
Qed.

Lemma artistStep_accepted (festivalId : uuid) (event : RAEvent) (st : Run)
    (artist : RAArtist) :
  errors (fst (artistStep festivalId event st artist)) = errors (fst st).
Proof.
  destruct st as [c s]. unfold Sync.artistStep.
  pose proof (upsertArtist_accepted artist s) as H1.
  destruct (upsertArtist unicodeLower faults artist s) as [[i|m] s1];
    [|discriminate H1].
  pose proof (insertLineup_accepted (lineup_values festivalId i event) s1) as H2.
  destruct (insertLineupOnConflictDoNothing faults _ s1) as [[u|m] s2];
    [reflexivity | discriminate H2].
Qed.

Lemma artists_loop_accepted (festivalId : uuid) (event : RAEvent)
    (l : list RAArtist) :
  forall st : Run,
    errors (fst (fold_left (artistStep festivalId event) l st))
    = errors (fst st).
Proof.
  induction l as [|a l IH]; intros st; [reflexivity|].
  cbn [fold_left]. rewrite IH. apply artistStep_accepted.
Qed.

Lemma listingStep_accepted (st : Run) (listing : RAEventListing) :
  has_event listing ->
  errors (fst (listingStep st listing)) = errors (fst st).
Proof.
  intros Hev. destruct st as [c s]. unfold Sync.listingStep.
  destruct (listing_event listing) as [event|] eqn:E;
    [|exfalso; apply Hev; exact E].
  pose proof (upsertVenue_accepted event s) as H1.
  destruct (upsertVenue faults event s) as [[venueId|m] s1];
    [|discriminate H1].
  pose proof (upsertFestival_accepted event venueId s1) as H2.
  destruct (upsertFestival unicodeLower faults event venueId s1)
    as [[festivalId|m] s2]; [|discriminate H2].
  now rewrite artists_loop_accepted.
Qed.

Lemma listings_loop_accepted (listings : list RAEventListing) :
  Forall has_event listings ->
  forall st : Run,
    errors (fst (fold_left listingStep listings st)) = errors (fst st).
Proof.
  induction 1 as [|x l Hx _ IH]; intros st; [reflexivity|].
  cbn [fold_left]. rewrite IH. now apply listingStep_accepted.
Qed.

End Willing.

(** X9.  With a store that accepts every statement, the reconciliation
    itself never fails: a run over listings that all carry an event collects
    no error (in particular no duplicate-key error), counts every listing
    and every artist occurrence, logs [success], and leaves every listing
    reconciled: its festival and artists found by slug and linked. *)
Theorem willing_store_reconciles_everything (unicodeLower : N -> jsstring)
    (faults : Faults) (network : N -> jsstring -> jsstring -> nat -> Reply)
    (elapsed : N -> Z) (fuel : nat) (areaName : jsstring) (areaId : N)
    (dateGte dateLte : jsstring) (listings : list RAEventListing)
    (trace : list Effect) (s : Store) :
  never_refuses faults ->
  Forall has_event listings ->
  fetchRAEvents (network areaId dateGte dateLte) fuel
  = Some (Ok listings, trace) ->
  exists c s',
    syncArea unicodeLower faults network elapsed fuel areaName areaId
      dateGte dateLte s = Some (Ok c, s')
    /\ errors c = []
    /\ festivalsFound c = length listings
    /\ artistsFound c = artist_slots listings
    /\ Forall (listing_settled unicodeLower s') listings
    /\ exists row,
        scrapeLogs s' = scrapeLogs s ++ [row]
        /\ logs_status (values row) = lit "success".
Proof.
  intros Hacc Hev F.
  pose proof (syncArea_stages unicodeLower faults network elapsed fuel
                areaName areaId dateGte dateLte s _ _ F) as E.
  cbv zeta in E. rewrite Hacc in E.
  assert (Hclean : errors (fst (processFetched unicodeLower faults areaName
                                  (Ok listings) s)) = []).
  { unfold processFetched.
    now rewrite (listings_loop_accepted unicodeLower faults Hacc listings Hev). }
  destruct (clean_run_settles _ _ _ _ _ _ _ _ _ _ _ _ _ _ F E Hclean)
    as (A & K & L & row & R & V).
  do 2 eexists. split; [exact E|]. split; [exact Hclean|].
  split; [exact K|]. split; [exact L|]. split; [exact A|].
  exists row. split; [exact R|]. rewrite V. cbn [logs_status log_values].
  now rewrite Hclean.
Qed.

Lemma upsertVenue_keeps (faults : Faults) (event : RAEvent) (s s' : Store)
    (out : result (option uuid)) :
  Sync.upsertVenue faults event s = (out, s') ->
  festivals s' = festivals s
  /\ artists s' = artists s
  /\ festivalLineups s' = festivalLineups s.
Proof.
  intros E.
  destruct (upsertVenue_cases faults event s)
    as [(_ & E')|[(v & r & _ & _ & E')|[(v & _ & _ & E')|(m & [E'|E'])]]];
    rewrite E' in E; injection E as <- <-; repeat split.
Qed.

(** What one turn of the loop does when the venue or the festival upsert
    throws. *)
Lemma listingStep_thrown (unicodeLower : N -> jsstring) (faults : Faults)
    (c : Counters) (s s1 : Store) (listing : RAEventListing) (event : RAEvent)
    (message : jsstring) :
  listing_event listing = Some event ->
  Sync.upsertVenue faults event s = (Throw message, s1)
  \/ (exists venueId s0,
        Sync.upsertVenue faults event s = (Ok venueId, s0)
        /\ upsertFestival unicodeLower faults event venueId s0
           = (Throw message, s1)) ->
  listingStep unicodeLower faults (c, s) listing
  = (push_error (event_error (event_title event) message) c, s1)
  /\ festivals s1 = festivals s
  /\ artists s1 = artists s
  /\ festivalLineups s1 = festivalLineups s.
Proof.
  intros L [E1|(venueId & s0 & E1 & E2)]; unfold listingStep; rewrite L, E1.
  - split; [reflexivity|]. exact (upsertVenue_keeps _ _ _ _ _ E1).
  - rewrite E2. split; [reflexivity|].
    destruct (upsertVenue_keeps _ _ _ _ _ E1) as (K1 & K2 & K3).
    destruct (upsertFestival_result unicodeLower faults _ _ _ _ _ E2)
      as (_ & _ & _ & T).
    destruct (T message eq_refl) as (_ & Q2 & Q3 & Q4).
    rewrite <- Q2, <- Q3, <- Q4. auto.
Qed.

(** X6.  A listing that fails is on its own.  When the venue or festival
    upsert of a listing throws, the run records the one error
    [Event <title>: <message>], with the title of the event and the message
    that was thrown, leaves the festival, artist and lineup tables as they
    were, does not count the listing, and goes on with the listings after
    it. *)
Theorem listing_failure_is_isolated (unicodeLower : N -> jsstring)
    (faults : Faults) (areaName : jsstring)
    (before after : list RAEventListing) (listing : RAEventListing)
    (event : RAEvent) (message : jsstring) (s s1 : Store) :
  let reached :=
    fold_left (listingStep unicodeLower faults) before (no_counters, s) in
  listing_event listing = Some event ->
  Sync.upsertVenue faults event (snd reached) = (Throw message, s1)
  \/ (exists venueId s0,
        Sync.upsertVenue faults event (snd reached) = (Ok venueId, s0)
        /\ upsertFestival unicodeLower faults event venueId s0
           = (Throw message, s1)) ->
  let failed := listingStep unicodeLower faults reached listing in
  let final :=
    processFetched unicodeLower faults areaName
      (Ok (before ++ listing :: after)) s in
  final = fold_left (listingStep unicodeLower faults) after failed
  /\ snd failed = s1
  /\ errors (fst failed)
     = errors (fst reached)
       ++ [lit "Event " ++ event_title event ++ lit ": " ++ message]
  /\ festivalsFound (fst failed) = festivalsFound (fst reached)
  /\ artistsFound (fst failed) = artistsFound (fst reached)
  /\ In (lit "Event " ++ event_title event ++ lit ": " ++ message)
       (errors (fst final))
  /\ festivals s1 = festivals (snd reached)
  /\ artists s1 = artists (snd reached)
  /\ festivalLineups s1 = festivalLineups (snd reached)
  /\ festivalsFound (fst final) <= length before + length after.
Proof.
  intros reached L Hthrown failed final.
  assert (Hfinal : final
                   = fold_left (listingStep unicodeLower faults) after failed).
  { subst final failed reached. unfold processFetched.
    now rewrite fold_left_app. }
  split; [exact Hfinal|].
  pose proof (listings_loop_bounds unicodeLower faults before (no_counters, s))
    as (B0 & _).
  cbv zeta in B0. fold reached in B0.
  cbn [fst no_counters festivalsFound] in B0.
  destruct reached as [c0 s0]. cbn [fst snd] in *.
  destruct (listingStep_thrown unicodeLower faults c0 s0 s1 listing event
              message L Hthrown) as (E & Q1 & Q2 & Q3).
  subst failed. rewrite E in *. cbn [fst snd].
  destruct (listings_loop_spec unicodeLower faults after
              (push_error (event_error (event_title event) message) c0, s1))
    as (_ & X & _).
  destruct (listings_loop_bounds unicodeLower faults after
              (push_error (event_error (event_title event) message) c0, s1))
    as (B1 & _).
  rewrite <- Hfinal in X, B1.
  cbn [fst snd errors push_error festivalsFound artistsFound] in *.
  split; [reflexivity|]. split; [reflexivity|]. split; [reflexivity|].
  split; [reflexivity|]. split.
  { eapply extends_In; [exact X|]. apply in_or_app. right. now left. }
  split; [exact Q1|]. split; [exact Q2|]. split; [exact Q3|]. lia.
Qed.

End WillingFacts.

(** ** The foreign keys *)

Module ReferenceFacts.
Import StoreFacts UpsertFacts LoopFacts RunFacts.

Lemma find_In_ids {V} (p : Row V -> bool) (l : list (Row V)) (r : Row V) :
  find p l = Some r -> In (id r) (ids l).
Proof.
  intros F. apply find_some in F as [H _]. unfold ids. now apply in_map.
Qed.

Lemma ids_snoc {V} (l : list (Row V)) (r : Row V) (i : uuid) :
  In i (ids l) -> In i (ids (l ++ [r])).
Proof.
  unfold ids. rewrite map_app. intros H. apply in_or_app. now left.
Qed.

Lemma ids_last {V} (l : list (Row V)) (r : Row V) : In (id r) (ids (l ++ [r])).
Proof.
  unfold ids. rewrite map_app. apply in_or_app. right. now left.
Qed.

Lemma ids_extends {V} (l l' : list (Row V)) (i : uuid) :
  extends l l' -> In i (ids l) -> In i (ids l').
Proof.
  intros [more ->] H. unfold ids. rewrite map_app. apply in_or_app. now left.
Qed.

Lemma refs_same (s t : Store) :
  same_entities s t -> references_hold s -> references_hold t.
Proof.
  intros (V & A & F & L) [R1 R2]. unfold references_hold.
  rewrite <- V, <- A, <- F, <- L. now split.
Qed.

Lemma refs_add_venue (v : VenueValues) (s : Store) :
  references_hold s -> references_hold (add_venue v s).
Proof.
  intros [R1 R2]. split; cbn [add_venue festivalLineups festivals artists venues].
  - exact R1.
  - intros f i Hf Hi. apply ids_snoc. eapply R2; eassumption.
Qed.

Lemma refs_add_artist (v : ArtistValues) (s : Store) :
  references_hold s -> references_hold (add_artist v s).
Proof.
  intros [R1 R2]. split; cbn [add_artist festivalLineups festivals artists venues].
  - intros l Hl. destruct (R1 l Hl) as [H1 H2]. split; [exact H1|].
    now apply ids_snoc.
  - exact R2.
Qed.

Lemma refs_add_festival (v : FestivalValues) (s : Store) :
  (forall i, festivals_venueId v = Some i -> In i (ids (venues s))) ->
  references_hold s -> references_hold (add_festival v s).
Proof.
  intros Hv [R1 R2].
  split; cbn [add_festival festivalLineups festivals artists venues].
  - intros l Hl. destruct (R1 l Hl) as [H1 H2]. split; [|exact H2].
    now apply ids_snoc.
  - intros f i Hf Hi. apply in_app_or in Hf as [Hf|[<-|[]]].
    + eapply R2; eassumption.
    + apply Hv. exact Hi.
Qed.

Lemma refs_add_lineup (v : LineupValues) (s : Store) :
  In (lineups_festivalId v) (ids (festivals s)) ->
  In (lineups_artistId v) (ids (artists s)) ->
  references_hold s -> references_hold (add_lineup v s).
Proof.
  intros Hf Ha [R1 R2].
  split; cbn [add_lineup festivalLineups festivals artists venues].
  - intros l Hl. apply in_app_or in Hl as [Hl|[<-|[]]].
    + now apply R1.
    + now split.
  - exact R2.
Qed.

Section AnyStore.

Variable unicodeLower : N -> jsstring.
Variable faults : Faults.

Lemma upsertVenue_refs (event : RAEvent) (s s' : Store)
    (out : result (option uuid)) :
  upsertVenue faults event s = (out, s') ->
  references_hold s ->
  references_hold s'
  /\ forall i, out = Ok (Some i) -> In i (ids (venues s')).
Proof.
  intros E R.
  destruct (upsertVenue_cases faults event s)
    as [(_ & E1)|[(v & r & _ & F & E1)|[(v & _ & _ & E1)|(m & [E1|E1])]]];
    rewrite E1 in E; injection E as <- <-.
  - split; [exact R|]. discriminate.
  - split; [exact R|]. intros i [= <-]. exact (find_In_ids _ _ _ F).
  - split; [now apply refs_add_venue|]. intros i [= <-].
    cbn [add_venue venues tick next_uuid].
    exact (ids_last (venues s) {| id := next_uuid s; values := _ |}).
  - split; [exact R|]. discriminate.
  - split; [exact R|]. discriminate.
Qed.

Lemma upsertFestival_refs (event : RAEvent) (venueId : option uuid)
    (s s' : Store) (out : result uuid) :
  upsertFestival unicodeLower faults event venueId s = (out, s') ->
  (forall i, venueId = Some i -> In i (ids (venues s))) ->
  references_hold s ->
  references_hold s'
  /\ forall i, out = Ok i -> In i (ids (festivals s')).
Proof.
  intros E Hv R.
  destruct (upsertFestival_cases unicodeLower faults event venueId s)
    as [(r & F & E1)|[(_ & E1)|[(m & E1)|(m & _ & E1)]]];
    rewrite E1 in E; injection E as <- <-.
  - split; [exact R|]. intros i [= <-]. exact (find_In_ids _ _ _ F).
  - split.
    + apply refs_add_festival; [|exact R]. exact Hv.
    + intros i [= <-]. cbn [add_festival festivals tick next_uuid].
      exact (ids_last (festivals s) {| id := next_uuid s; values := _ |}).
  - split; [exact R|]. discriminate.
  - split; [exact R|]. discriminate.
Qed.

Lemma upsertArtist_refs (artist : RAArtist) (s s' : Store) (out : result uuid) :
  upsertArtist unicodeLower faults artist s = (out, s') ->
  references_hold s ->
  references_hold s'
  /\ forall i, out = Ok i -> In i (ids (artists s')).
Proof.
  intros E R.
  destruct (upsertArtist_cases unicodeLower faults artist s)
    as [(r & F & E1)|[(_ & E1)|[(m & E1)|(m & _ & E1)]]];
    rewrite E1 in E; injection E as <- <-.
  - split; [exact R|]. intros i [= <-]. exact (find_In_ids _ _ _ F).
  - split; [now apply refs_add_artist|].
    intros i [= <-]. cbn [add_artist artists tick next_uuid].
    exact (ids_last (artists s) {| id := next_uuid s; values := _ |}).
  - split; [exact R|]. discriminate.
  - split; [exact R|]. discriminate.
Qed.

Lemma insertLineup_refs (v : LineupValues) (s s' : Store) (out : result unit) :
  insertLineupOnConflictDoNothing faults v s = (out, s') ->
  In (lineups_festivalId v) (ids (festivals s)) ->
  In (lineups_artistId v) (ids (artists s)) ->
  references_hold s ->
  references_hold s'.
Proof.
  intros E Hf Ha R.
  destruct (insertLineup_cases faults v s)
    as [(_ & _ & E1)|[(_ & E1)|(m & _ & E1)]];
    rewrite E1 in E; injection E as <- <-.
  - exact R.
  - now apply refs_add_lineup.
  - exact R.
Qed.

Lemma artistStep_refs (festivalId : uuid) (event : RAEvent) (st : Run)
    (artist : RAArtist) :
  references_hold (snd st) ->
  In festivalId (ids (festivals (snd st))) ->
  let st' := artistStep unicodeLower faults festivalId event st artist in
  references_hold (snd st') /\ In festivalId (ids (festivals (snd st'))).
Proof.
  intros R Hf st'.
  destruct (artistStep_spec unicodeLower faults festivalId event st artist)
    as (S1 & _).
  split.
  2:{ apply steps_entities_grow in S1 as (_ & _ & G & _).
      eapply ids_extends; eassumption. }
  subst st'. destruct st as [c s]. cbn [snd] in *. unfold artistStep.
  destruct (upsertArtist unicodeLower faults artist s) as [[i|m] s1] eqn:E1;
    destruct (upsertArtist_refs _ _ _ _ E1 R) as (R1 & I1); [|exact R1].
  destruct (upsertArtist_result unicodeLower faults _ _ _ _ E1) as (G1 & _).
  apply steps_entities_grow in G1 as (_ & _ & G1 & _).
  assert (R2 : forall out s2,
             insertLineupOnConflictDoNothing faults
               (lineup_values festivalId i event) s1 = (out, s2) ->
             references_hold s2).
  { intros out s2 E2. eapply insertLineup_refs; [exact E2| | |exact R1].
    - cbn [lineups_festivalId lineup_values]. eapply ids_extends; eassumption.
    - cbn [lineups_artistId lineup_values]. now apply I1. }
  destruct (insertLineupOnConflictDoNothing faults _ s1) as [[u|m] s2] eqn:E2;
    cbn [snd]; eapply R2; reflexivity.
Qed.

Lemma artists_loop_refs (festivalId : uuid) (event : RAEvent)
    (l : list RAArtist) :
  forall st : Run,
    references_hold (snd st) ->
    In festivalId (ids (festivals (snd st))) ->
    references_hold
      (snd (fold_left (artistStep unicodeLower faults festivalId event) l st)).
Proof.
  induction l as [|a l IH]; intros st R Hf; [exact R|].
  cbn [fold_left].
  destruct (artistStep_refs festivalId event st a R Hf) as [R1 H1].
  now apply IH.
Qed.

Lemma listingStep_refs (st : Run) (listing : RAEventListing) :
  references_hold (snd st) ->
  references_hold (snd (listingStep unicodeLower faults st listing)).
Proof.
  intros R. destruct st as [c s]. cbn [snd] in R. unfold listingStep.
  destruct (listing_event listing) as [event|]; [|exact R].
  destruct (upsertVenue faults event s) as [[venueId|m] s1] eqn:E1;
    destruct (upsertVenue_refs _ _ _ _ E1 R) as (R1 & I1); [|exact R1].
  destruct (upsertFestival unicodeLower faults event venueId s1)
    as [[festivalId|m] s2] eqn:E2.
  - destruct (upsertFestival_refs _ _ _ _ _ E2) as (R2 & I2);
      [intros i ->; now apply I1 | exact R1 |].
    apply artists_loop_refs; cbn [snd]; [exact R2 | now apply I2].
  - destruct (upsertFestival_refs _ _ _ _ _ E2) as (R2 & I2);
      [intros i ->; now apply I1 | exact R1 | exact R2].
Qed.

Lemma listings_loop_refs (listings : list RAEventListing) :
  forall st : Run,
    references_hold (snd st) ->
    references_hold
      (snd (fold_left (listingStep unicodeLower faults) listings st)).
Proof.
  induction listings as [|x l IH]; intros st R; [exact R|].
  cbn [fold_left]. apply IH. now apply listingStep_refs.
Qed.

Variable network : N -> jsstring -> jsstring -> nat -> Reply.
Variable elapsed : N -> Z.
Variable fuel : nat.

Lemma syncArea_refs (areaName : jsstring) (areaId : N)
    (dateGte dateLte : jsstring) (s s' : Store) (out : result Counters) :
  syncArea unicodeLower faults network elapsed fuel areaName areaId
    dateGte dateLte s = Some (out, s') ->
  references_hold s -> references_hold s'.
Proof.
  intros E R.
  destruct (syncArea_spec _ _ _ _ _ _ _ _ _ _ _ _ E)
    as (fetched & tr & s1 & _ & -> & _ & Hs').
  assert (R1 : references_hold
                 (snd (processFetched unicodeLower faults areaName fetched s))).
  { unfold processFetched. destruct fetched as [listings|m]; [|exact R].
    now apply listings_loop_refs. }
  destruct Hs' as [(m & _ & ->)|(_ & ->)]; exact R1.
Qed.

Lemma syncAreas_refs (dateGte dateLte : jsstring) :
  forall (areas : list (jsstring * N)) (totals : nat * nat) (s s' : Store)
         (out : result (nat * nat)),
    syncAreas unicodeLower faults network elapsed fuel areas dateGte dateLte
      totals s = Some (out, s') ->
    references_hold s -> references_hold s'.
Proof.
  induction areas as [|[name areaId] rest IH]; intros totals s s' out E R;
    cbn [syncAreas] in E.
  - now injection E as <- <-.
  - destruct (syncArea unicodeLower faults network elapsed fuel name areaId
                dateGte dateLte s) as [[[c|m] s1]|] eqn:E1; [| |discriminate];
      pose proof (syncArea_refs _ _ _ _ _ _ _ E1 R) as R1.
    + eapply IH; eassumption.
    + now injection E as <- <-.
Qed.

End AnyStore.

(** X11.  The reconciliation never writes a dangling reference.  When every
    lineup row of the store points to existing festival and artist rows and
    every festival with a venue points to an existing venue row, the same
    holds after a run of [syncArea] and after a run of [main], whatever
    failed on the way. *)
Theorem sync_keeps_references (unicodeLower : N -> jsstring) (faults : Faults)
    (network : N -> jsstring -> jsstring -> nat -> Reply) (elapsed : N -> Z)
    (fuel : nat) (dateGte dateLte : jsstring) (s s' : Store) :
  references_hold s ->
  (forall areaName areaId out,
      syncArea unicodeLower faults network elapsed fuel areaName areaId
        dateGte dateLte s = Some (out, s') ->
      references_hold s')
  /\ (forall out,
      main unicodeLower faults network elapsed fuel dateGte dateLte s
      = Some (out, s') ->
      references_hold s').
Proof.
  intros R. split.
  - intros areaName areaId out E.
    exact (syncArea_refs unicodeLower faults network elapsed fuel areaName
             areaId dateGte dateLte s s' out E R).
  - intros out E. unfold main in E.
    exact (syncAreas_refs unicodeLower faults network elapsed fuel dateGte
             dateLte targetAreas (0, 0) s s' out E R).
Qed.

End ReferenceFacts.

(** ** The second scraper *)

Module RescrapeFacts.
Import StoreFacts UpsertFacts LoopFacts RunFacts KeepFacts ReferenceFacts.
Import ScrapeExtra.

Lemma steps_snoc (s t u : Store) :
  entity_steps s t -> entity_step t u -> entity_steps s u.
Proof.
  intros H1 H2. eapply entity_steps_trans; [exact H1|].
  now apply entity_steps_one.
Qed.

Ltac walk :=
  repeat first
    [ apply steps_done
    | eapply steps_snoc; [|apply step_tick]
    | eapply steps_snoc; [|apply step_venue]
    | eapply steps_snoc; [|apply step_artist; eassumption]
    | eapply steps_snoc; [|apply step_festival; eassumption]
    | eapply steps_snoc; [|apply step_lineup; eassumption] ].

Ltac run_statements :=
  repeat (cbv beta iota;
          cbn [clock tick artists festivals venues festivalLineups
               add_artist add_festival add_venue add_lineup];
          match goal with
          | |- context [match ?x with Some _ => _ | None => _ end] =>
              destruct x eqn:?
          | |- context [if ?b then _ else _] => destruct b eqn:?
          end).

Section AnyStore.

Variable unicodeLower : N -> jsstring.
Variable faults : Faults.

Local Abbreviation artistTurn := (artistTurn unicodeLower faults).
Local Abbreviation artistTurns := (artistTurns unicodeLower faults).
Local Abbreviation listingTurn := (listingTurn unicodeLower faults).
Local Abbreviation listingTurns := (listingTurns unicodeLower faults).

Lemma artistTurn_spec (festivalId : uuid) (event : RAEvent)
    (artist : RAArtist) (t t' : Tally) (s s' : Store) (out : result unit) :
  artistTurn festivalId event artist t s = (out, t', s') ->
  entity_steps s s'
  /\ newEvents t' = newEvents t
  /\ length (artists s') + newArtists t = length (artists s) + newArtists t'
  /\ festivals s' = festivals s
  /\ venues s' = venues s.
Proof.
  unfold ScrapeExtra.artistTurn, selectArtistBySlug, insertArtist,
    insertLineupOnConflictDoNothing, statement.
  run_statements; cbv beta iota; intros [= <- <- <-];
    cbn [artists festivals venues add_artist add_lineup tick newArtists
         newEvents count_new_artist];
    rewrite ?length_app; cbn [length];
    (split; [walk|]); repeat split; lia.
Qed.

Lemma artistTurns_spec (festivalId : uuid) (event : RAEvent)
    (l : list RAArtist) :
  forall (t t' : Tally) (s s' : Store) (out : result unit),
    artistTurns festivalId event l t s = (out, t', s') ->
    entity_steps s s'
    /\ newEvents t' = newEvents t
    /\ length (artists s') + newArtists t = length (artists s) + newArtists t'
    /\ festivals s' = festivals s
    /\ venues s' = venues s.
Proof.
  induction l as [|a l IH]; intros t t' s s' out E;
    cbn [ScrapeExtra.artistTurns] in E.
  - injection E as <- <- <-. split; [apply steps_done|]. auto.
  - destruct (artistTurn festivalId event a t s) as [[[u|m] t1] s1] eqn:E1;
      destruct (artistTurn_spec _ _ _ _ _ _ _ _ E1) as (A1 & A2 & A3 & A4 & A5).
    + destruct (IH _ _ _ _ _ E) as (B1 & B2 & B3 & B4 & B5).
      split; [eapply entity_steps_trans; eassumption|].
      repeat split; try lia; congruence.
    + injection E as <- <- <-. auto.
Qed.

Lemma refs_tick (s : Store) : references_hold s -> references_hold (tick s).
Proof. exact (fun H => H). Qed.

Lemma artistTurn_refs (festivalId : uuid) (event : RAEvent)
    (artist : RAArtist) (t t' : Tally) (s s' : Store) (out : result unit) :
  artistTurn festivalId event artist t s = (out, t', s') ->
  references_hold s ->
  In festivalId (ids (festivals s)) ->
  references_hold s'.
Proof.
  unfold ScrapeExtra.artistTurn, selectArtistBySlug, insertArtist,
    insertLineupOnConflictDoNothing, statement.
  run_statements; cbv beta iota; intros [= <- <- <-] R Hf;
    repeat apply refs_tick; try exact R.
  - apply refs_add_lineup; repeat apply refs_tick; try exact R; try exact Hf.
    cbn [dated_lineup lineups_artistId artists tick].
    eapply find_In_ids; eassumption.
  - now apply refs_add_artist.
  - now apply refs_add_artist.
  - apply refs_add_lineup; repeat apply refs_tick.
    + exact Hf.
    + cbn [dated_lineup lineups_artistId artists tick add_artist next_uuid].
      exact (ids_last (artists s) {| id := next_uuid s; values := _ |}).
    + now apply refs_add_artist.
Qed.

Lemma artistTurns_refs (festivalId : uuid) (event : RAEvent)
    (l : list RAArtist) :
  forall (t t' : Tally) (s s' : Store) (out : result unit),
    artistTurns festivalId event l t s = (out, t', s') ->
    references_hold s ->
    In festivalId (ids (festivals s)) ->
    references_hold s'.
Proof.
  induction l as [|a l IH]; intros t t' s s' out E R Hf;
    cbn [ScrapeExtra.artistTurns] in E.
  - now injection E as <- <- <-.
  - destruct (artistTurn festivalId event a t s) as [[[u|m] t1] s1] eqn:E1;
      pose proof (artistTurn_refs _ _ _ _ _ _ _ _ E1 R Hf) as R1.
    + destruct (artistTurn_spec _ _ _ _ _ _ _ _ E1) as (_ & _ & _ & A4 & _).
      eapply IH; [exact E | exact R1 | now rewrite A4].
    + now injection E as <- <- <-.
Qed.

Lemma venueOf_spec (event : RAEvent) (s s' : Store)
    (out : result (option uuid)) :
  venueOf faults event s = (out, s') ->
  entity_steps s s'
  /\ festivals s' = festivals s
  /\ artists s' = artists s
  /\ festivalLineups s' = festivalLineups s
  /\ (references_hold s ->
      references_hold s'
      /\ forall i, out = Ok (Some i) -> In i (ids (venues s'))).
Proof.
  unfold venueOf.
  destruct (event_venue event) as [v|].
  2:{ intros [= <- <-]. split; [apply steps_done|].
      do 3 (split; [reflexivity|]). intros R. split; [exact R | discriminate]. }
  destruct (venue_name v) as [|c name].
  { intros [= <- <-]. split; [apply steps_done|].
    do 3 (split; [reflexivity|]). intros R. split; [exact R | discriminate]. }
  unfold bind, ScrapeExtra.upsertVenue, bind, selectVenueByName, insertVenue,
    statement, ret.
  run_statements; cbv beta iota; intros [= <- <-];
    (split; [walk|]); cbn [festivals artists festivalLineups venues tick
                           add_venue];
    do 3 (split; [reflexivity|]); intros R.
  - split; [exact R | discriminate].
  - split; [exact R|].
    intros i [= <-]. eapply find_In_ids; eassumption.
  - split; [exact R | discriminate].
  - split; [now apply refs_add_venue|].
    intros i [= <-].
    exact (ids_last (venues s) {| id := next_uuid s; values := _ |}).
Qed.

Lemma known_grows (s t : Store) (listing : RAEventListing) :
  extends (festivals s) (festivals t) ->
  known unicodeLower s listing -> known unicodeLower t listing.
Proof.
  intros G (event & r & E & F). exists event, r. split; [exact E|].
  eapply find_extends; eassumption.
Qed.

Lemma listingTurn_spec (listing : RAEventListing) (t t' : Tally)
    (s s' : Store) (out : result unit) :
  listingTurn listing t s = (out, t', s') ->
  entity_steps s s'
  /\ length (festivals s') + newEvents t = length (festivals s) + newEvents t'
  /\ length (artists s') + newArtists t = length (artists s) + newArtists t'
  /\ (known unicodeLower s listing -> same_entities s s' /\ t' = t)
  /\ (forall u, out = Ok u -> known unicodeLower s' listing)
  /\ (references_hold s -> references_hold s').
Proof.
  unfold ScrapeExtra.listingTurn.
  destruct (listing_event listing) as [event|] eqn:L.
  2:{ intros [= <- <- <-]. split; [apply steps_done|].
      do 2 (split; [reflexivity|]).
      split; [intros _; split; [apply same_entities_refl | reflexivity]|].
      split; [discriminate | auto]. }
  unfold selectFestivalBySlug, statement.
  destruct (faults (clock s) _) as [m|].
  { intros [= <- <- <-]. split; [walk|].
    do 2 (split; [reflexivity|]).
    split; [intros _; split; [apply same_entities_tick | reflexivity]|].
    split; [discriminate | auto]. }
  cbn [festivals tick].
  destruct (find _ (festivals s)) as [r|] eqn:F.
  { intros [= <- <- <-]. split; [walk|].
    do 2 (split; [reflexivity|]).
    split; [intros _; split; [apply same_entities_tick | reflexivity]|].
    split; [|auto].
    intros u _. exists event, r. auto. }
  assert (Hnew : known unicodeLower s listing -> False).
  { intros (e & r & E & F'). rewrite L in E. injection E as <-.
    rewrite F in F'. discriminate. }
  destruct (venueOf faults event (tick s)) as [[venueId|m] s2] eqn:EV;
    destruct (venueOf_spec _ _ _ _ EV) as (V1 & V2 & V3 & V4 & V5);
    cbn [festivals artists festivalLineups tick] in V2, V3, V4.
  2:{ intros [= <- <- <-].
      split; [eapply entity_steps_trans; [|exact V1]; walk|].
      rewrite V2, V3. do 2 (split; [reflexivity|]).
      split; [intros K; destruct (Hnew K)|].
      split; [discriminate|]. intros R. now apply V5. }
  unfold insertFestival, statement.
  destruct (faults (clock s2) _) as [m|].
  { intros [= <- <- <-].
    split; [eapply steps_snoc; [|apply step_tick];
            eapply entity_steps_trans; [|exact V1]; walk|].
    cbn [festivals artists tick]. rewrite V2, V3.
    do 2 (split; [reflexivity|]).
    split; [intros K; destruct (Hnew K)|].
    split; [discriminate|]. intros R. now apply V5. }
  cbn [festivals tick festivals_slug festival_values]. rewrite V2.
  rewrite (find_none_existsb _ _ F).
  intros E.
  destruct (artistTurns_spec _ _ _ _ _ _ _ _ E) as (A1 & A2 & A3 & A4 & A5).
  cbn [festivals artists venues add_festival tick newEvents newArtists
       count_new_event] in A2, A3, A4, A5.
  split.
  { eapply entity_steps_trans; [|exact A1].
    eapply steps_snoc;
      [eapply steps_snoc; [|apply step_tick];
       eapply entity_steps_trans; [|exact V1]; walk|].
    apply step_festival. cbn [festivals tick festivals_slug festival_values].
    rewrite V2. exact (find_none_existsb _ _ F). }
  rewrite A4, V2, length_app. cbn [length]. rewrite V3 in A3.
  split; [lia|]. split; [lia|].
  split; [intros K; destruct (Hnew K)|]. split.
  - intros u _. exists event. eexists. split; [exact L|].
    rewrite A4, V2. apply find_snoc_none; [exact F|].
    unfold festival_slugged. cbn [values festivals_slug festival_values].
    apply jseqb_refl.
  - intros R. destruct (V5 R) as (R2 & I2).
    eapply artistTurns_refs; [exact E| |].
    + apply refs_add_festival; [|apply refs_tick; exact R2].
      cbn [festivals_venueId festival_values venues tick].
      intros i ->. now apply I2.
    + cbn [festivals add_festival tick next_uuid]. rewrite V2.
      exact (ids_last (festivals s) {| id := next_uuid s2; values := _ |}).
Qed.

Lemma listingTurns_spec (listings : list RAEventListing) :
  forall (t t' : Tally) (s s' : Store) (out : result unit),
    listingTurns listings t s = (out, t', s') ->
    entity_steps s s'
    /\ length (festivals s') + newEvents t = length (festivals s) + newEvents t'
    /\ length (artists s') + newArtists t = length (artists s) + newArtists t'
    /\ (Forall (known unicodeLower s) listings -> same_entities s s' /\ t' = t)
    /\ (forall u, out = Ok u -> Forall (known unicodeLower s') listings)
    /\ (references_hold s -> references_hold s').
Proof.
  induction listings as [|x l IH]; intros t t' s s' out E;
    cbn [ScrapeExtra.listingTurns] in E.
  - injection E as <- <- <-. split; [apply steps_done|].
    do 2 (split; [reflexivity|]).
    split; [intros _; split; [apply same_entities_refl | reflexivity]|].
    split; [constructor | auto].
  - destruct (listingTurn x t s) as [[[u|m] t1] s1] eqn:E1;
      destruct (listingTurn_spec _ _ _ _ _ _ E1)
        as (A1 & A2 & A3 & A4 & A5 & A6).
    + destruct (IH _ _ _ _ _ E) as (B1 & B2 & B3 & B4 & B5 & B6).
      split; [eapply entity_steps_trans; eassumption|].
      split; [lia|]. split; [lia|]. split; [|split].
      * intros K. inversion K as [|? ? Kx Kl]; subst.
        destruct (A4 Kx) as (Q1 & ->).
        destruct B4 as (Q2 & ->).
        { eapply Forall_impl; [|exact Kl]. intros y.
          apply known_grows. destruct Q1 as (_ & _ & -> & _).
          apply extends_refl. }
        split; [eapply same_entities_trans; eassumption | reflexivity].
      * intros u' Hu. constructor; [|now apply (B5 u')].
        eapply known_grows; [|exact (A5 u eq_refl)].
        apply entity_steps_grows in B1. apply B1.
      * auto.
    + injection E as <- <- <-. split; [exact A1|].
      split; [exact A2|]. split; [exact A3|]. split; [|split].
      * intros K. inversion K; subst. auto.
      * discriminate.
      * exact A6.
Qed.

Lemma tried_spec (fetched : result (list RAEventListing)) (t : Tally)
    (s s1 : Store) (out : result unit) :
  tried unicodeLower faults fetched s = (out, t, s1) ->
  entity_steps s s1
  /\ length (festivals s1) = length (festivals s) + newEvents t
  /\ length (artists s1) = length (artists s) + newArtists t
  /\ (references_hold s -> references_hold s1)
  /\ (forall listings,
        fetched = Ok listings ->
        (Forall (known unicodeLower s) listings ->
         same_entities s s1 /\ t = no_tally)
        /\ (forall u, out = Ok u -> Forall (known unicodeLower s1) listings)).
Proof.
  unfold tried. destruct fetched as [listings|m].
  - intros E.
    destruct (listingTurns_spec _ _ _ _ _ _ E) as (A1 & A2 & A3 & A4 & A5 & A6).
    cbn [newEvents newArtists no_tally] in A2, A3.
    split; [exact A1|]. split; [lia|]. split; [lia|]. split; [exact A6|].
    intros l [= <-]. split; [exact A4 | exact A5].
  - intros [= <- <- <-]. split; [apply steps_done|].
    cbn [newEvents newArtists no_tally].
    split; [lia|]. split; [lia|]. split; [auto|]. discriminate.
Qed.

(** A listing that [syncArea] counted has its festival in the table. *)
Lemma listingStep_counted (st : Run) (listing : RAEventListing) :
  let st' := listingStep unicodeLower faults st listing in
  festivalsFound (fst st') = S (festivalsFound (fst st)) ->
  known unicodeLower (snd st') listing.
Proof.
  destruct st as [c s]. unfold listingStep. cbn [fst snd].
  destruct (listing_event listing) as [event|] eqn:L.
  2:{ cbn [fst festivalsFound push_error]. lia. }
  destruct (Sync.upsertVenue faults event s) as [[venueId|m] s1].
  2:{ cbn [fst festivalsFound push_error]. lia. }
  destruct (upsertFestival unicodeLower faults event venueId s1)
    as [[festivalId|m] s2] eqn:E2.
  2:{ cbn [fst festivalsFound push_error]. lia. }
  intros _.
  destruct (upsertFestival_result unicodeLower faults _ _ _ _ _ E2)
    as (_ & O2 & _).
  destruct (O2 festivalId eq_refl) as (r & F & _).
  destruct (artists_loop_spec unicodeLower faults festivalId event
              (artists_of event) (count_festival c, s2)) as (S3 & _).
  exists event, r. split; [exact L|].
  apply steps_entities_grow in S3 as (_ & _ & G & _).
  eapply find_extends; [exact G | exact F].
Qed.

Lemma listings_loop_counted (listings : list RAEventListing) :
  forall st : Run,
    let st' := fold_left (listingStep unicodeLower faults) listings st in
    festivalsFound (fst st') = length listings + festivalsFound (fst st) ->
    Forall (known unicodeLower (snd st')) listings.
Proof.
  induction listings as [|x l IH]; intros st; cbn [fold_left length];
    [constructor|].
  intros H.
  destruct (CountFacts.listingStep_bounds unicodeLower faults st x) as (A1 & _).
  destruct (CountFacts.listings_loop_bounds unicodeLower faults l
              (listingStep unicodeLower faults st x)) as (B1 & _).
  destruct (listings_loop_spec unicodeLower faults l
              (listingStep unicodeLower faults st x)) as (S1 & _).
  cbv zeta in A1, B1, S1.
  constructor.
  - eapply known_grows;
      [apply steps_entities_grow in S1 as (_ & _ & G & _); exact G|].
    apply listingStep_counted. lia.
  - apply IH. lia.
Qed.

Variable network : N -> jsstring -> jsstring -> nat -> Reply.
Variable duration : Z.
Variable fuel : nat.

Local Abbreviation rescrapeRA :=
  (rescrapeRA unicodeLower faults network duration fuel).

(** [rescrapeRA] is its three stages in a row: fetch, insert, log. *)
Lemma rescrapeRA_stages (dateGte dateLte : jsstring) (s : Store)
    (fetched : result (list RAEventListing)) (trace : list Effect)
    (out : result unit) (t : Tally) (s1 : Store) :
  fetchRAEvents (network 26%N dateGte dateLte) fuel = Some (fetched, trace) ->
  tried unicodeLower faults fetched s = (out, t, s1) ->
  rescrapeRA dateGte dateLte s
  = match faults (clock s1) (InsertScrapeLog (rescrape_log t duration)) with
    | Some message => Some (Throw message, tick s1)
    | None =>
        Some (Ok (newEvents t), add_log (rescrape_log t duration) (tick s1))
    end.
Proof.
  intros F E. unfold ScrapeExtra.rescrapeRA. rewrite F, E.
  unfold insertScrapeLog, statement.
  now destruct (faults (clock s1) _).
Qed.

(** What a call of [rescrapeRA] that returns has done. *)
Lemma rescrapeRA_spec (dateGte dateLte : jsstring) (s s' : Store)
    (res : result nat) :
  rescrapeRA dateGte dateLte s = Some (res, s') ->
  exists fetched trace out t s1,
    fetchRAEvents (network 26%N dateGte dateLte) fuel = Some (fetched, trace)
    /\ tried unicodeLower faults fetched s = (out, t, s1)
    /\ ((exists message, res = Throw message /\ s' = tick s1)
        \/ (res = Ok (newEvents t)
            /\ s' = add_log (rescrape_log t duration) (tick s1))).
Proof.
  intros E.
  destruct (fetchRAEvents (network 26%N dateGte dateLte) fuel)
    as [[fetched tr]|] eqn:F.
  2:{ unfold ScrapeExtra.rescrapeRA in E. rewrite F in E. discriminate. }
  destruct (tried unicodeLower faults fetched s) as [[out t] s1] eqn:T.
  rewrite (rescrapeRA_stages _ _ _ _ _ _ _ _ F T) in E.
  exists fetched, tr, out, t, s1. split; [reflexivity|]. split; [exact T|].
  destruct (faults _ _) as [m|]; injection E as <- <-; [left; eauto | right; auto].
Qed.

(** Nothing is inserted for listings whose festivals are there. *)
Lemma rescrapeRA_known (dateGte dateLte : jsstring)
    (listings : list RAEventListing) (trace : list Effect) (s : Store) :
  fetchRAEvents (network 26%N dateGte dateLte) fuel
  = Some (Ok listings, trace) ->
  Forall (known unicodeLower s) listings ->
  exists res s',
    rescrapeRA dateGte dateLte s = Some (res, s')
    /\ same_entities s s'
    /\ forall n, res = Ok n -> n = 0.
Proof.
  intros F K.
  destruct (tried unicodeLower faults (Ok listings) s) as [[out t] s1] eqn:T.
  destruct (tried_spec _ _ _ _ _ T) as (_ & _ & _ & _ & H).
  destruct (H listings eq_refl) as (H1 & _).
  destruct (H1 K) as (Q & ->).
  rewrite (rescrapeRA_stages dateGte dateLte s _ trace out no_tally s1 F T).
  destruct (faults (clock s1) _) as [m|]; do 2 eexists;
    (split; [reflexivity|]); (split; [|intros n [=]; auto]).
  - eapply same_entities_trans; [exact Q | apply same_entities_tick].
  - eapply same_entities_trans; [exact Q | apply same_entities_logged].
Qed.

End AnyStore.

(** X21.  [rescrapeRA] counts what it inserts.  The number it returns and
    the counts of its log row are the numbers of festival and artist rows
    that the call added to the tables, also when the loop was cut short by a
    failure; and the log row always says [success] with no error. *)
Theorem rescrapeRA_counts_its_inserts (unicodeLower : N -> jsstring)
    (faults : Faults) (network : N -> jsstring -> jsstring -> nat -> Reply)
    (duration : Z) (fuel : nat) (dateGte dateLte : jsstring) (s s' : Store)
    (n : nat) :
  rescrapeRA unicodeLower faults network duration fuel dateGte dateLte s
  = Some (Ok n, s') ->
  n = added (festivals s) (festivals s')
  /\ exists row,
      scrapeLogs s' = scrapeLogs s ++ [row]
      /\ logs_festivalsFound (values row) = added (festivals s) (festivals s')
      /\ logs_artistsFound (values row) = added (artists s) (artists s')
      /\ logs_status (values row) = lit "success"
      /\ logs_errors (values row) = [].
Proof.
  intros E.
  destruct (rescrapeRA_spec _ _ _ _ _ _ _ _ _ _ E)
    as (fetched & tr & out & t & s1 & _ & T & [(m & [=] & _)|([= ->] & ->)]).
  destruct (tried_spec _ _ _ _ _ _ _ T) as (S1 & K1 & K2 & _).
  unfold added. cbn [festivals artists scrapeLogs add_log tick].
  rewrite K1, K2, (entity_steps_logs _ _ S1).
  split; [lia|]. eexists. split; [reflexivity|].
  cbn [values rescrape_log logs_festivalsFound logs_artistsFound logs_status
       logs_errors].
  repeat split; lia.
Qed.

(** X22.  [rescrapeRA] stops at the first listing that fails.  When the
    turn of a listing throws, the listings after it are not looked at: the
    call goes straight to the log row, which records the counts reached so
    far under the status [success]. *)
Theorem rescrapeRA_stops_at_the_first_failure (unicodeLower : N -> jsstring)
    (faults : Faults) (network : N -> jsstring -> jsstring -> nat -> Reply)
    (duration : Z) (fuel : nat) (dateGte dateLte : jsstring)
    (before after : list RAEventListing) (listing : RAEventListing)
    (trace : list Effect) (u : unit) (message : jsstring) (t1 t2 : Tally)
    (s s1 s2 : Store) :
  fetchRAEvents (network 26%N dateGte dateLte) fuel
  = Some (Ok (before ++ listing :: after), trace) ->
  listingTurns unicodeLower faults before no_tally s = (Ok u, t1, s1) ->
  listingTurn unicodeLower faults listing t1 s1 = (Throw message, t2, s2) ->
  rescrapeRA unicodeLower faults network duration fuel dateGte dateLte s
  = match faults (clock s2) (InsertScrapeLog (rescrape_log t2 duration)) with
    | Some refusal => Some (Throw refusal, tick s2)
    | None =>
        Some (Ok (newEvents t2), add_log (rescrape_log t2 duration) (tick s2))
    end.
Proof.
  intros F E1 E2.
  apply (rescrapeRA_stages unicodeLower faults network duration fuel dateGte
           dateLte s _ trace (Throw message) t2 s2 F).
  unfold tried. clear F. revert s E1.
  generalize no_tally as t0.
  induction before as [|x l IH]; intros t0 s E1;
    cbn [app ScrapeExtra.listingTurns] in *.
  - injection E1 as <- <- <-. now rewrite E2.
  - destruct (listingTurn unicodeLower faults x t0 s) as [[[v|m] t'] s'];
      [|discriminate].
    now apply IH.
Qed.

(** X23.  [rescrapeRA] never completes a festival that is already there.
    When the festival of every listing is in the table, the call leaves the
    venue, festival, artist and lineup tables as they were (no missing
    artist or lineup row is added) and reports no new event. *)
Theorem rescrapeRA_skips_known_festivals (unicodeLower : N -> jsstring)
    (faults : Faults) (network : N -> jsstring -> jsstring -> nat -> Reply)
    (duration : Z) (fuel : nat) (dateGte dateLte : jsstring)
    (listings : list RAEventListing) (trace : list Effect) (s : Store) :
  fetchRAEvents (network 26%N dateGte dateLte) fuel
  = Some (Ok listings, trace) ->
  Forall (known unicodeLower s) listings ->
  exists res s',
    rescrapeRA unicodeLower faults network duration fuel dateGte dateLte s
    = Some (res, s')
    /\ same_entities s s'
    /\ forall n, res = Ok n -> n = 0.
Proof.
  intros F K.
  exact (rescrapeRA_known unicodeLower faults network duration fuel dateGte
           dateLte listings trace s F K).
Qed.

(** X24.  [rescrapeRA] keeps the keys of the store.  A call only appends
    rows, and it keeps the artist slugs, the festival slugs and the lineup
    pairs unique and the references between the tables valid. *)
Theorem rescrapeRA_keeps_the_keys (unicodeLower : N -> jsstring)
    (faults : Faults) (network : N -> jsstring -> jsstring -> nat -> Reply)
    (duration : Z) (fuel : nat) (dateGte dateLte : jsstring) (s s' : Store)
    (res : result nat) :
  rescrapeRA unicodeLower faults network duration fuel dateGte dateLte s
  = Some (res, s') ->
  grows s s'
  /\ (unique_artist_slugs s /\ unique_festival_slugs s ->
      unique_artist_slugs s' /\ unique_festival_slugs s')
  /\ (unique_lineups s -> unique_lineups s')
  /\ (references_hold s -> references_hold s').
Proof.
  intros E.
  destruct (rescrapeRA_spec _ _ _ _ _ _ _ _ _ _ E)
    as (fetched & tr & out & t & s1 & _ & T & Hs').
  destruct (tried_spec _ _ _ _ _ _ _ T) as (S1 & _ & _ & R1 & _).
  assert (Q : same_entities s1 s' /\ grows s1 s').
  { destruct Hs' as [(m & _ & ->)|(_ & ->)].
    - split; [apply same_entities_tick | apply grows_tick].
    - split; [apply same_entities_logged | apply grows_logged]. }
  destruct Q as (Q & G).
  split; [eapply grows_trans; [apply entity_steps_grows, S1 | exact G]|].
  split; [|split].
  - intros U. apply (entity_steps_unique_slugs _ _ S1) in U.
    unfold unique_artist_slugs, unique_festival_slugs in *.
    destruct Q as (_ & <- & <- & _). exact U.
  - intros U. apply (entity_steps_unique_lineups _ _ S1) in U.
    unfold unique_lineups in *. destruct Q as (_ & _ & _ & <-). exact U.
  - intros R. eapply refs_same; [exact Q | now apply R1].
Qed.

(** X25.  [rescrapeRA] after [syncArea].  When [syncArea] has counted
    every listing of the region, a call of [rescrapeRA] on the same
    listings inserts nothing and reports no new event, whatever the store
    accepts by then: in particular the artists that failed during
    [syncArea] are not tried again. *)
Theorem rescrapeRA_after_syncArea_adds_nothing (unicodeLower : N -> jsstring)
    (faults later : Faults)
    (network : N -> jsstring -> jsstring -> nat -> Reply) (elapsed : N -> Z)
    (duration : Z) (fuel : nat) (areaName dateGte dateLte : jsstring)
    (listings : list RAEventListing) (trace : list Effect) (c : Counters)
    (s s1 : Store) :
  fetchRAEvents (network 26%N dateGte dateLte) fuel
  = Some (Ok listings, trace) ->
  syncArea unicodeLower faults network elapsed fuel areaName 26%N
    dateGte dateLte s = Some (Ok c, s1) ->
  festivalsFound c = length listings ->
  exists res s2,
    rescrapeRA unicodeLower later network duration fuel dateGte dateLte s1
    = Some (res, s2)
    /\ same_entities s1 s2
    /\ forall n, res = Ok n -> n = 0.
Proof.
  intros F E H.
  apply (rescrapeRA_known unicodeLower later network duration fuel dateGte
           dateLte listings trace s1 F).
  destruct (syncArea_spec _ _ _ _ _ _ _ _ _ _ _ _ E)
    as (fetched & tr & s0 & F' & -> & _ & [(m & [=] & _)|([= ->] & ->)]).
  rewrite F in F'. injection F' as <- <-.
  unfold processFetched in *.
  pose proof (listings_loop_counted unicodeLower faults listings
                (no_counters, s)) as K.
  cbv zeta in K. cbn [fst snd festivalsFound no_counters] in K.
  eapply Forall_impl; [|apply K; lia].
  intros x. apply known_grows. cbn [festivals add_log tick].
  apply extends_refl.
Qed.

End RescrapeFacts.
(** ** The second scraper against a store that accepts everything *)

Module RescrapeWillingFacts.
Import StoreFacts UpsertFacts LoopFacts RunFacts KeepFacts RescrapeFacts.
Import ScrapeExtra.

Section Willing.

Variable unicodeLower : N -> jsstring.
Variable faults : Faults.
Hypothesis accepts : never_refuses faults.

Lemma artistTurn_accepted (festivalId : uuid) (event : RAEvent)
    (artist : RAArtist) (t : Tally) (s : Store) :
  fst (fst (artistTurn unicodeLower faults festivalId event artist t s))
  = Ok tt.
Proof.
  unfold artistTurn, selectArtistBySlug, insertArtist,
    insertLineupOnConflictDoNothing, statement.
  rewrite ?accepts. cbn [artists tick].
  destruct (find _ (artists s)) as [r|] eqn:F.
  - rewrite ?accepts. now destruct (existsb _ _).
  - rewrite ?accepts. cbn [artists tick artists_slug new_artist].
    rewrite (find_none_existsb _ _ F). rewrite ?accepts.
    now destruct (existsb _ _).
Qed.

Lemma artistTurns_accepted (festivalId : uuid) (event : RAEvent)
    (l : list RAArtist) :
  forall (t : Tally) (s : Store),
    fst (fst (artistTurns unicodeLower faults festivalId event l t s)) = Ok tt.
Proof.
  induction l as [|a l IH]; intros t s; [reflexivity|].
  cbn [artistTurns].
  pose proof (artistTurn_accepted festivalId event a t s) as H.
  destruct (artistTurn unicodeLower faults festivalId event a t s)
    as [[[u|m] t1] s1]; [apply IH | discriminate H].
Qed.

Lemma venueOf_accepted (event : RAEvent) (s : Store) :
  completed (venueOf faults event s) = true.
Proof.
  unfold venueOf.
  destruct (event_venue event) as [v|]; [|reflexivity].
  destruct (venue_name v); [reflexivity|].
  unfold bind, ScrapeExtra.upsertVenue, bind, selectVenueByName, insertVenue,
    statement, ret.
  rewrite ?accepts. destruct (find _ _); [reflexivity|].
  now rewrite ?accepts.
Qed.

Lemma listingTurn_accepted (listing : RAEventListing) (t : Tally) (s : Store) :
  has_event listing ->
  fst (fst (listingTurn unicodeLower faults listing t s)) = Ok tt.
Proof.
  intros Hev. unfold listingTurn.
  destruct (listing_event listing) as [event|] eqn:L;
    [|exfalso; apply Hev; exact L].
  unfold selectFestivalBySlug, statement. rewrite ?accepts.
  cbn [festivals tick].
  destruct (find _ (festivals s)) as [r|] eqn:F; [reflexivity|].
  pose proof (venueOf_accepted event (tick s)) as HV.
  destruct (venueOf faults event (tick s)) as [[venueId|m] s2] eqn:EV;
    [|discriminate HV].
  destruct (venueOf_spec faults _ _ _ _ EV) as (_ & V2 & _).
  unfold insertFestival, statement. rewrite ?accepts.
  cbn [festivals tick festivals_slug festival_values]. rewrite V2.
  cbn [festivals tick]. rewrite (find_none_existsb _ _ F).
  apply artistTurns_accepted.
Qed.

Lemma listingTurns_accepted (listings : list RAEventListing) :
  Forall has_event listings ->
  forall (t : Tally) (s : Store),
    fst (fst (listingTurns unicodeLower faults listings t s)) = Ok tt.
Proof.
  induction 1 as [|x l Hx _ IH]; intros t s; [reflexivity|].
  cbn [listingTurns].
  pose proof (listingTurn_accepted x t s Hx) as H.
  destruct (listingTurn unicodeLower faults x t s) as [[[u|m] t1] s1];
    [apply IH | discriminate H].
Qed.

End Willing.

(** X26.  One pass of [rescrapeRA] is enough.  When the store accepts every
    statement and every listing carries an event, the call returns, the
    festival of every listing is in the table afterwards, and a second call
    over the same listings inserts nothing and reports no new event,
    whatever the store accepts by then. *)
Theorem rescrapeRA_settles_in_one_pass (unicodeLower : N -> jsstring)
    (faults later : Faults)
    (network : N -> jsstring -> jsstring -> nat -> Reply) (duration : Z)
    (fuel : nat) (dateGte dateLte : jsstring)
    (listings : list RAEventListing) (trace : list Effect) (s : Store) :
  never_refuses faults ->
  Forall has_event listings ->
  fetchRAEvents (network 26%N dateGte dateLte) fuel
  = Some (Ok listings, trace) ->
  exists n s',
    rescrapeRA unicodeLower faults network duration fuel dateGte dateLte s
    = Some (Ok n, s')
    /\ Forall (known unicodeLower s') listings
    /\ exists res s'',
        rescrapeRA unicodeLower later network duration fuel dateGte dateLte s'
        = Some (res, s'')
        /\ same_entities s' s''
        /\ forall m, res = Ok m -> m = 0.
Proof.
  intros Hacc Hev F.
  pose proof (listingTurns_accepted unicodeLower faults Hacc listings Hev
                no_tally s) as HT.
  destruct (tried unicodeLower faults (Ok listings) s) as [[out t] s1] eqn:T.
  change (listingTurns unicodeLower faults listings no_tally s)
    with (tried unicodeLower faults (Ok listings) s) in HT.
  rewrite T in HT. cbn [fst] in HT. subst out.
  destruct (tried_spec unicodeLower faults _ _ _ _ _ T) as (_ & _ & _ & _ & H).
  destruct (H listings eq_refl) as (_ & K).
  specialize (K tt eq_refl).
  rewrite (rescrapeRA_stages unicodeLower faults network duration fuel
             dateGte dateLte s _ trace (Ok tt) t s1 F T).
  rewrite Hacc.
  assert (K' : Forall (known unicodeLower
                         (add_log (rescrape_log t duration) (tick s1)))
                 listings).
  { eapply Forall_impl; [|exact K]. intros x. apply known_grows.
    apply extends_refl. }
  do 2 eexists. split; [reflexivity|]. split; [exact K'|].
  exact (rescrapeRA_known unicodeLower later network duration fuel dateGte
           dateLte listings trace _ F K').
Qed.

End RescrapeWillingFacts.


(** ** More about slugs *)

Module SlugShapeFacts.
Import SlugFacts StoreFacts UpsertFacts.

Lemma trim_collapse_alphabet (s : jsstring) :
  forallb slug_unit (trim_hyphens (collapse_runs false s)) = true.
Proof.
  unfold trim_hyphens. apply drop_trailing_hyphen_alphabet.
  pose proof (collapse_runs_alphabet false s) as H.
  destruct (collapse_runs false s) as [|c r]; [reflexivity|].
  simpl. simpl in H. apply andb_true_iff in H as [Hc Hr].
  destruct (N.eqb c hyphen); [exact Hr | simpl; now rewrite Hc].
Qed.

(** Whatever goes into the last two replacements, a slug comes out. *)
Lemma trim_collapse_well_formed (s : jsstring) :
  well_formed_slug (trim_hyphens (collapse_runs false s)) = true.
Proof.
  unfold well_formed_slug. rewrite trim_collapse_alphabet.
  unfold trim_hyphens.
  destruct (collapse_runs_shape false s) as [H _].
  destruct (drop_leading_hyphen_shape _ H) as [H1 H2].
  destruct (drop_trailing_hyphen_shape _ H1) as (H3 & H4 & H5).
  now rewrite H3, H4, (H5 H2).
Qed.

Lemma slug_unit_small (c : N) : slug_unit c = true -> (c < 128)%N.
Proof.
  unfold slug_unit, is_az09, hyphen. intros H.
  apply orb_true_iff in H as [H|H].
  - apply orb_true_iff in H as [H|H]; apply andb_true_iff in H as [_ H];
      apply N.leb_le in H; lia.
  - apply N.eqb_eq in H. lia.
Qed.

Lemma slug_unit_lower (unicodeLower : N -> jsstring) (c : N) :
  slug_unit c = true -> lower_unit unicodeLower c = [c].
Proof.
  intros H. pose proof (slug_unit_small c H) as Hs.
  unfold lower_unit.
  replace ((65 <=? c) && (c <=? 90))%N with false.
  - apply N.ltb_lt in Hs. now rewrite Hs.
  - symmetry. apply andb_false_iff.
    unfold slug_unit, is_az09, hyphen in H.
    apply orb_true_iff in H as [H|H].
    + apply orb_true_iff in H as [H|H]; apply andb_true_iff in H as [H1 H2];
        apply N.leb_le in H1, H2.
      * right. apply N.leb_gt. lia.
      * left. apply N.leb_gt. lia.
    + apply N.eqb_eq in H. left. apply N.leb_gt. lia.
Qed.

Lemma slug_lower (unicodeLower : N -> jsstring) (s : jsstring) :
  forallb slug_unit s = true -> toLowerCase unicodeLower s = s.
Proof.
  unfold toLowerCase. induction s as [|c s IH]; [reflexivity|].
  intros H. simpl in H. apply andb_true_iff in H as [Hc Hs].
  cbn [flat_map]. rewrite (slug_unit_lower _ _ Hc), (IH Hs). reflexivity.
Qed.

Lemma slug_ascii (s : jsstring) : forallb slug_unit s = true -> ascii s.
Proof.
  unfold ascii. rewrite forallb_forall, Forall_forall.
  intros H c Hc. apply slug_unit_small. now apply H.
Qed.

Lemma collapse_runs_fixed (s : jsstring) :
  forall b : bool,
    forallb slug_unit s = true ->
    no_hyphen_pair s = true ->
    (b = true -> starts_with_hyphen s = false) ->
    collapse_runs b s = s.
Proof.
  induction s as [|c s IH]; intros b Hu Hp Hb; [reflexivity|].
  simpl in Hu, Hp. apply andb_true_iff in Hu as [Hc Hu].
  apply andb_true_iff in Hp as [Hcs Hp].
  cbn [collapse_runs]. destruct (is_az09 c) eqn:E.
  - f_equal. apply IH; [exact Hu | exact Hp | discriminate].
  - unfold slug_unit in Hc. rewrite E in Hc. cbn [orb] in Hc.
    destruct b.
    + specialize (Hb eq_refl). cbn [starts_with_hyphen] in Hb. congruence.
    + rewrite Hc in Hcs. cbn [andb] in Hcs. apply negb_true_iff in Hcs.
      apply N.eqb_eq in Hc. subst c. f_equal.
      apply IH; [exact Hu | exact Hp | intros _; exact Hcs].
Qed.

Lemma drop_leading_hyphen_fixed (s : jsstring) :
  starts_with_hyphen s = false -> drop_leading_hyphen s = s.
Proof.
  destruct s as [|c r]; [reflexivity|]. simpl. now intros ->.
Qed.

Lemma drop_trailing_hyphen_fixed (s : jsstring) :
  ends_with_hyphen s = false -> drop_trailing_hyphen s = s.
Proof.
  induction s as [|c s IH]; [reflexivity|].
  destruct s as [|d s].
  - simpl. now intros ->.
  - intros H. change (drop_trailing_hyphen (c :: d :: s))
      with (c :: drop_trailing_hyphen (d :: s)).
    f_equal. apply IH. exact H.
Qed.

(** A slug is its own slug. *)
Lemma well_formed_fixed (unicodeLower unicodeDecomp : N -> jsstring)
    (s : jsstring) :
  well_formed_slug s = true ->
  slugify unicodeLower s = s
  /\ slugify_manual_enrich unicodeLower unicodeDecomp s = s.
Proof.
  unfold well_formed_slug. intros H.
  apply andb_true_iff in H as [H H4]. apply andb_true_iff in H as [H H3].
  apply andb_true_iff in H as [H1 H2].
  apply negb_true_iff in H3, H4.
  assert (E : slugify unicodeLower s = s).
  { unfold slugify, trim_hyphens. rewrite (slug_lower _ _ H1).
    rewrite (collapse_runs_fixed s false H1 H2) by discriminate.
    now rewrite (drop_leading_hyphen_fixed _ H3),
      (drop_trailing_hyphen_fixed _ H4). }
  split; [exact E|].
  rewrite (slugify_manual_enrich_ascii unicodeLower unicodeDecomp s); [exact E|].
  now apply slug_ascii.
Qed.

Lemma collapse_runs_keeps_az09 (s : jsstring) :
  forall b : bool, has_az09 (collapse_runs b s) = has_az09 s.
Proof.
  unfold has_az09.
  induction s as [|c s IH]; intros b; [reflexivity|].
  cbn [collapse_runs existsb]. destruct (is_az09 c) eqn:E.
  - cbn [existsb]. now rewrite E.
  - destruct b; [apply IH|].
    cbn [existsb]. change (is_az09 hyphen) with false. apply IH.
Qed.

Lemma drop_leading_keeps_az09 (s : jsstring) :
  has_az09 (drop_leading_hyphen s) = has_az09 s.
Proof.
  unfold has_az09. destruct s as [|c r]; [reflexivity|]. simpl.
  destruct (N.eqb_spec c hyphen) as [->|]; reflexivity.
Qed.

Lemma drop_trailing_keeps_az09 (s : jsstring) :
  has_az09 (drop_trailing_hyphen s) = has_az09 s.
Proof.
  unfold has_az09. induction s as [|c s IH]; [reflexivity|].
  destruct s as [|d s].
  - simpl. destruct (N.eqb_spec c hyphen) as [->|]; reflexivity.
  - change (drop_trailing_hyphen (c :: d :: s))
      with (c :: drop_trailing_hyphen (d :: s)).
    cbn [existsb] in *. now rewrite IH.
Qed.

Lemma well_formed_empty (s : jsstring) :
  well_formed_slug s = true -> has_az09 s = false -> s = [].
Proof.
  unfold well_formed_slug, has_az09. intros H N0.
  apply andb_true_iff in H as [H H4]. apply andb_true_iff in H as [H H3].
  apply andb_true_iff in H as [H1 H2].
  apply negb_true_iff in H3, H4.
  destruct s as [|c s]; [reflexivity|]. exfalso.
  cbn [forallb existsb starts_with_hyphen] in *.
  apply andb_true_iff in H1 as [Hc _].
  apply orb_false_iff in N0 as [Nc _].
  unfold slug_unit in Hc. rewrite Nc in Hc. cbn [orb] in Hc. congruence.
Qed.

Lemma app_hyphen_inj (a : jsstring) :
  forall b x y : jsstring,
    hyphen_free x = true -> hyphen_free y = true ->
    a ++ hyphen :: x = b ++ hyphen :: y -> a = b /\ x = y.
Proof.
  unfold hyphen_free.
  induction a as [|c a IH]; intros [|d b] x y Hx Hy E; cbn [app] in E.
  - injection E as ->. auto.
  - injection E as <- ->. exfalso.
    rewrite forallb_app in Hx. apply andb_true_iff in Hx as [_ Hx].
    cbn [forallb] in Hx. now rewrite N.eqb_refl in Hx.
  - injection E as -> <-. exfalso.
    rewrite forallb_app in Hy. apply andb_true_iff in Hy as [_ Hy].
    cbn [forallb] in Hy. now rewrite N.eqb_refl in Hy.
  - injection E as -> E. destruct (IH b x y Hx Hy E) as [-> ->]. auto.
Qed.

(** X16.  Every slug is well formed.  Whatever the text, each of the three
    [slugify] functions returns small ASCII letters, digits and single
    hyphens only, with no hyphen at either end. *)
Theorem slugs_are_well_formed (unicodeLower unicodeDecomp : N -> jsstring)
    (text : jsstring) :
  well_formed_slug (slugify unicodeLower text) = true
  /\ well_formed_slug (slugify_scrape_extra unicodeLower text) = true
  /\ well_formed_slug (slugify_manual_enrich unicodeLower unicodeDecomp text)
     = true.
Proof.
  repeat split; apply trim_collapse_well_formed.
Qed.

(** X17.  The [slugify] functions are idempotent, and each leaves the slugs
    of the others alone: a slug is its own slug. *)
Theorem slugify_is_idempotent (unicodeLower unicodeDecomp : N -> jsstring)
    (text : jsstring) :
  slugify unicodeLower (slugify unicodeLower text) = slugify unicodeLower text
  /\ slugify_manual_enrich unicodeLower unicodeDecomp
       (slugify_manual_enrich unicodeLower unicodeDecomp text)
     = slugify_manual_enrich unicodeLower unicodeDecomp text
  /\ slugify_manual_enrich unicodeLower unicodeDecomp
       (slugify unicodeLower text)
     = slugify unicodeLower text
  /\ slugify unicodeLower
       (slugify_manual_enrich unicodeLower unicodeDecomp text)
     = slugify_manual_enrich unicodeLower unicodeDecomp text.
Proof.
  pose proof (well_formed_fixed unicodeLower unicodeDecomp
                (slugify unicodeLower text)
                (trim_collapse_well_formed _)) as [A B].
  pose proof (well_formed_fixed unicodeLower unicodeDecomp
                (slugify_manual_enrich unicodeLower unicodeDecomp text)
                (trim_collapse_well_formed _)) as [C D].
  auto.
Qed.

(** X18.  The slug is empty exactly when the lower-cased text has no small
    ASCII letter and no digit: a name written in another script, or made of
    punctuation, gets the empty slug. *)
Theorem slug_is_empty_without_letters (unicodeLower : N -> jsstring)
    (text : jsstring) :
  slugify unicodeLower text = []
  <-> has_az09 (toLowerCase unicodeLower text) = false.
Proof.
  assert (K : has_az09 (slugify unicodeLower text)
              = has_az09 (toLowerCase unicodeLower text)).
  { unfold slugify, trim_hyphens.
    now rewrite drop_trailing_keeps_az09, drop_leading_keeps_az09,
      collapse_runs_keeps_az09. }
  split.
  - intros E. rewrite <- K, E. reflexivity.
  - intros E. apply well_formed_empty.
    + apply trim_collapse_well_formed.
    + now rewrite K.
Qed.

(** X13.  Artists are told apart by slug only.  Once [upsertArtist] has
    returned the row of an artist, [upsertArtist] for any artist of the same
    slug (a name that differs by case or punctuation, or any two names of
    empty slug) inserts nothing and returns that same row. *)
Theorem artists_of_one_slug_share_a_row (unicodeLower : N -> jsstring)
    (faults later : Faults) (a b : RAArtist) (s s1 s2 s3 : Store) (i : uuid)
    (out : result uuid) :
  artist_slug unicodeLower a = artist_slug unicodeLower b ->
  upsertArtist unicodeLower faults a s = (Ok i, s1) ->
  extends (artists s1) (artists s2) ->
  upsertArtist unicodeLower later b s2 = (out, s3) ->
  same_entities s2 s3 /\ forall j, out = Ok j -> j = i.
Proof.
  intros Hslug E1 G E2.
  destruct (upsertArtist_result unicodeLower faults _ _ _ _ E1) as (_ & O1 & _).
  destruct (O1 i eq_refl) as (r & F & <-).
  apply (find_extends _ _ _ _ G) in F. rewrite Hslug in F.
  destruct (upsertArtist_result unicodeLower later _ _ _ _ E2)
    as (_ & _ & F2 & _).
  exact (F2 r F).
Qed.

(** X19.  The festival slug tells the event.  When the ids of two events
    hold no hyphen (the ids of the service are numbers), equal festival
    slugs mean equal ids and equal title slugs: two events with different
    ids never share a festival row. *)
Theorem festival_slug_tells_the_event (unicodeLower : N -> jsstring)
    (e1 e2 : RAEvent) :
  hyphen_free (event_id e1) = true ->
  hyphen_free (event_id e2) = true ->
  festival_slug unicodeLower e1 = festival_slug unicodeLower e2 ->
  event_id e1 = event_id e2
  /\ slugify unicodeLower (event_title e1)
     = slugify unicodeLower (event_title e2).
Proof.
  intros H1 H2 E. unfold festival_slug in E.
  change (lit "-") with [hyphen] in E. cbn [app] in E.
  destruct (app_hyphen_inj _ _ _ _ H1 H2 E) as [-> ->]. auto.
Qed.

(** X20.  [manual-enrich.ts] finds the artists of [sync.ts] when their
    names are ASCII: the row that [upsertArtist] returned for an artist is
    the row that the lookup by [slugify(name)] of [manual-enrich.ts]
    finds. *)
Theorem manual_enrich_finds_ascii_artists
    (unicodeLower unicodeDecomp : N -> jsstring) (faults : Faults)
    (artist : RAArtist) (s s1 s2 : Store) (i : uuid) :
  ascii (artist_name artist) ->
  upsertArtist unicodeLower faults artist s = (Ok i, s1) ->
  extends (artists s1) (artists s2) ->
  exists r,
    find (artist_slugged
            (slugify_manual_enrich unicodeLower unicodeDecomp
               (artist_name artist))) (artists s2) = Some r
    /\ id r = i.
Proof.
  intros A E G.
  destruct (upsertArtist_result unicodeLower faults _ _ _ _ E) as (_ & O & _).
  destruct (O i eq_refl) as (r & F & <-).
  exists r. split; [|reflexivity].
  rewrite (slugify_manual_enrich_ascii unicodeLower unicodeDecomp _ A).
  exact (find_extends _ _ _ _ G F).
Qed.

End SlugShapeFacts.
(** ** The clip clean-up *)

Module ClipFacts.
Import ManualEnrich.

Lemma starts_with_spec (needle hay : jsstring) :
  starts_with needle hay = true <-> exists post, hay = needle ++ post.
Proof.
  revert hay. induction needle as [|n ns IH]; intros hay; cbn [starts_with].
  - split; [intros _; now exists hay | reflexivity].
  - destruct hay as [|h hs].
    + split; [discriminate | intros [post E]; discriminate E].
    + rewrite andb_true_iff, N.eqb_eq, IH. split.
      * intros [-> [post ->]]. now exists post.
      * intros [post E]. injection E as -> ->. split; [reflexivity|].
        now exists post.
Qed.

Lemma includes_spec (hay needle : jsstring) :
  includes hay needle = true <-> exists pre post, hay = pre ++ needle ++ post.
Proof.
  induction hay as [|h hs IH]; cbn [includes].
  - rewrite orb_false_r, starts_with_spec. split.
    + intros [post E]. now exists [], post.
    + intros (pre & post & E). destruct pre; [now exists post|discriminate E].
  - rewrite orb_true_iff, starts_with_spec, IH. split.
    + intros [[post E]|(pre & post & ->)].
      * now exists [], post.
      * now exists (h :: pre), post.
    + intros (pre & post & E). destruct pre as [|p pre].
      * left. now exists post.
      * right. injection E as -> ->. now exists pre, post.
Qed.

Lemma includes_trans (a b c : jsstring) :
  includes a b = true -> includes b c = true -> includes a c = true.
Proof.
  rewrite !includes_spec. intros (p1 & q1 & ->) (p2 & q2 & ->).
  exists (p1 ++ p2), (q2 ++ q1). now rewrite <- !app_assoc.
Qed.

Lemma includes_nothing (needle : jsstring) :
  includes [] needle = match needle with [] => true | _ => false end.
Proof. now destruct needle. Qed.

(** The first piece is a prefix of the text. *)
Lemma pieces_head (s : jsstring) :
  exists w ws post, pieces false s = w :: ws /\ s = w ++ post.
Proof.
  induction s as [|c r IH]; cbn [pieces].
  - now exists [], [], [].
  - destruct (is_space c).
    + now exists [], (pieces true r), (c :: r).
    + destruct IH as (w & ws & post & -> & ->).
      now exists (c :: w), ws, post.
Qed.

(** Every piece is a part of the text. *)
Lemma pieces_parts (s : jsstring) :
  forall (b : bool) (w : jsstring),
    In w (pieces b s) -> includes s w = true.
Proof.
  induction s as [|c r IH]; intros b w H; cbn [pieces] in H.
  - destruct H as [<-|[]]. reflexivity.
  - apply includes_spec. destruct (is_space c).
    + assert (K : w = [] \/ In w (pieces true r)).
      { destruct b; [now right|]. destruct H as [<-|H]; auto. }
      destruct K as [->|K]; [now exists [], (c :: r)|].
      apply IH, includes_spec in K as (pre & post & ->).
      now exists (c :: pre), post.
    + destruct (pieces_head r) as (w0 & ws & post & E & Hr).
      rewrite E in H. destruct H as [<-|H].
      * exists [], post. cbn [app]. now rewrite Hr.
      * assert (K : In w (pieces false r)) by (rewrite E; now right).
        apply IH, includes_spec in K as (pre & post' & ->).
        now exists (c :: pre), post'.
Qed.

Section AnyClips.

Variable number : Type.
Variable unicodeLower : N -> jsstring.

Local Abbreviation Clip := (Clip number).
Local Abbreviation valid := (@valid number unicodeLower).
Local Abbreviation validClips := (@validClips number unicodeLower).
Local Abbreviation cleaned := (@cleaned number unicodeLower).
Local Abbreviation titleLower := (@titleLower number unicodeLower).

Lemma nameWords_parts (name w : jsstring) :
  In w (nameWords name) -> includes name w = true /\ 2 < length w.
Proof.
  unfold nameWords, split_spaces. rewrite filter_In. intros [H L].
  split; [eapply pieces_parts; exact H | now apply Nat.ltb_lt in L].
Qed.

Lemma filter_all {A} (p : A -> bool) (l : list A) :
  length (filter p l) = length l <-> forallb p l = true.
Proof.
  induction l as [|x l IH]; cbn [filter forallb length]; [tauto|].
  pose proof (filter_length_le p l) as B.
  destruct (p x); cbn [length andb].
  - rewrite <- IH. split; [now intros [=] | now intros ->].
  - split; [lia | discriminate].
Qed.

Lemma filter_again {A} (p : A -> bool) (l : list A) :
  filter p (filter p l) = filter p l.
Proof.
  induction l as [|x l IH]; [reflexivity|]. cbn [filter].
  destruct (p x) eqn:E; [|exact IH]. cbn [filter]. now rewrite E, IH.
Qed.

(** X27.  Which clips the clean-up keeps.  When the lower-cased artist name
    has a word of more than two code units, a clip is kept exactly when its
    lower-cased title contains one such word (the test on the whole name
    adds nothing); otherwise it is kept exactly when the title contains the
    whole name. *)
Theorem clips_are_kept_by_word (artistName : jsstring) (clip : Clip) :
  valid artistName clip
  = match nameWords (toLowerCase unicodeLower artistName) with
    | [] => includes (titleLower clip) (toLowerCase unicodeLower artistName)
    | words => existsb (fun word => includes (titleLower clip) word) words
    end.
Proof.
  unfold ManualEnrich.valid.
  destruct (nameWords (toLowerCase unicodeLower artistName)) as [|w ws] eqn:W.
  - cbn [existsb]. now destruct (includes _ _).
  - destruct (includes (titleLower clip) (toLowerCase unicodeLower artistName))
      eqn:E.
    + symmetry. apply existsb_exists. exists w. split; [now left|].
      eapply includes_trans; [exact E|].
      apply nameWords_parts. rewrite W. now left.
    + now destruct (existsb _ (w :: ws)).
Qed.

(** X28.  A clip without a title (missing or empty) is removed by the
    clean-up, unless the lower-cased artist name is empty: then every clip
    is kept. *)
Theorem untitled_clips_are_removed (artistName : jsstring) (clip : Clip) :
  clip_title clip = None \/ clip_title clip = Some [] ->
  valid artistName clip
  = match toLowerCase unicodeLower artistName with
    | [] => true
    | _ => false
    end.
Proof.
  intros H. unfold ManualEnrich.valid.
  assert (T : titleLower clip = []).
  { unfold ManualEnrich.titleLower. now destruct H as [-> | ->]. }
  rewrite T, includes_nothing.
  destruct (toLowerCase unicodeLower artistName) as [|c name] eqn:N;
    [reflexivity|].
  destruct (existsb _ _) eqn:X; [|reflexivity].
  apply existsb_exists in X as (w & Hw & Hi).
  apply nameWords_parts in Hw as [_ L].
  rewrite includes_nothing in Hi. destruct w; [cbn in L; lia | discriminate].
Qed.

(** X29.  The clean-up writes exactly when there is something to remove,
    and then only removes: the spotlight is left alone when every clip is
    valid; what is written otherwise is a shorter list, made of the valid
    clips in their order, on which a second clean-up has nothing to do. *)
Theorem cleanup_only_removes (artistName : jsstring) (clips : list Clip) :
  (cleaned artistName clips = None
   <-> forallb (valid artistName) clips = true)
  /\ forall kept,
      cleaned artistName clips = Some kept ->
      kept = filter (valid artistName) clips
      /\ length kept < length clips
      /\ cleaned artistName kept = None.
Proof.
  unfold ManualEnrich.cleaned, ManualEnrich.validClips.
  pose proof (filter_all (valid artistName) clips) as A.
  pose proof (filter_length_le (valid artistName) clips) as B.
  destruct clips as [|c l] eqn:C; [split; [tauto | discriminate]|].
  rewrite <- C in *. clear C.
  destruct (Nat.eqb_spec (length (filter (valid artistName) clips))
              (length clips)) as [E|E].
  - split; [|discriminate]. split; [intros _; now apply A | reflexivity].
  - split.
    + split; [discriminate|]. intros H. apply A in H. contradiction.
    + intros kept [= <-]. split; [reflexivity|]. split; [lia|].
      rewrite filter_again.
      destruct (filter (valid artistName) clips); [reflexivity|].
      now rewrite Nat.eqb_refl.
Qed.

End AnyClips.

End ClipFacts.

(** ** Festivals that the store does not take *)

Module RefusalFacts.
Import StoreFacts UpsertFacts LoopFacts RunFacts CountFacts KeepFacts.
Import WillingFacts.

(** The festivals that one turn of the loop can add passed the store. *)
Lemma listingStep_festivals (unicodeLower : N -> jsstring) (faults : Faults)
    (st : Run) (listing : RAEventListing) :
  let st' := listingStep unicodeLower faults st listing in
  festivals (snd st') = festivals (snd st)
  \/ exists r t,
      faults t (InsertFestival (values r)) = None
      /\ festivals (snd st') = festivals (snd st) ++ [r].
Proof.
  destruct st as [c s]. unfold listingStep. cbn [fst snd].
  destruct (listing_event listing) as [event|]; [|now left].
  destruct (Sync.upsertVenue faults event s) as [[venueId|m] s1] eqn:E1;
    destruct (upsertVenue_keeps _ _ _ _ _ E1) as (V1 & _); [|left; exact V1].
  rewrite <- V1.
  unfold upsertFestival, bind, selectFestivalBySlug, insertFestival, statement,
    ret.
  destruct (faults (clock s1) _) as [m|]; [now left|].
  cbn [festivals tick].
  destruct (find _ (festivals s1)) as [r|] eqn:F.
  - left.
    destruct (artists_loop_bounds unicodeLower faults (id r) event
                (artists_of event) (count_festival c, tick s1))
      as (_ & _ & _ & _ & _ & _ & K & _).
    exact K.
  - cbn [clock tick].
    destruct (faults (S (clock s1)) _) as [m|] eqn:Hf; [now left|].
    cbn [festivals tick festivals_slug festival_values].
    rewrite (find_none_existsb _ _ F).
    right.
    match goal with
    | |- context [fold_left ?f ?l ?st0] =>
        destruct (artists_loop_bounds unicodeLower faults
                    (next_uuid (tick (tick s1))) event (artists_of event) st0)
          as (_ & _ & _ & _ & _ & _ & K & _)
    end.
    eexists. exists (S (clock s1)). split; [|exact K]. exact Hf.
Qed.

Lemma find_snoc_other {A} (p : A -> bool) (l : list A) (x : A) :
  find p l = None -> p x = false -> find p (l ++ [x]) = None.
Proof.
  induction l as [|y l IH]; cbn [app find]; intros H Hx.
  - now rewrite Hx.
  - destruct (p y); [discriminate | now apply IH].
Qed.

Section Refused.

Variable unicodeLower : N -> jsstring.
Variable faults : Faults.
Variable slug : jsstring.

(** The store refuses, at any time, to insert a festival under [slug]. *)
Hypothesis refused :
  forall t v, festivals_slug v = slug -> faults t (InsertFestival v) <> None.

Lemma listings_loop_absent (listings : list RAEventListing) :
  forall st : Run,
    find (festival_slugged slug) (festivals (snd st)) = None ->
    find (festival_slugged slug)
      (festivals (snd (fold_left (listingStep unicodeLower faults)
                         listings st))) = None.
Proof.
  induction listings as [|x l IH]; intros st H; [exact H|].
  cbn [fold_left]. apply IH.
  destruct (listingStep_festivals unicodeLower faults st x)
    as [E|(r & t & Hf & E)]; rewrite E; [exact H|].
  apply find_snoc_other; [exact H|].
  unfold festival_slugged.
  destruct (jseqb (festivals_slug (values r)) slug) eqn:J; [|reflexivity].
  apply jseqb_eq in J. destruct (refused t (values r) J Hf).
Qed.

Lemma refused_upserts_throw (event : RAEvent) (s : Store) :
  festival_slug unicodeLower event = slug ->
  find (festival_slugged slug) (festivals s) = None ->
  exists message s1,
    Sync.upsertVenue faults event s = (Throw message, s1)
    \/ (exists venueId s0,
          Sync.upsertVenue faults event s = (Ok venueId, s0)
          /\ upsertFestival unicodeLower faults event venueId s0
             = (Throw message, s1)).
Proof.
  intros Hslug H.
  destruct (Sync.upsertVenue faults event s) as [[venueId|m] s0] eqn:E1.
  2:{ exists m, s0. now left. }
  destruct (upsertVenue_keeps _ _ _ _ _ E1) as (V1 & _).
  assert (T : exists message s1,
             upsertFestival unicodeLower faults event venueId s0
             = (Throw message, s1)).
  { unfold upsertFestival, bind, selectFestivalBySlug, insertFestival,
      statement, ret.
    destruct (faults (clock s0) _) as [m|]; [now exists m, (tick s0)|].
    cbn [festivals tick]. rewrite Hslug, V1, H. cbn [clock tick].
    destruct (faults (S (clock s0)) _) as [m|] eqn:Hf;
      [now exists m, (tick (tick s0))|].
    destruct (refused _ (festival_values event slug venueId) eq_refl Hf). }
  destruct T as (message & s1 & E2).
  exists message, s1. right. exists venueId, s0. auto.
Qed.

End Refused.

(** X14.  A festival that the store does not take fails on every run.
    When the store refuses every insert of a festival under the slug of some
    event (as a [varchar(255)] column refuses a slug of 300 letters) and the
    festival is not in the table, every run of [syncArea] that fetches a
    listing of the event comes to an end with the festival still not in the
    table, so that the next run starts as this one did; and a run that
    returns normally has recorded an error [Event <title>: <message>] for
    the event, counted fewer festivals than listings, and logged
    [partial]. *)
Theorem refused_festival_fails_every_run (unicodeLower : N -> jsstring)
    (faults : Faults) (network : N -> jsstring -> jsstring -> nat -> Reply)
    (elapsed : N -> Z) (fuel : nat) (areaName : jsstring) (areaId : N)
    (dateGte dateLte : jsstring) (listings : list RAEventListing)
    (trace : list Effect) (listing : RAEventListing) (event : RAEvent)
    (s : Store) :
  (forall t v,
      festivals_slug v = festival_slug unicodeLower event ->
      faults t (InsertFestival v) <> None) ->
  find (festival_slugged (festival_slug unicodeLower event)) (festivals s)
  = None ->
  fetchRAEvents (network areaId dateGte dateLte) fuel
  = Some (Ok listings, trace) ->
  In listing listings ->
  listing_event listing = Some event ->
  exists out s',
    syncArea unicodeLower faults network elapsed fuel areaName areaId
      dateGte dateLte s = Some (out, s')
    /\ find (festival_slugged (festival_slug unicodeLower event))
         (festivals s') = None
    /\ forall c,
        out = Ok c ->
        (exists message,
            In (lit "Event " ++ event_title event ++ lit ": " ++ message)
              (errors c))
        /\ festivalsFound c < length listings
        /\ exists row,
            scrapeLogs s' = scrapeLogs s ++ [row]
            /\ logs_status (values row) = lit "partial".
Proof.
  intros Hrefused Habsent F Hin L.
  pose proof (syncArea_stages unicodeLower faults network elapsed fuel
                areaName areaId dateGte dateLte s _ _ F) as E.
  cbv zeta in E. unfold processFetched in E.
  apply in_split in Hin as (before & after & ->).
  remember (fold_left (listingStep unicodeLower faults)
              (before ++ listing :: after) (no_counters, s)) as final eqn:Hfinal.
  pose proof (listings_loop_absent unicodeLower faults _ Hrefused
                (before ++ listing :: after) (no_counters, s) Habsent) as Hfit.
  rewrite <- Hfinal in Hfit.
  pose proof (listings_loop_spec unicodeLower faults
                (before ++ listing :: after) (no_counters, s)) as (S0 & _).
  cbv zeta in S0. rewrite <- Hfinal in S0. cbn [snd] in S0.
  rewrite fold_left_app in Hfinal. cbn [fold_left] in Hfinal.
  remember (fold_left (listingStep unicodeLower faults) before
              (no_counters, s)) as reached eqn:Hreached.
  pose proof (listings_loop_absent unicodeLower faults _ Hrefused before
                (no_counters, s) Habsent) as Hfit0.
  rewrite <- Hreached in Hfit0.
  pose proof (listings_loop_bounds unicodeLower faults before
                (no_counters, s)) as (B0 & _).
  cbv zeta in B0. rewrite <- Hreached in B0.
  cbn [fst festivalsFound no_counters] in B0.
  destruct reached as [c0 s0]. cbn [fst snd] in *.
  destruct (refused_upserts_throw unicodeLower faults _ Hrefused event s0
              eq_refl Hfit0) as (message & s1 & Hthrown).
  destruct (listingStep_thrown unicodeLower faults c0 s0 s1 listing event
              message L Hthrown) as (E1 & _).
  rewrite E1 in Hfinal.
  pose proof (listings_loop_spec unicodeLower faults after
                (push_error (event_error (event_title event) message) c0, s1))
    as (_ & X & _).
  pose proof (listings_loop_bounds unicodeLower faults after
                (push_error (event_error (event_title event) message) c0, s1))
    as (B1 & _).
  cbv zeta in X, B1. rewrite <- Hfinal in X, B1.
  cbn [fst errors push_error festivalsFound] in X, B1.
  assert (Herr : In (lit "Event " ++ event_title event ++ lit ": " ++ message)
                   (errors (fst final))).
  { eapply extends_In; [exact X|]. apply in_or_app. right. now left. }
  destruct (faults (clock (snd final)) _) as [m|].
  - do 2 eexists. split; [exact E|]. split; [exact Hfit | discriminate].
  - do 2 eexists. split; [exact E|]. split; [exact Hfit|].
    intros c [= <-]. split; [now exists message|]. split.
    { rewrite length_app. cbn [length]. lia. }
    eexists. split.
    { cbn [scrapeLogs add_log tick]. rewrite (entity_steps_logs _ _ S0).
      reflexivity. }
    cbn [values log_values logs_status].
    destruct (errors (fst final)); [destruct Herr | reflexivity].
Qed.

End RefusalFacts.

(** ** Venues *)

Module VenueFacts.
Import StoreFacts UpsertFacts.

Lemma upsertVenue_finds (faults : Faults) (event : RAEvent) (v : RAVenue)
    (s s1 : Store) (i : uuid) :
  event_venue event = Some v ->
  Sync.upsertVenue faults event s = (Ok (Some i), s1) ->
  exists r,
    find (venue_named (venue_name v)) (venues s1) = Some r /\ id r = i.
Proof.
  intros Hv E.
  destruct (upsertVenue_cases faults event s)
    as [(_ & E')|[(w & r & Hw & F & E')|[(w & Hw & F & E')|(m & [E'|E'])]]];
    rewrite E' in E; try discriminate E.
  - rewrite Hv in Hw. injection Hw as <-. injection E as <- <-.
    exists r. auto.
  - rewrite Hv in Hw. injection Hw as <-. injection E as <- <-.
    exists {| id := next_uuid s; values := venue_values v |}.
    split; [|reflexivity].
    cbn [venues add_venue tick].
    apply (find_snoc_none _ _ {| id := next_uuid s; values := venue_values v |} F).
    unfold venue_named. cbn [values venues_name venue_values].
    apply jseqb_refl.
Qed.

(** X12.  Venues are told apart by their exact name only.  Once
    [upsertVenue] has returned the row of a venue, [upsertVenue] for an
    event at a venue of the same name inserts nothing and returns that same
    row: the area, country and address of the later listing are not
    stored. *)
Theorem venues_of_one_name_share_a_row (faults later : Faults)
    (e1 e2 : RAEvent) (v1 v2 : RAVenue) (s s1 s2 s3 : Store) (i : uuid)
    (out : result (option uuid)) :
  event_venue e1 = Some v1 ->
  event_venue e2 = Some v2 ->
  venue_name v1 = venue_name v2 ->
  Sync.upsertVenue faults e1 s = (Ok (Some i), s1) ->
  extends (venues s1) (venues s2) ->
  Sync.upsertVenue later e2 s2 = (out, s3) ->
  same_entities s2 s3 /\ forall j, out = Ok j -> j = Some i.
Proof.
  intros H1 H2 Hn E1 G E2.
  destruct (upsertVenue_finds faults e1 v1 s s1 i H1 E1) as (r & F & <-).
  apply (find_extends _ _ _ _ G) in F. rewrite Hn in F.
  assert (Hname : venue_name v2 <> []).
  { intros N0. unfold Sync.upsertVenue in E1. rewrite H1, Hn, N0 in E1.
    discriminate E1. }
  destruct (upsertVenue_cases later e2 s2)
    as [([Hv|(w & Hw & Hw')] & E')|[(w & r' & Hw & F' & E')|
        [(w & Hw & F' & E')|(m & [E'|E'])]]];
    rewrite E' in E2; injection E2 as <- <-.
  - rewrite H2 in Hv. discriminate Hv.
  - rewrite H2 in Hw. injection Hw as <-. contradiction.
  - rewrite H2 in Hw. injection Hw as <-. rewrite F in F'.
    injection F' as <-. split; [apply same_entities_tick|].
    now intros j [= <-].
  - rewrite H2 in Hw. injection Hw as <-. rewrite F in F'. discriminate F'.
  - split; [apply same_entities_tick | discriminate].
  - split; [apply same_entities_two_ticks | discriminate].
Qed.

End VenueFacts.

(** ** Dates and times *)

Module TimeFacts.

Lemma before_T_clean (s : jsstring) : ~ In 84%N (before_T s).
Proof.
  induction s as [|c r IH]; cbn [before_T]; [tauto|].
  destruct (N.eqb_spec c 84) as [->|Hc]; [tauto|].
  intros [H|H]; [now apply Hc | now apply IH].
Qed.

(** [before_T] cuts at the first [T], or keeps everything. *)
Lemma before_T_split (s : jsstring) :
  exists rest,
    s = before_T s ++ rest /\ (rest = [] \/ exists r, rest = 84%N :: r).
Proof.
  induction s as [|c r (rest & IH & Hrest)]; cbn [before_T].
  - exists []. auto.
  - destruct (N.eqb_spec c 84) as [->|Hc].
    + exists (84%N :: r). split; [reflexivity|]. right. now exists r.
    + exists rest. cbn [app]. split; [now rewrite <- IH | exact Hrest].
Qed.

Lemma after_T_split (s q : jsstring) :
  after_T s = Some q -> s = before_T s ++ 84%N :: q.
Proof.
  induction s as [|c r IH]; cbn [after_T before_T]; [discriminate|].
  destruct (N.eqb_spec c 84) as [->|Hc].
  - now intros [= ->].
  - intros H. cbn [app]. now rewrite <- (IH H).
Qed.

Lemma or_null_some (x t : jsstring) : or_null x = Some t -> t = x /\ 1 <= length t.
Proof.
  destruct x as [|c x]; [discriminate|]. intros [= <-].
  split; [reflexivity | cbn [length]; lia].
Qed.

(** The time of day that is stored: the first five code units of the text
    between the first and the second [T]. *)
Lemma time_part_spec (x : option jsstring) (t : jsstring) :
  time_part x = Some t ->
  1 <= length t <= 5
  /\ ~ In 84%N t
  /\ exists pre mid post,
      x = Some (pre ++ 84%N :: mid ++ post)
      /\ ~ In 84%N pre
      /\ ~ In 84%N mid
      /\ (post = [] \/ exists r, post = 84%N :: r)
      /\ t = firstn 5 mid.
Proof.
  unfold time_part, second_piece_T, slice_0_5.
  destruct x as [s|]; [|discriminate].
  destruct (after_T s) as [q|] eqn:A; [|discriminate]. cbn [option_map].
  intros H. apply or_null_some in H as [-> L].
  split; [split; [exact L | apply firstn_le_length]|].
  split.
  { intros H. apply (before_T_clean q).
    rewrite <- (firstn_skipn 5 (before_T q)). apply in_or_app. now left. }
  destruct (before_T_split q) as (post & Hq & Hpost).
  exists (before_T s), (before_T q), post.
  split; [now rewrite <- Hq, <- (after_T_split _ _ A)|].
  split; [apply before_T_clean|]. split; [apply before_T_clean|].
  split; [exact Hpost | reflexivity].
Qed.

(** X15.  What the lineup rows are given for dates and times.  A start or
    end time, when there is one, is the first five code units of the text
    of [event.startTime] (or [event.endTime]) between its first and its
    second [T]; it has between one and five code units, so that it fits its
    [varchar(10)] column, and holds no [T].  A performance date, when there
    is one, is the text of [event.date] before its first [T] (the whole of
    it when it has no [T]), and is not empty. *)
Theorem lineup_times_fit (festivalId artistId : uuid) (event : RAEvent) :
  (forall t,
      lineups_startTime (lineup_values festivalId artistId event) = Some t ->
      1 <= length t <= 5
      /\ ~ In 84%N t
      /\ exists pre mid post,
          event_startTime event = Some (pre ++ 84%N :: mid ++ post)
          /\ ~ In 84%N pre
          /\ ~ In 84%N mid
          /\ (post = [] \/ exists r, post = 84%N :: r)
          /\ t = firstn 5 mid)
  /\ (forall t,
      lineups_endTime (lineup_values festivalId artistId event) = Some t ->
      1 <= length t <= 5
      /\ ~ In 84%N t
      /\ exists pre mid post,
          event_endTime event = Some (pre ++ 84%N :: mid ++ post)
          /\ ~ In 84%N pre
          /\ ~ In 84%N mid
          /\ (post = [] \/ exists r, post = 84%N :: r)
          /\ t = firstn 5 mid)
  /\ (forall d,
      lineups_performanceDate (lineup_values festivalId artistId event)
      = Some d ->
      1 <= length d
      /\ ~ In 84%N d
      /\ exists rest,
          event_date event = Some (d ++ rest)
          /\ (rest = [] \/ exists r, rest = 84%N :: r)).
Proof.
  cbn [lineup_values lineups_startTime lineups_endTime lineups_performanceDate].
  split; [intros t; apply time_part_spec|].
  split; [intros t; apply time_part_spec|].
  intros d. unfold date_part. destruct (event_date event) as [s|];
    [|discriminate].
  intros H. apply or_null_some in H as [-> L].
  split; [exact L|]. split; [apply before_T_clean|].
  destruct (before_T_split s) as (rest & E & Hrest).
  exists rest. split; [now rewrite <- E | exact Hrest].
Qed.

End TimeFacts.


(** ** More runs *)

Module MoreRuns.
Import ClientFacts ClientShapeFacts RunShapeFacts KeepFacts WillingFacts.
Import ReferenceFacts RescrapeFacts.

Lemma fetchRAEvents_is_paced_witness :
  exists n,
    1 <= n <= 10
    /\ skeleton three_pages_effects = paced 1 n
    /\ requests three_pages_effects = seq 1 n
    /\ sleeps three_pages_effects = repeat 1500%N (n - 1).
Proof.
  apply (fetchRAEvents_is_paced three_pages 10 (Ok [envision; envision])).
  reflexivity.
Defined.

Lemma fetchRAEvents_bounded_total_returns_witness :
  exists out trace,
    fetchRAEvents three_pages 6 = Some (out, trace)
    /\ length (requests trace) <= Nat.max 1 5.
Proof.
  apply (fetchRAEvents_bounded_total_returns three_pages 5 6).
  - intros [|[|[|p]]] listings total; cbn; intros [= _ <-]; lia.
  - lia.
Defined.

Lemma fetchRAEvents_can_run_forever_witness : fetchRAEvents endless 50 = None.
Proof.
  apply (fetchRAEvents_can_run_forever endless).
  intros k. exists (endless_pages 1 k). split.
  - unfold endless_pages. now rewrite length_map, length_seq.
  - apply endless_advances. lia.
Defined.

Lemma thrown_fetch_loses_the_region_witness :
  exists out s',
    sync_with schema_faults (everywhere broken_second_page) empty_store
    = Some (out, s')
    /\ same_entities empty_store s'.
Proof.
  destruct (thrown_fetch_loses_the_region latin1Lower schema_faults
              (everywhere broken_second_page) (fun _ => 5%Z) 5
              (lit "Costa Rica") 26%N (lit "2026-01-01") (lit "2026-04-01")
              empty_store [([envision], 5%Z)] (lit "fetch failed"))
    as (out & s' & E & Q & _).
  - cbn. repeat split; (discriminate || lia).
  - left. reflexivity.
  - cbn. lia.
  - exists out, s'. split; [exact E | exact Q].
Defined.

Lemma http_failure_ends_the_listing_witness :
  sync_with schema_faults (everywhere failing_second_page) empty_store
  = sync_with schema_faults (everywhere ending_second_page) empty_store.
Proof.
  destruct (http_failure_ends_the_listing latin1Lower schema_faults
              (everywhere failing_second_page)
              (everywhere ending_second_page) (fun _ => 5%Z) 5
              (lit "Costa Rica") 26%N (lit "2026-01-01") (lit "2026-04-01")
              empty_store [([envision], 5%Z)] 503%N
              (lit "Service Unavailable")) as [H _].
  - cbn. repeat split; (discriminate || lia).
  - cbn. repeat split; (discriminate || lia).
  - reflexivity.
  - exact I.
  - cbn. lia.
  - exact H.
Defined.

Lemma listing_failure_is_isolated_witness :
  In (lit "Event Night One: " ++ value_too_long "255")
    (errors
       (fst (processFetched latin1Lower schema_faults (lit "Costa Rica")
               (Ok ([] ++ night_one :: [night_two])) empty_store))).
Proof.
  destruct (WillingFacts.listing_failure_is_isolated latin1Lower schema_faults
              (lit "Costa Rica") [] [night_two] night_one other_night
              (value_too_long "255") empty_store
              (snd (Sync.upsertVenue schema_faults other_night empty_store)))
    as (_ & _ & _ & _ & _ & H & _).
  - reflexivity.
  - left. reflexivity.
  - exact H.
Defined.

Lemma sync_only_appends_witness :
  grows empty_store (store_after envision_first_run).
Proof.
  destruct (sync_only_appends latin1Lower schema_faults (one_page [envision])
              (fun _ => 5%Z) 3 (lit "2026-01-01") (lit "2026-04-01")
              empty_store (store_after envision_first_run)) as [H _].
  eapply (H (lit "Costa Rica") 26%N). vm_compute. reflexivity.
Defined.

Lemma slugs_stay_unique_witness :
  unique_artist_slugs (store_after envision_first_run)
  /\ unique_festival_slugs (store_after envision_first_run).
Proof.
  destruct (slugs_stay_unique latin1Lower schema_faults (one_page [envision])
              (fun _ => 5%Z) 3 (lit "2026-01-01") (lit "2026-04-01")
              empty_store (store_after envision_first_run)) as [H _].
  - split; constructor.
  - eapply (H (lit "Costa Rica") 26%N). vm_compute. reflexivity.
Defined.

Lemma willing_store_reconciles_everything_witness :
  exists c s',
    sync_with no_faults (one_page [envision]) empty_store = Some (Ok c, s')
    /\ errors c = []
    /\ festivalsFound c = 1
    /\ artistsFound c = 2.
Proof.
  destruct (willing_store_reconciles_everything latin1Lower no_faults
              (one_page [envision]) (fun _ => 5%Z) 5 (lit "Costa Rica") 26%N
              (lit "2026-01-01") (lit "2026-04-01") [envision]
              [Request 1; ConsoleLog (page_line 1 1 1)] empty_store)
    as (c & s' & E & H1 & H2 & H3 & _).
  - intros t q. reflexivity.
  - constructor; [discriminate | constructor].
  - reflexivity.
  - exists c, s'. split; [exact E|]. split; [exact H1|].
    split; [exact H2 | exact H3].
Defined.

Lemma counters_bound_rows_witness :
  added (artists empty_store) (artists (store_after envision_first_run)) <= 2
  /\ added (festivalLineups empty_store)
       (festivalLineups (store_after envision_first_run)) <= 2.
Proof.
  destruct (counters_bound_rows latin1Lower schema_faults (one_page [envision])
              (fun _ => 5%Z) 3 (lit "Costa Rica") 26%N (lit "2026-01-01")
              (lit "2026-04-01") [envision]
              [Request 1; ConsoleLog (page_line 1 1 1)] empty_store
              (store_after envision_first_run)
              {| festivalsFound := 1; artistsFound := 2; errors := [] |})
    as (_ & _ & _ & _ & _ & H1 & H2 & _).
  - reflexivity.
  - vm_compute. reflexivity.
  - split; [exact H1 | exact H2].
Defined.

Lemma sync_keeps_references_witness :
  references_hold (store_after envision_first_run).
Proof.
  destruct (sync_keeps_references latin1Lower schema_faults
              (one_page [envision]) (fun _ => 5%Z) 3 (lit "2026-01-01")
              (lit "2026-04-01") empty_store (store_after envision_first_run))
    as [H _].
  - split; [intros l [] | intros f i []].
  - eapply (H (lit "Costa Rica") 26%N). vm_compute. reflexivity.
Defined.

Lemma rescrapeRA_counts_its_inserts_witness :
  1 = added (festivals empty_store)
        (festivals (rescraped (rescrape_once schema_faults [envision]
                                 empty_store))).
Proof.
  destruct (rescrapeRA_counts_its_inserts latin1Lower schema_faults
              (one_page [envision]) 5%Z 3 (lit "2026-01-01") (lit "2026-04-01")
              empty_store
              (rescraped (rescrape_once schema_faults [envision] empty_store))
              1) as [H _].
  - vm_compute. reflexivity.
  - exact H.
Defined.

Lemma rescrapeRA_stops_at_the_first_failure_witness :
  exists s',
    rescrape_once schema_faults ([envision] ++ night_one :: [night_two])
      empty_store = Some (Ok 1, s')
    /\ length (festivals s') = 1.
Proof.
  eexists. split.
  - eapply eq_trans.
    + eapply (rescrapeRA_stops_at_the_first_failure latin1Lower schema_faults
                (one_page ([envision] ++ night_one :: [night_two])) 5%Z 3
                (lit "2026-01-01") (lit "2026-04-01") [envision] [night_two]
                night_one).
      * vm_compute. reflexivity.
      * vm_compute. reflexivity.
      * vm_compute. reflexivity.
    + vm_compute. reflexivity.
  - reflexivity.
Defined.

Lemma rescrapeRA_skips_known_festivals_witness :
  exists res s',
    rescrape_once schema_faults two_djs (store_after djs_first_run)
    = Some (res, s')
    /\ same_entities (store_after djs_first_run) s'
    /\ forall n, res = Ok n -> n = 0.
Proof.
  apply (rescrapeRA_skips_known_festivals latin1Lower schema_faults
           (one_page two_djs) 5%Z 3 (lit "2026-01-01") (lit "2026-04-01")
           two_djs [Request 1; ConsoleLog (page_line 1 1 1)]
           (store_after djs_first_run)).
  - reflexivity.
  - constructor; [|constructor].
    exists dj_event. eexists. split; [reflexivity|]. vm_compute. reflexivity.
Defined.

Lemma rescrapeRA_keeps_the_keys_witness :
  grows empty_store (rescraped (rescrape_once schema_faults [envision]
                                  empty_store)).
Proof.
  destruct (rescrapeRA_keeps_the_keys latin1Lower schema_faults
              (one_page [envision]) 5%Z 3 (lit "2026-01-01") (lit "2026-04-01")
              empty_store
              (rescraped (rescrape_once schema_faults [envision] empty_store))
              (Ok 1)) as [H _].
  - vm_compute. reflexivity.
  - exact H.
Defined.

Lemma rescrapeRA_after_syncArea_adds_nothing_witness :
  exists res s2,
    rescrape_once schema_faults two_djs (store_after djs_first_run)
    = Some (res, s2)
    /\ same_entities (store_after djs_first_run) s2
    /\ forall n, res = Ok n -> n = 0.
Proof.
  apply (rescrapeRA_after_syncArea_adds_nothing latin1Lower schema_faults
           schema_faults (one_page two_djs) (fun _ => 5%Z) 5%Z 3
           (lit "Costa Rica") (lit "2026-01-01") (lit "2026-04-01") two_djs
           [Request 1; ConsoleLog (page_line 1 1 1)]
           {| festivalsFound := 1; artistsFound := 1;
              errors := [artist_error dj_long (value_too_long "255")] |}
           empty_store).
  - reflexivity.
  - vm_compute. reflexivity.
  - reflexivity.
Defined.


Lemma artists_of_one_slug_share_a_row_witness :
  same_entities with_bob_moses
    (snd (upsertArtist latin1Lower schema_faults bob_moses_shouted
            with_bob_moses))
  /\ fst (upsertArtist latin1Lower schema_faults bob_moses_shouted
            with_bob_moses) = Ok 0.
Proof.
  assert (E : exists j,
             fst (upsertArtist latin1Lower schema_faults bob_moses_shouted
                    with_bob_moses) = Ok j) by (eexists; reflexivity).
  destruct E as [j E].
  destruct (SlugShapeFacts.artists_of_one_slug_share_a_row latin1Lower
              no_faults schema_faults bob_moses bob_moses_shouted empty_store
              with_bob_moses with_bob_moses
              (snd (upsertArtist latin1Lower schema_faults bob_moses_shouted
                      with_bob_moses))
              0
              (fst (upsertArtist latin1Lower schema_faults bob_moses_shouted
                      with_bob_moses))) as [Q H].
  - reflexivity.
  - reflexivity.
  - exists []. reflexivity.
  - reflexivity.
  - split; [exact Q|]. rewrite E. f_equal. exact (H j E).
Defined.

Lemma festival_slug_tells_the_event_witness :
  event_id spaced_title = event_id hyphened_title
  /\ slugify latin1Lower (event_title spaced_title)
     = slugify latin1Lower (event_title hyphened_title).
Proof.
  apply (SlugShapeFacts.festival_slug_tells_the_event latin1Lower
           spaced_title hyphened_title); reflexivity.
Defined.

Lemma manual_enrich_finds_ascii_artists_witness :
  exists r,
    find (artist_slugged
            (slugify_manual_enrich latin1Lower latin1Decomp
               (artist_name bob_moses))) (artists with_bob_moses) = Some r
    /\ id r = 0.
Proof.
  apply (SlugShapeFacts.manual_enrich_finds_ascii_artists latin1Lower
           latin1Decomp no_faults bob_moses empty_store with_bob_moses
           with_bob_moses 0).
  - repeat (constructor; [reflexivity|]). constructor.
  - reflexivity.
  - exists []. reflexivity.
Defined.

Lemma rescrapeRA_settles_in_one_pass_witness :
  exists n s',
    ScrapeExtra.rescrapeRA latin1Lower no_faults (one_page [envision]) 5%Z 3
      (lit "2026-01-01") (lit "2026-04-01") empty_store = Some (Ok n, s')
    /\ Forall (ScrapeExtra.known latin1Lower s') [envision].
Proof.
  destruct (RescrapeWillingFacts.rescrapeRA_settles_in_one_pass latin1Lower
              no_faults schema_faults (one_page [envision]) 5%Z 3
              (lit "2026-01-01") (lit "2026-04-01") [envision]
              [Request 1; ConsoleLog (page_line 1 1 1)] empty_store)
    as (n & s' & E & K & _).
  - intros t q. reflexivity.
  - constructor; [discriminate | constructor].
  - reflexivity.
  - exists n, s'. split; [exact E | exact K].
Defined.

Lemma untitled_clips_are_removed_witness :
  ManualEnrich.valid latin1Lower (lit "Bob Moses") untitled = false.
Proof.
  apply (ClipFacts.untitled_clips_are_removed nat latin1Lower
           (lit "Bob Moses") untitled).
  left. reflexivity.
Defined.


Lemma refused_festival_fails_every_run_witness :
  exists out s',
    sync_once schema_faults [envision; oversized] empty_store = Some (out, s')
    /\ find (festival_slugged (festival_slug latin1Lower oversized_event))
         (festivals s') = None.
Proof.
  destruct (RefusalFacts.refused_festival_fails_every_run latin1Lower
              schema_faults (one_page [envision; oversized]) (fun _ => 5%Z) 3
              (lit "Costa Rica") 26%N (lit "2026-01-01") (lit "2026-04-01")
              [envision; oversized]
              [Request 1; ConsoleLog (page_line 1 2 2)] oversized
              oversized_event empty_store)
    as (out & s' & E & H & _).
  - intros t v Hv. cbn [schema_faults]. rewrite Hv.
    replace (too_long 255 (festival_slug latin1Lower oversized_event))
      with true by (vm_compute; reflexivity).
    rewrite orb_true_r. discriminate.
  - reflexivity.
  - reflexivity.
  - right. left. reflexivity.
  - reflexivity.
  - exists out, s'. split; [exact E | exact H].
Defined.

Lemma venues_of_one_name_share_a_row_witness :
  same_entities with_club
    (snd (Sync.upsertVenue schema_faults other_night with_club))
  /\ fst (Sync.upsertVenue schema_faults other_night with_club)
     = Ok (Some 0).
Proof.
  assert (E : exists j,
             fst (Sync.upsertVenue schema_faults other_night with_club)
             = Ok j) by (eexists; reflexivity).
  destruct E as [j E].
  destruct (VenueFacts.venues_of_one_name_share_a_row no_faults schema_faults
              uvita_night other_night club_in_uvita club_elsewhere empty_store
              with_club with_club
              (snd (Sync.upsertVenue schema_faults other_night with_club)) 0
              (fst (Sync.upsertVenue schema_faults other_night with_club)))
    as [Q H].
  - reflexivity.
  - reflexivity.
  - reflexivity.
  - reflexivity.
  - exists []. reflexivity.
  - reflexivity.
  - split; [exact Q|]. rewrite E. f_equal. exact (H j E).
Defined.

End MoreRuns.
